(** * Osint: a shallow embedding of [domain.py] (class [OsintTool])

    The reconnaissance tool is a sequential script around six external
    services (name resolution, WHOIS, DNS, TCP connect, the services table
    and an HTTP client) and one thread pool.  The embedding keeps the
    script's structure.  Definitions come first:

    - [Re]          the regular-expression matcher behind [is_ip_address];
    - [Classifier]  [is_ip_address], and the classifier as the
                    specification words it;
    - [Py]          Python values, insertion-ordered dicts, exception
                    classes, and the state-and-exception monad the methods
                    run in;
    - [Json]        the mapping of [json.dump] from Python values to JSON
                    documents, and of [json.load] back;
    - [Pool]        [ThreadPoolExecutor(max_workers).map] as a
                    scheduler-driven transition system;
    - [Osint]       the methods of [OsintTool], one definition per method,
                    and the observations made on a run;
    - [Samples]     concrete worlds;
    - [Lifecycle]   a tool that runs more than once, and the observations
                    made on whole runs.

    The facts follow, module by module, and with them the properties of
    the specification, numbered C1 to C10, and further properties of the
    code, numbered from X1.

    What the embedding takes from outside the source:

    - the outside world of a run is a record of answers, one per external
      call; every call answers or raises an exception of one of the
      classes the handlers tell apart, whether it is made inside a [try]
      or not;
    - [connect_ex] returns the error indicator of the attempt, and raises
      when the socket layer cannot make an address of the text it is
      given; [check_port] is run call by call, so that the calls of the
      worker threads interleave;
    - [response.headers] is the case-insensitive dict in which [requests]
      merges the header lines of a response;
    - which names denote one file is the file system's;
    - console output ([print], the banner) is presentation only and is
      left out;
    - a Python [str] is a [string] whose characters are code points below
      256; on that range [\d] is exactly the ten ASCII digits;
    - the output file is kept as the JSON document it spells. *)

From Stdlib Require Import String Ascii List ZArith Lia Bool Arith.
From Stdlib Require Import Sorted Permutation.
From Stdlib Require Import Decimal DecimalString DecimalZ DecimalPos.
Import ListNotations.

Set Warnings "-register-all".


Local Open Scope string_scope.
Local Open Scope list_scope.

(* ================================================================== *)
(** ** Regular expressions, as [re.match] runs them *)

Module Re.

(** The fragment of Python's pattern language that [domain.py] uses. *)
Inductive regex : Type :=
| Digit                               (* \d      *)
| Lit (c : ascii)                     (* \.      *)
| Cat (r1 r2 : regex)                 (* r1 r2   *)
| Rep (lo hi : nat) (r : regex)       (* r{lo,hi}, and r{n} as r{n,n} *)
| Bol                                 (* ^       *)
| Eol.                                (* $       *)

Definition is_digit (c : ascii) : bool :=
  let n := nat_of_ascii c in (48 <=? n)%nat && (n <=? 57)%nat.

Definition newline : ascii := ascii_of_nat 10.

(** A continuation receives the position reached and the text left. *)
Definition cont : Type := nat -> string -> bool.

(** Greedy bounded repetition: one more iteration is tried first, stopping
    is the fallback once the lower bound is met. *)
Fixpoint rep (m : nat -> string -> cont -> bool) (lo hi : nat)
         (pos : nat) (s : string) (k : cont) : bool :=
  match hi with
  | O => (lo =? 0)%nat && k pos s
  | S hi' =>
      m pos s (fun p' s' => rep m (Nat.pred lo) hi' p' s' k)
      || ((lo =? 0)%nat && k pos s)
  end.

(** [$] without [re.MULTILINE]: at the end of the text, or just before a
    newline that is the last character of the text. *)
Definition at_dollar (s : string) : bool :=
  match s with
  | EmptyString => true
  | String c EmptyString => Ascii.eqb c newline
  | _ => false
  end.

(** Backtracking matcher in continuation-passing style. *)
Fixpoint run (r : regex) (pos : nat) (s : string) (k : cont) : bool :=
  match r with
  | Digit =>
      match s with
      | String c s' => is_digit c && k (S pos) s'
      | EmptyString => false
      end
  | Lit a =>
      match s with
      | String c s' => Ascii.eqb a c && k (S pos) s'
      | EmptyString => false
      end
  | Cat r1 r2 => run r1 pos s (fun p' s' => run r2 p' s' k)
  | Rep lo hi r' => rep (run r') lo hi pos s k
  | Bol => (pos =? 0)%nat && k pos s
  | Eol => at_dollar s && k pos s
  end.

(** [bool(re.match(pattern, text))]: the pattern must match at position 0;
    the text after the match is unconstrained. *)
Definition matches (pattern : regex) (text : string) : bool :=
  run pattern 0 text (fun _ _ => true).

End Re.

(* ================================================================== *)
(** ** The target classifier *)

Module Classifier.
Import Re.

(** [pattern = r'^(\d{1,3}\.){3}\d{1,3}$'] *)
Definition pattern : regex :=
  Cat Bol
      (Cat (Rep 3 3 (Cat (Rep 1 3 Digit) (Lit ".")))
           (Cat (Rep 1 3 Digit) Eol)).

(** [is_ip_address]: [return bool(re.match(pattern, target))] *)
Definition is_ip_address (target : string) : bool :=
  matches pattern target.

(** *** The classifier as the specification words it

    "four 1-to-3-digit groups separated by periods". *)

Fixpoint split_on (sep : ascii) (s : string) : list string :=
  match s with
  | EmptyString => [EmptyString]
  | String c s' =>
      if Ascii.eqb c sep then EmptyString :: split_on sep s'
      else match split_on sep s' with
           | g :: gs => String c g :: gs
           | [] => [String c EmptyString]
           end
  end.

Fixpoint all_digits (s : string) : bool :=
  match s with
  | EmptyString => true
  | String c s' => is_digit c && all_digits s'
  end.

Definition digit_group (g : string) : bool :=
  (1 <=? String.length g)%nat && (String.length g <=? 3)%nat && all_digits g.

Definition dotted_quad (s : string) : bool :=
  match split_on "." s with
  | [a; b; c; d] =>
      digit_group a && digit_group b && digit_group c && digit_group d
  | _ => false
  end.

(** [digits_then n s]: what is left of [s] after exactly [n] leading
    digits, if it has them. *)
Fixpoint digits_then (n : nat) (s : string) : option string :=
  match n with
  | O => Some s
  | S n' =>
      match s with
      | String c s' => if is_digit c then digits_then n' s' else None
      | EmptyString => None
      end
  end.

(** [s] is four digit groups separated by periods, followed by [tail]. *)
Definition quad_with (tail s : string) : Prop :=
  exists g1 g2 g3 g4,
    digit_group g1 = true /\ digit_group g2 = true /\
    digit_group g3 = true /\ digit_group g4 = true /\
    s = (g1 ++ "." ++ g2 ++ "." ++ g3 ++ "." ++ g4 ++ tail)%string.

(** The groups of a text put back together, a period between them. *)
Fixpoint join_dots (gs : list string) : string :=
  match gs with
  | [] => EmptyString
  | [g] => g
  | g :: gs' => (g ++ "." ++ join_dots gs')%string
  end.

(** [(\d{1,3}\.)] and [\d{1,3}$], the two pieces of the pattern. *)
Definition group_dot : regex := Cat (Rep 1 3 Digit) (Lit ".").
Definition last_group : regex := Cat (Rep 1 3 Digit) Eol.

End Classifier.

(* ================================================================== *)
(** ** Python values, exceptions and the monad of the methods *)

Module Py.

(** Dict keys of the report are strings, or port numbers. *)
Inductive key : Type :=
| KStr (s : string)
| KInt (n : Z).

(** The values that reach [self.output]. *)
Inductive value : Type :=
| VNone
| VStr (s : string)
| VList (l : list value)
| VDict (d : list (key * value)).

(** A dict keeps its items in insertion order. *)
Definition dict : Type := list (key * value).

Definition key_eqb (a b : key) : bool :=
  match a, b with
  | KStr s, KStr t => String.eqb s t
  | KInt n, KInt m => Z.eqb n m
  | _, _ => false
  end.

(** [d[k]] *)
Fixpoint dict_get (k : key) (d : dict) : option value :=
  match d with
  | [] => None
  | (k', v) :: d' => if key_eqb k' k then Some v else dict_get k d'
  end.

(** [d[k] = v]: an existing key keeps its place, a new one goes last. *)
Fixpoint dict_set (k : key) (v : value) (d : dict) : dict :=
  match d with
  | [] => [(k, v)]
  | (k', v') :: d' =>
      if key_eqb k' k then (k', v) :: d' else (k', v') :: dict_set k v d'
  end.

(** [dict(pairs)] *)
Definition dict_of_pairs (pairs : list (key * value)) : dict :=
  fold_left (fun d kv => dict_set (fst kv) (snd kv) d) pairs [].

Definition keys (d : dict) : list key := map fst d.

(** Truth value of an object, as [if x] and [not x] take it. *)
Definition truthy (v : value) : bool :=
  match v with
  | VNone => false
  | VStr s => negb (String.eqb s "")
  | VList l => match l with [] => false | _ => true end
  | VDict d => match d with [] => false | _ => true end
  end.

(** [c.lower()] and [s.lower()], for characters below 256: the letters
    A to Z, and the capital letters of Latin-1. *)
Definition lower_char (c : ascii) : ascii :=
  let n := nat_of_ascii c in
  if ((65 <=? n) && (n <=? 90)
      || (192 <=? n) && (n <=? 222) && negb (n =? 215))%nat
  then ascii_of_nat (n + 32)
  else c.

Fixpoint lower (s : string) : string :=
  match s with
  | EmptyString => EmptyString
  | String c s' => String (lower_char c) (lower s')
  end.

(** [sep.join(l)] *)
Fixpoint join (sep : string) (l : list string) : string :=
  match l with
  | [] => EmptyString
  | [x] => x
  | x :: l' => (x ++ sep ++ join sep l')%string
  end.

(** The exception classes the handlers of [domain.py] tell apart:
    [socket.gaierror] is a subclass of [OSError], which is a subclass of
    [Exception]. *)
Inductive exn : Type :=
| Gaierror          (* socket.gaierror                  *)
| OSError           (* any other OSError                *)
| OtherException.   (* any other subclass of Exception  *)

Inductive handler : Type :=
| ExceptGaierror    (* except socket.gaierror: *)
| ExceptOSError     (* except OSError:         *)
| ExceptException.  (* except Exception:       *)

Definition caught (h : handler) (e : exn) : bool :=
  match h, e with
  | ExceptGaierror, Gaierror => true
  | ExceptGaierror, _ => false
  | ExceptOSError, (Gaierror | OSError) => true
  | ExceptOSError, OtherException => false
  | ExceptException, _ => true
  end.

Inductive outcome (A : Type) : Type :=
| Returns (a : A)
| Raises (e : exn).
Arguments Returns {A} a.
Arguments Raises {A} e.

Section Monad.
Variable S : Type.

(** A method runs on the state and returns or raises; what it wrote
    before raising stays written. *)
Definition M (A : Type) : Type := S -> outcome A * S.

Definition ret {A : Type} (a : A) : M A := fun s => (Returns a, s).

Definition bind {A B : Type} (m : M A) (f : A -> M B) : M B :=
  fun s =>
    match m s with
    | (Returns a, s') => f a s'
    | (Raises e, s') => (Raises e, s')
    end.

(** What a call gave is handed on: its result, or its exception. *)
Definition lift {A : Type} (o : outcome A) : M A := fun s => (o, s).

(** [try: body  except h: on_exn] *)
Definition try_except {A : Type} (h : handler) (body on_exn : M A) : M A :=
  fun s =>
    match body s with
    | (Returns a, s') => (Returns a, s')
    | (Raises e, s') => if caught h e then on_exn s' else (Raises e, s')
    end.
End Monad.

Arguments ret {S A} a.
Arguments lift {S A} o.
Arguments bind {S A B} m f.
Arguments try_except {S A} h body on_exn.

End Py.

Declare Scope py_scope.
Delimit Scope py_scope with py.
Notation "x <- m ;; k" := (Py.bind m (fun x => k))
  (at level 61, m at next level, right associativity) : py_scope.
Notation "m ;;; k" := (Py.bind m (fun _ => k))
  (at level 61, right associativity) : py_scope.

(* ================================================================== *)
(** ** JSON documents, [json.dump] and [json.load] *)

Module Json.
Import Py.

(** The output artifact is kept as the JSON document it spells: the
    indented text of [json.dump(..., indent=4)] and the tokenizer of
    [json.load] are one-to-one on documents and are not unfolded here. *)
Inductive json : Type :=
| JNull
| JString (s : string)
| JArray (items : list json)
| JObject (members : list (string * json)).

(** [str(n)] for an [int]. *)
Definition str_of_int (n : Z) : string :=
  NilZero.string_of_int (Z.to_int n).

(** The encoder coerces every dict key to a string. *)
Definition key_name (k : key) : string :=
  match k with
  | KStr s => s
  | KInt n => str_of_int n
  end.

(** [json.dump]: None -> null, str -> string, list -> array,
    dict -> object. *)
Fixpoint dumps (v : value) : json :=
  match v with
  | VNone => JNull
  | VStr s => JString s
  | VList l => JArray (map dumps l)
  | VDict d =>
      JObject ((fix members (d : list (key * value)) : list (string * json) :=
                  match d with
                  | [] => []
                  | (k, x) :: d' => (key_name k, dumps x) :: members d'
                  end) d)
  end.

(** [json.load]: null -> None, string -> str, array -> list,
    object -> dict with [str] keys (a repeated name keeps its last
    value). *)
Fixpoint loads (j : json) : value :=
  match j with
  | JNull => VNone
  | JString s => VStr s
  | JArray items => VList (map loads items)
  | JObject ms =>
      VDict (dict_of_pairs
               ((fix members (ms : list (string * json)) : list (key * value) :=
                   match ms with
                   | [] => []
                   | (n, x) :: ms' => (KStr n, loads x) :: members ms'
                   end) ms))
  end.

(** A value with every dict key replaced by the name the encoder writes
    for it. *)
Fixpoint str_keys (v : value) : value :=
  match v with
  | VList l => VList (map str_keys l)
  | VDict d =>
      VDict ((fix items (d : list (key * value)) : list (key * value) :=
                match d with
                | [] => []
                | (k, x) :: d' => (KStr (key_name k), str_keys x) :: items d'
                end) d)
  | _ => v
  end.

(** No dict of the value has two keys that the encoder writes alike. *)
Fixpoint distinct_names (v : value) : Prop :=
  match v with
  | VList l =>
      (fix all (l : list value) : Prop :=
         match l with
         | [] => True
         | x :: l' => distinct_names x /\ all l'
         end) l
  | VDict d =>
      NoDup (map (fun kv => key_name (fst kv)) d)
      /\ (fix all (d : list (key * value)) : Prop :=
            match d with
            | [] => True
            | (_, x) :: d' => distinct_names x /\ all d'
            end) d
  | _ => True
  end.

Definition is_str_key (k : key) : Prop :=
  match k with
  | KStr _ => True
  | KInt _ => False
  end.

(** Every dict of the value has distinct keys, all of them strings: the
    value is made of what JSON has itself. *)
Fixpoint native (v : value) : Prop :=
  match v with
  | VList l =>
      (fix all (l : list value) : Prop :=
         match l with
         | [] => True
         | x :: l' => native x /\ all l'
         end) l
  | VDict d =>
      NoDup (keys d)
      /\ (fix all (d : list (key * value)) : Prop :=
            match d with
            | [] => True
            | (k, x) :: d' => (is_str_key k /\ native x) /\ all d'
            end) d
  | _ => True
  end.

End Json.

(* ================================================================== *)
(** ** [ThreadPoolExecutor(max_workers).map(fn, args)] *)

Module Pool.
Import Py.

Fixpoint remove_nth {X : Type} (n : nat) (l : list X) : list X :=
  match l, n with
  | [], _ => []
  | _ :: l', O => l'
  | x :: l', S n' => x :: remove_nth n' l'
  end.

Fixpoint replace_nth {X : Type} (n : nat) (x : X) (l : list X) : list X :=
  match l, n with
  | [], _ => []
  | _ :: l', O => x :: l'
  | y :: l', S n' => y :: replace_nth n' x l'
  end.

(** Calls taken one after another: the first exception ends the
    sequence. *)
Fixpoint in_order {B : Type} (l : list (outcome B)) : outcome (list B) :=
  match l with
  | [] => Returns []
  | Raises e :: _ => Raises e
  | Returns b :: l' =>
      match in_order l' with
      | Returns bs => Returns (b :: bs)
      | Raises e => Raises e
      end
  end.

Definition orelse {X : Type} (a b : option X) : option X :=
  match a with
  | Some x => Some x
  | None => b
  end.

Section WithTask.
Variables A B E : Type.

(** What a work item does once a worker runs it: the events it performs,
    in order, and how it ends. *)
Variable fn : A -> list E * outcome B.
Variable max_workers : nat.

(** Work items wait in a FIFO queue, at most [max_workers] worker
    threads each run one item, and an item that has ended stores its
    result or its exception in its future.  Items carry the index of
    their future; a running item carries the events it has still to
    perform. *)
Record pool : Type := mkPool {
  size : nat;
  queue : list (nat * A);
  running : list (nat * (list E * outcome B));
  finished : list (nat * outcome B)
}.

(** [executor.map] submits one work item per argument, in order, before
    it hands out any result. *)
Definition submit_all (args : list A) : pool :=
  mkPool (length args) (combine (seq 0 (length args)) args) [] [].

Fixpoint result_of (i : nat) (fin : list (nat * outcome B))
  : option (outcome B) :=
  match fin with
  | [] => None
  | (j, o) :: fin' => if (j =? i)%nat then Some o else result_of i fin'
  end.

(** The iterator of [executor.map] takes [future.result()] of the futures
    in submission order: it is blocked ([None]) on the first future that
    is not done, and the first future that raised ends it. *)
Fixpoint await (fin : list (nat * outcome B)) (futures : list nat)
  : option (outcome (list B)) :=
  match futures with
  | [] => Some (Returns [])
  | i :: rest =>
      match result_of i fin with
      | None => None
      | Some (Raises e) => Some (Raises e)
      | Some (Returns b) =>
          match await fin rest with
          | Some (Returns bs) => Some (Returns (b :: bs))
          | r => r
          end
      end
  end.

(** An idle or new worker takes the oldest queued item. *)
Definition start (p : pool) : option (pool * list E) :=
  match queue p with
  | (i, a) :: q =>
      if (length (running p) <? max_workers)%nat
      then Some (mkPool (size p) q (running p ++ [(i, fn a)]) (finished p), [])
      else None
  | [] => None
  end.

(** The [n]-th running item goes on: it performs its next event, or,
    with none left, ends and sets its future. *)
Definition advance (n : nat) (p : pool) : option (pool * list E) :=
  match nth_error (running p) n with
  | Some (i, (e :: es, o)) =>
      Some (mkPool (size p) (queue p)
                   (replace_nth n (i, (es, o)) (running p)) (finished p), [e])
  | Some (i, ([], o)) =>
      Some (mkPool (size p) (queue p) (remove_nth n (running p))
                   (finished p ++ [(i, o)]), [])
  | None => None
  end.

(** The iterator has met a future that raised: on its way out it
    cancels the futures that are still queued.  Items that run cannot be
    cancelled. *)
Definition cancel (p : pool) : option (pool * list E) :=
  match queue p, await (finished p) (seq 0 (size p)) with
  | _ :: _, Some (Raises _) =>
      Some (mkPool (size p) [] (running p) (finished p), [])
  | _, _ => None
  end.

(** What a decision can do. *)
Inductive moved (p : pool) : pool -> list E -> Prop :=
| moved_start i a q :
    queue p = (i, a) :: q ->
    (length (running p) < max_workers)%nat ->
    moved p (mkPool (size p) q (running p ++ [(i, fn a)]) (finished p)) []
| moved_event n i e es o :
    nth_error (running p) n = Some (i, (e :: es, o)) ->
    moved p (mkPool (size p) (queue p)
                    (replace_nth n (i, (es, o)) (running p)) (finished p)) [e]
| moved_finish n i o :
    nth_error (running p) n = Some (i, ([], o)) ->
    moved p (mkPool (size p) (queue p) (remove_nth n (running p))
                    (finished p ++ [(i, o)])) []
| moved_cancel x q e :
    queue p = x :: q ->
    await (finished p) (seq 0 (size p)) = Some (Raises e) ->
    moved p (mkPool (size p) [] (running p) (finished p)) [].

(** One scheduling decision.  [0] prefers to start the next item, [1]
    lets the iterator cancel, [n + 2] lets the [n]-th running item go
    on; a decision that is not enabled falls through to the other kinds,
    so that a pool with work left always moves. *)
Definition step (c : nat) (p : pool) : option (pool * list E) :=
  match c with
  | O => orelse (start p) (orelse (advance 0 p) (cancel p))
  | S O => orelse (cancel p) (orelse (start p) (advance 0 p))
  | S (S n) =>
      orelse (advance (n mod length (running p)) p)
             (orelse (start p) (cancel p))
  end.

(** The pool under a schedule; decisions past the end of the schedule
    are [0]. *)
Fixpoint drive (fuel : nat) (sched : list nat) (p : pool) : pool * list E :=
  match fuel with
  | O => (p, [])
  | S fuel' =>
      match step (hd O sched) p with
      | Some (p', es) =>
          let (p'', es') := drive fuel' (tl sched) p' in (p'', es ++ es')
      | None => (p, [])
      end
  end.

(** Decisions a pool still has to take: for an item, one to start it,
    one per event and one to end it. *)
Definition work (p : pool) : nat :=
  list_sum (map (fun ia => 2 + length (fst (fn (snd ia)))) (queue p))
  + list_sum (map (fun r => 1 + length (fst (snd r))) (running p)).

(** [with ThreadPoolExecutor(max_workers) as executor:
       results = list(executor.map(fn, args))]
    The block is left when the pool has run dry: [list] has the results
    in submission order, or the exception of the first future that
    raised, and the events are those of the items that ran, in the order
    they were performed.  (With a worker to run them the iterator ends,
    [PoolFacts.map_list_result].) *)
Definition map_list (sched : list nat) (args : list A)
  : outcome (list B) * list E :=
  let (p, es) := drive (work (submit_all args)) sched (submit_all args) in
  (match await (finished p) (seq 0 (length args)) with
   | Some r => r
   | None => Raises OtherException
   end, es).

(** *** What holds of a pool at every moment *)

(** An event weighs [+1] when it puts something in flight and [-1] when
    it takes it back; [total] is what a sequence of events leaves in
    flight, and [owed] what the running items have in flight, which is
    what their remaining events will take back. *)
Section Weights.
Variable weight : E -> Z.

Definition total (es : list E) : Z :=
  fold_right (fun e s => (weight e + s)%Z) 0%Z es.

Definition owed (rs : list (nat * (list E * outcome B))) : Z :=
  fold_right (fun r s => (s - total (fst (snd r)))%Z) 0%Z rs.
End Weights.

(** A running item has still to perform a tail of its events. *)
Definition tails (p : pool) : Prop :=
  forall r, In r (running p) ->
            exists a k, fst (snd r) = skipn k (fst (fn a)).

(** The state of a pool that runs [args]: the first [m] items have been
    handed to workers, the rest is queued unless it was cancelled, and
    [past] holds the events performed so far. *)
Record consistent (args : list A) (m : nat) (past : list E) (p : pool)
  : Prop := mkConsistent {
  c_size : size p = length args;
  c_queue :
    queue p = skipn m (combine (seq 0 (length args)) args)
    \/ (queue p = [] /\
        exists e, await (finished p) (seq 0 (length args)) = Some (Raises e));
  c_events :
    Permutation (past ++ flat_map (fun r => fst (snd r)) (running p))
                (flat_map (fun ia => fst (fn (snd ia)))
                          (firstn m (combine (seq 0 (length args)) args)));
  c_futures :
    Permutation (map (fun ia => (fst ia, snd (fn (snd ia))))
                     (firstn m (combine (seq 0 (length args)) args)))
                (map (fun r => (fst r, snd (snd r))) (running p) ++ finished p)
}.

End WithTask.

Arguments total {E} weight es.
Arguments owed {B E} weight rs.
Arguments tails {A B E} fn p.
Arguments consistent {A B E} fn args m past p.
Arguments c_size {A B E fn args m past p} c.
Arguments c_queue {A B E fn args m past p} c.
Arguments c_events {A B E fn args m past p} c.
Arguments c_futures {A B E fn args m past p} c.
Arguments mkPool {A B E} size queue running finished.
Arguments size {A B E} p.
Arguments queue {A B E} p.
Arguments running {A B E} p.
Arguments finished {A B E} p.
Arguments submit_all {A} B E args.
Arguments result_of {B} i fin.
Arguments await {B} fin futures.
Arguments start {A B E} fn max_workers p.
Arguments advance {A B E} n p.
Arguments cancel {A B E} p.
Arguments moved {A B E} fn max_workers p p' es.
Arguments step {A B E} fn max_workers c p.
Arguments drive {A B E} fn max_workers fuel sched p.
Arguments work {A B E} fn p.
Arguments map_list {A B E} fn max_workers sched args.

End Pool.

(* ================================================================== *)
(** ** [class OsintTool] *)

Module Osint.
Import Py Classifier.
Local Open Scope py_scope.

(** What the run does to the outside world, in the order it does it. *)
Inductive event : Type :=
| GetHostByName (host : string)                 (* socket.gethostbyname *)
| WhoisQuery (target : string)                  (* whois.whois          *)
| DnsQuery (target rtype : string)              (* dns.resolver.resolve *)
| SocketOpen (name : Z)                         (* socket.socket        *)
| ConnectBegin (ip : string) (port : Z) (timeout : option Z)
                                                (* sock.connect_ex called   *)
| ConnectEnd (ip : string) (port : Z)           (* sock.connect_ex returned *)
| ConnectRaised (ip : string) (port : Z) (e : exn)
                                                (* sock.connect_ex raised   *)
| SocketClose (name : Z)                        (* sock.close           *)
| ServByPort (port : Z)                         (* socket.getservbyport *)
| HttpGet (url : string) (timeout : Z)          (* requests.get         *)
| FileWrite (name : string).                    (* open(name, 'w')      *)

(** The sockets of a run are told apart by a name: [check_port] makes one
    socket per call, named here after the port of the call. *)

(** A text attribute of a WHOIS reply: missing, one string, or several. *)
Inductive whois_attr : Type :=
| WNone
| WStr (s : string)
| WList (l : list string).

Definition attr_value (a : whois_attr) : value :=
  match a with
  | WNone => VNone
  | WStr s => VStr s
  | WList l => VList (map VStr l)
  end.

(** The attributes [get_whois] reads off the reply; the two dates are
    recorded as [str(...)] already gives them. *)
Record whois_info : Type := mkWhois {
  registrar : whois_attr;
  creation_date : string;
  expiration_date : string;
  name_servers : whois_attr;
  emails : whois_attr
}.

(** The outside world of one run: what each external call answers, and
    how the thread pool is scheduled.  Every call answers or raises:
    [connect_ex] answers the error code of the attempt ([0] for a
    connection made) and raises when the socket layer cannot make an
    address of the text it is given; [requests_get] answers the header
    lines of the response, as they were received; [open_w] is
    [open(name, 'w')]; [realpath] is the file that the file system takes a
    name to denote, two names denoting one file when their real paths are
    equal. *)
Record world : Type := mkWorld {
  gethostbyname : string -> outcome string;
  whois_whois : string -> outcome whois_info;
  dns_resolve : string -> string -> outcome (list string);
  connect_ex : string -> Z -> outcome Z;
  getservbyport : Z -> outcome string;
  requests_get : string -> outcome (list (string * string));
  open_w : string -> outcome unit;
  realpath : string -> string;
  schedule : list nat
}.

(** The tool after [set_target]: [self.target], the dict under
    [self.output["results"]], and around them the log of external calls
    and the files written. *)
Record state : Type := mkState {
  target : string;
  results : dict;
  trace : list event;
  files : list (string * Json.json)
}.

(** [self.output], which is [{"target": target, "results": {...}}] from
    [set_target] onwards. *)
Definition output (st : state) : value :=
  VDict [(KStr "target", VStr (target st));
         (KStr "results", VDict (results st))].

(** [tool = OsintTool(); tool.set_target(target)] *)
Definition set_target (tgt : string) : state :=
  mkState tgt [] [] [].

Definition M : Type -> Type := Py.M state.

Definition get_target : M string :=
  fun st => (Returns (target st), st).

Definition add_trace (st : state) (es : list event) : state :=
  mkState (target st) (results st) (trace st ++ es) (files st).

(** An external call: logged, then it answers or raises. *)
Definition call {A : Type} (e : event) (answer : outcome A) : M A :=
  fun st => (answer, add_trace st [e]).

Definition emit (es : list event) : M unit :=
  fun st => (Returns tt, add_trace st es).

(** [self.output["results"][k] = v] *)
Definition set_result (k : string) (v : value) : M unit :=
  fun st =>
    (Returns tt,
     mkState (target st) (dict_set (KStr k) v (results st)) (trace st)
             (files st)).

(** *** Work items of the thread pool

    [check_port] runs in a worker thread, off the state of the tool: all
    it does to the outside world is the sequence of its socket calls,
    which it performs one by one. *)
Definition T : Type -> Type := Py.M (list event).

Definition perform (e : event) : T unit :=
  fun tr => (Returns tt, tr ++ [e]).

(** A work item from its first line: the calls it makes, in order, and
    how it ends. *)
Definition run_task {A : Type} (t : T A) : list event * outcome A :=
  let (o, es) := t [] in (es, o).

(** A socket object: its name in the trace, and its timeout ([None] for
    a blocking socket). *)
Record socket : Type := mkSocket {
  sock_name : Z;
  sock_timeout : option Z
}.

Section Methods.
Variable w : world.

(** [get_ip] *)
Definition get_ip : M (option string) :=
  tgt <- get_target ;;
  if is_ip_address tgt then ret (Some tgt)
  else
    try_except ExceptGaierror
      (ip <- call (GetHostByName tgt) (gethostbyname w tgt) ;;
       set_result "ip_address" (VStr ip) ;;;
       ret (Some ip))
      (set_result "ip_address" (VStr "Not found") ;;;
       ret None).

Definition simplified_whois (i : whois_info) : value :=
  VDict [(KStr "registrar", attr_value (registrar i));
         (KStr "creation_date", VStr (creation_date i));
         (KStr "expiration_date", VStr (expiration_date i));
         (KStr "name_servers", attr_value (name_servers i));
         (KStr "emails",
           if truthy (attr_value (emails i))
           then attr_value (emails i) else VList [])].

(** [get_whois] *)
Definition get_whois : M unit :=
  try_except ExceptException
    (tgt <- get_target ;;
     i <- call (WhoisQuery tgt) (whois_whois w tgt) ;;
     set_result "whois" (simplified_whois i))
    (set_result "whois" (VStr "Lookup failed")).

Definition record_types : list string :=
  ["A"; "AAAA"; "MX"; "NS"; "TXT"; "SOA"; "CNAME"].

(** The [for record_type in record_types] loop; [dns_results] is the
    local dict it fills. *)
Fixpoint dns_loop (tgt : string) (types : list string) (dns_results : dict)
  : M dict :=
  match types with
  | [] => ret dns_results
  | record_type :: rest =>
      d <- try_except ExceptException
             (answers <- call (DnsQuery tgt record_type)
                              (dns_resolve w tgt record_type) ;;
              ret (dict_set (KStr record_type) (VList (map VStr answers))
                            dns_results))
             (ret dns_results) ;;
      dns_loop tgt rest d
  end.

(** [get_dns_records] *)
Definition get_dns_records : M unit :=
  tgt <- get_target ;;
  if is_ip_address tgt
  then set_result "dns_records" (VStr "Skipped for IP address")
  else
    dns_results <- dns_loop tgt record_types [] ;;
    set_result "dns_records" (VDict dns_results).

Definition common_ports : list Z :=
  [21; 22; 23; 25; 53; 80; 110; 115; 135; 139; 143; 443; 445;
   1433; 3306; 3389; 5060; 5900; 8080; 8443]%Z.

Definition max_workers : nat := 10.

(** [socket.socket(socket.AF_INET, socket.SOCK_STREAM)]: a new socket
    is blocking. *)
Definition socket_socket (name : Z) : T socket :=
  perform (SocketOpen name) ;;;
  ret (mkSocket name None).

(** [sock.settimeout(t)] *)
Definition settimeout (sock : socket) (t : Z) : T socket :=
  ret (mkSocket (sock_name sock) (Some t)).

(** [sock.connect_ex((ip, port))]: the attempt runs under the timeout
    of the socket, and ends by a return or by an exception. *)
Definition sock_connect_ex (sock : socket) (ip : string) (port : Z) : T Z :=
  perform (ConnectBegin ip port (sock_timeout sock)) ;;;
  fun tr =>
    match connect_ex w ip port with
    | Returns result => (Returns result, tr ++ [ConnectEnd ip port])
    | Raises e => (Raises e, tr ++ [ConnectRaised ip port e])
    end.

(** [sock.close()] *)
Definition sock_close (sock : socket) : T unit :=
  perform (SocketClose (sock_name sock)).

(** [check_port] *)
Definition check_port (ip : string) (port : Z) : T (Z * bool) :=
  sock <- socket_socket port ;;
  sock <- settimeout sock 1 ;;
  result <- sock_connect_ex sock ip port ;;
  sock_close sock ;;;
  ret (port, Z.eqb result 0).

(** A call of [check_port] as a work item of the pool. *)
Definition check_port_item (ip : string) (port : Z)
  : list event * outcome (Z * bool) :=
  run_task (check_port ip port).

(** The [with ThreadPoolExecutor(max_workers=10)] block over a list of
    ports. *)
Definition probe (ip : string) (ports : list Z) : M (list (Z * bool)) :=
  let (res, es) :=
    Pool.map_list (check_port_item ip) max_workers (schedule w) ports in
  emit es ;;;
  lift res.

(** The socket events of that block. *)
Definition probe_events (ip : string) (ports : list Z) : list event :=
  snd (Pool.map_list (check_port_item ip) max_workers (schedule w) ports).

(** The [for port, is_open in results] loop; [open_ports] is the local
    dict it fills. *)
Fixpoint service_loop (res : list (Z * bool)) (open_ports : dict) : M dict :=
  match res with
  | [] => ret open_ports
  | (port, is_open) :: rest =>
      if is_open then
        service <- try_except ExceptOSError
                     (call (ServByPort port) (getservbyport w port))
                     (ret "unknown") ;;
        service_loop rest (dict_set (KInt port) (VStr service) open_ports)
      else service_loop rest open_ports
  end.

(** [not ip], for the [ip] that [get_ip] returned. *)
Definition not_ip (ip : option string) : bool :=
  match ip with
  | None => true
  | Some a => negb (truthy (VStr a))
  end.

(** [scan_common_ports], with the port list as a parameter. *)
Definition scan_ports (ports : list Z) (ip : option string) : M unit :=
  match ip with
  | Some a =>
      if not_ip ip
      then set_result "port_scan" (VStr "Skipped due to DNS resolution failure")
      else
        res <- probe a ports ;;
        open_ports <- service_loop res [] ;;
        set_result "port_scan" (VDict open_ports)
  | None =>
      set_result "port_scan" (VStr "Skipped due to DNS resolution failure")
  end.

(** [scan_common_ports] *)
Definition scan_common_ports (ip : option string) : M unit :=
  scan_ports common_ports ip.

Definition protocols : list string := ["https"; "http"].

(** [response.headers] is the case-insensitive dict that [requests]
    makes of the header lines: a line whose name was seen before, in
    whatever case, adds its value to that entry, and an entry reads as
    the first spelling of the name with the values joined by [", "]. *)
Definition headers_entry : Type := string * (string * list string).

Fixpoint add_header (name value : string) (c : list headers_entry)
  : list headers_entry :=
  match c with
  | [] => [(lower name, (name, [value]))]
  | (k, (cased, values)) :: c' =>
      if String.eqb k (lower name)
      then (k, (cased, values ++ [value])) :: c'
      else (k, (cased, values)) :: add_header name value c'
  end.

Definition header_entries (lines : list (string * string))
  : list headers_entry :=
  fold_left (fun c h => add_header (fst h) (snd h) c) lines [].

Definition response_headers (lines : list (string * string))
  : list (string * string) :=
  map (fun e => (fst (snd e), join ", " (snd (snd e)))) (header_entries lines).

(** [dict(response.headers)] *)
Definition headers_dict (lines : list (string * string)) : dict :=
  dict_of_pairs (map (fun h => (KStr (fst h), VStr (snd h)))
                     (response_headers lines)).

(** The [for protocol in protocols] loop; the body answers whether it
    reached [break]. *)
Fixpoint http_loop (tgt : string) (ps : list string) : M unit :=
  match ps with
  | [] => ret tt
  | protocol :: rest =>
      broke <- try_except ExceptException
                 (let url := (protocol ++ "://" ++ tgt)%string in
                  hs <- call (HttpGet url 5) (requests_get w url) ;;
                  set_result (protocol ++ "_headers")%string
                             (VDict (headers_dict hs)) ;;;
                  ret true)
                 (ret false) ;;
      if broke then ret tt else http_loop tgt rest
  end.

(** [get_http_headers] *)
Definition get_http_headers : M unit :=
  tgt <- get_target ;;
  http_loop tgt protocols.

(** The files are kept under the name they were last opened by, which
    stands for the file it denotes; [open(filename, 'w')] replaces what
    that file held, under whatever name it was written. *)
Definition file_write (name : string) (doc : Json.json)
           (fs : list (string * Json.json)) : list (string * Json.json) :=
  (name, doc)
  :: filter (fun f => negb (String.eqb (realpath w (fst f)) (realpath w name)))
            fs.

(** [json.dump(self.output, f, indent=4)] into the file just opened. *)
Definition json_dump (filename : string) : M unit :=
  fun st =>
    (Returns tt,
     mkState (target st) (results st) (trace st)
             (file_write filename (Json.dumps (output st)) (files st))).

(** [save_results] *)
Definition save_results : M unit :=
  tgt <- get_target ;;
  let filename := (tgt ++ "_recon.json")%string in
  call (FileWrite filename) (open_w w filename) ;;;
  json_dump filename.

(** [run_recon] *)
Definition run_recon : M unit :=
  ip <- get_ip ;;
  get_whois ;;;
  get_dns_records ;;;
  scan_common_ports ip ;;;
  get_http_headers ;;;
  save_results.

(** The tail of [run_recon], from [get_whois] on. *)
Definition after_get_ip (ip : option string) : M unit :=
  get_whois ;;;
  get_dns_records ;;;
  scan_common_ports ip ;;;
  get_http_headers ;;;
  save_results.

(** [main], after argument parsing. *)
Definition main (tgt : string) : outcome unit * state :=
  run_recon (set_target tgt).

End Methods.

(** *** Observations on a run *)

(** A field of the report. *)
Definition report_field (k : string) (st : state) : option value :=
  dict_get (KStr k) (results st).

(** The connection attempts of a trace, oldest first. *)
Fixpoint connects (tr : list event) : list (string * Z) :=
  match tr with
  | [] => []
  | ConnectBegin ip port _ :: tr' => (ip, port) :: connects tr'
  | _ :: tr' => connects tr'
  end.

(** The ports of the connection attempts of a trace that returned, and
    of those that raised. *)
Fixpoint returned (tr : list event) : list Z :=
  match tr with
  | [] => []
  | ConnectEnd _ port :: tr' => port :: returned tr'
  | _ :: tr' => returned tr'
  end.

Fixpoint raised (tr : list event) : list Z :=
  match tr with
  | [] => []
  | ConnectRaised _ port _ :: tr' => port :: raised tr'
  | _ :: tr' => raised tr'
  end.

(** The sockets a trace makes, and the sockets it closes. *)
Fixpoint opens (tr : list event) : list Z :=
  match tr with
  | [] => []
  | SocketOpen name :: tr' => name :: opens tr'
  | _ :: tr' => opens tr'
  end.

Fixpoint closes (tr : list event) : list Z :=
  match tr with
  | [] => []
  | SocketClose name :: tr' => name :: closes tr'
  | _ :: tr' => closes tr'
  end.

(** The timeouts under which the connection attempts of a trace run. *)
Fixpoint timeouts (tr : list event) : list (option Z) :=
  match tr with
  | [] => []
  | ConnectBegin _ _ t :: tr' => t :: timeouts tr'
  | _ :: tr' => timeouts tr'
  end.

(** How many connection attempts a trace makes on one port. *)
Definition attempts (port : Z) (tr : list event) : nat :=
  length (filter (fun c => Z.eqb (snd c) port) (connects tr)).

(** Connection attempts begun and not yet over. *)
Fixpoint conn_in_flight (tr : list event) : Z :=
  match tr with
  | [] => 0
  | ConnectBegin _ _ _ :: tr' => conn_in_flight tr' + 1
  | ConnectEnd _ _ :: tr' => conn_in_flight tr' - 1
  | ConnectRaised _ _ _ :: tr' => conn_in_flight tr' - 1
  | _ :: tr' => conn_in_flight tr'
  end.

(** The name resolutions, DNS queries and HTTP requests of a trace. *)
Fixpoint resolutions (tr : list event) : list string :=
  match tr with
  | [] => []
  | GetHostByName h :: tr' => h :: resolutions tr'
  | _ :: tr' => resolutions tr'
  end.

Fixpoint dns_queries (tr : list event) : list (string * string) :=
  match tr with
  | [] => []
  | DnsQuery t rt :: tr' => (t, rt) :: dns_queries tr'
  | _ :: tr' => dns_queries tr'
  end.

Fixpoint http_requests (tr : list event) : list (string * Z) :=
  match tr with
  | [] => []
  | HttpGet url timeout :: tr' => (url, timeout) :: http_requests tr'
  | _ :: tr' => http_requests tr'
  end.

(** Any call but the opening of the output file. *)
Definition network_call (e : event) : bool :=
  match e with
  | FileWrite _ => false
  | _ => true
  end.

(** The port numbers a [port_scan] dict lists, in dict order. *)
Fixpoint port_numbers (d : dict) : list Z :=
  match d with
  | [] => []
  | (KInt n, _) :: d' => n :: port_numbers d'
  | (KStr _, _) :: d' => port_numbers d'
  end.

(** A connection attempt on a port found it open: [connect_ex]
    returned [0]. *)
Definition is_open (w : world) (ip : string) (port : Z) : bool :=
  match connect_ex w ip port with
  | Returns result => Z.eqb result 0
  | Raises _ => false
  end.

(** [connect_ex] returns on every port of a list. *)
Definition connect_ok (w : world) (ip : string) (ports : list Z) : bool :=
  forallb (fun p => match connect_ex w ip p with
                    | Returns _ => true
                    | Raises _ => false
                    end) ports.

(** The port results of a scan whose attempts all return. *)
Definition port_results (w : world) (ip : string) (ports : list Z)
  : list (Z * bool) :=
  map (fun p => (p, is_open w ip p)) ports.

(** What a call leaves in flight: a connection attempt begun counts
    until it is over. *)
Definition conn_weight (e : event) : Z :=
  match e with
  | ConnectBegin _ _ _ => 1
  | ConnectEnd _ _ => -1
  | ConnectRaised _ _ _ => -1
  | _ => 0
  end.

(** The calls of [check_port]. *)
Definition socket_call (e : event) : bool :=
  match e with
  | SocketOpen _ | ConnectBegin _ _ _ | ConnectEnd _ _
  | ConnectRaised _ _ _ | SocketClose _ => true
  | _ => false
  end.

(** The ports a list of port results reports open. *)
Definition opened (res : list (Z * bool)) : list Z :=
  map fst (filter snd res).

(** The service label of an open port. *)
Definition service_label (w : world) (port : Z) : string :=
  match getservbyport w port with
  | Returns s => s
  | Raises _ => "unknown"
  end.

(** [open_ports] after the labels of a list of open ports went in. *)
Definition labelled (w : world) (ports : list Z) (open_ports : dict) : dict :=
  fold_left (fun d p => dict_set (KInt p) (VStr (service_label w p)) d)
            ports open_ports.

(** The services table answers, or raises the [OSError] of a missing
    entry, on every port of the list. *)
Definition services_ok (w : world) (ports : list Z) : bool :=
  forallb (fun p => match getservbyport w p with
                    | Returns _ => true
                    | Raises e => caught ExceptOSError e
                    end) ports.

(** What [get_whois] records. *)
Definition whois_value (w : world) (tgt : string) : value :=
  match whois_whois w tgt with
  | Returns i => simplified_whois i
  | Raises _ => VStr "Lookup failed"
  end.

(** [dns_results] after the queries for a list of record types. *)
Definition dns_answers (w : world) (tgt : string) (types : list string)
           (dns_results : dict) : dict :=
  fold_left (fun d rt => match dns_resolve w tgt rt with
                         | Returns a => dict_set (KStr rt) (VList (map VStr a)) d
                         | Raises _ => d
                         end) types dns_results.

(** The values of the header lines of a name, in order, names compared
    without case; and whether a name is spelled as the first of the
    lines that have it. *)
Definition same_header (name : string) (h : string * string) : bool :=
  String.eqb (lower (fst h)) (lower name).

Definition header_values (name : string) (lines : list (string * string))
  : list string :=
  map snd (filter (same_header name) lines).

Definition first_spelling (name : string) (lines : list (string * string))
  : bool :=
  match find (same_header name) lines with
  | Some h => String.eqb (fst h) name
  | None => false
  end.

(** A dict holds the headers of a response: under the first spelling of
    each name, once, the values of the lines of that name joined by
    [", "], and nothing else; when no name comes twice, it is the lines
    as they came. *)
Definition holds_headers (lines : list (string * string)) (d : dict) : Prop :=
  NoDup (keys d) /\
  (forall name,
      dict_get (KStr name) d
      = if first_spelling name lines
        then Some (VStr (join ", " (header_values name lines)))
        else None) /\
  (forall n, dict_get (KInt n) d = None) /\
  (NoDup (map (fun h => lower (fst h)) lines) ->
   d = map (fun h => (KStr (fst h), VStr (snd h))) lines).

(** What the container of [response.headers] holds once the lines [l]
    went in: one entry per name, compared without case, with the first
    spelling of the name and the values of its lines. *)
Record entries_of (l : list (string * string)) (c : list headers_entry)
  : Prop := {
  e_keys : NoDup (map fst c);
  e_entry : forall k cased vals,
      In (k, (cased, vals)) c ->
      k = lower cased /\ first_spelling cased l = true
      /\ vals = header_values cased l;
  e_lines : forall h, In h l -> In (lower (fst h)) (map fst c)
}.

Definition url_of (protocol tgt : string) : string :=
  (protocol ++ "://" ++ tgt)%string.

(** The first protocol of a list whose request answers, with the headers
    it answers. *)
Fixpoint first_success (w : world) (tgt : string) (ps : list string)
  : option (string * list (string * string)) :=
  match ps with
  | [] => None
  | p :: rest =>
      match requests_get w (url_of p tgt) with
      | Returns hs => Some (p, hs)
      | Raises _ => first_success w tgt rest
      end
  end.

(** The protocols of a list that are requested: up to and including the
    first that answers. *)
Fixpoint tried (w : world) (tgt : string) (ps : list string) : list string :=
  match ps with
  | [] => []
  | p :: rest =>
      p :: match requests_get w (url_of p tgt) with
           | Returns _ => []
           | Raises _ => tried w tgt rest
           end
  end.

(** The resolver answers or raises [socket.gaierror]. *)
Definition resolver_ok (w : world) (host : string) : bool :=
  match gethostbyname w host with
  | Returns _ => true
  | Raises e => caught ExceptGaierror e
  end.

(** *** The run as a whole *)

(** The address the prober is given. *)
Definition resolved (w : world) (tgt : string) : option string :=
  if is_ip_address tgt then Some tgt
  else match gethostbyname w tgt with
       | Returns ip => Some ip
       | Raises _ => None
       end.

Definition ip_text (w : world) (tgt : string) : string :=
  match gethostbyname w tgt with
  | Returns ip => ip
  | Raises _ => "Not found"
  end.

Definition dns_value (w : world) (tgt : string) : value :=
  if is_ip_address tgt then VStr "Skipped for IP address"
  else VDict (dns_answers w tgt record_types []).

Definition open_ports_of (w : world) (ip : string) : list Z :=
  filter (is_open w ip) common_ports.

Definition port_value (w : world) (tgt : string) : value :=
  match resolved w tgt with
  | Some a =>
      if not_ip (Some a) then VStr "Skipped due to DNS resolution failure"
      else VDict (labelled w (open_ports_of w a) [])
  | None => VStr "Skipped due to DNS resolution failure"
  end.

(** The dict under ["results"] at the end of a run. *)
Definition report_results (w : world) (tgt : string) : dict :=
  (if is_ip_address tgt then []
   else [(KStr "ip_address", VStr (ip_text w tgt))])
  ++ [(KStr "whois", whois_value w tgt);
      (KStr "dns_records", dns_value w tgt);
      (KStr "port_scan", port_value w tgt)]
  ++ match first_success w tgt protocols with
     | Some (p, hs) => [(KStr (p ++ "_headers"), VDict (headers_dict hs))]
     | None => []
     end.

(** [self.output] at the end of a run. *)
Definition report (w : world) (tgt : string) : value :=
  VDict [(KStr "target", VStr tgt);
         (KStr "results", VDict (report_results w tgt))].

Definition scan_events (w : world) (tgt : string) : list event :=
  match resolved w tgt with
  | Some a =>
      if not_ip (Some a) then []
      else probe_events w a common_ports
           ++ map ServByPort (open_ports_of w a)
  | None => []
  end.

(** The external calls of a run, in order. *)
Definition run_trace (w : world) (tgt : string) : list event :=
  (if is_ip_address tgt then [] else [GetHostByName tgt])
  ++ [WhoisQuery tgt]
  ++ (if is_ip_address tgt then [] else map (DnsQuery tgt) record_types)
  ++ scan_events w tgt
  ++ map (fun p => HttpGet (url_of p tgt) 5) (tried w tgt protocols)
  ++ [FileWrite (tgt ++ "_recon.json")].

(** The port scan gets through: [connect_ex] returns on every port, and
    the services table answers or raises [OSError] on every port found
    open. *)
Definition scan_ok (w : world) (ip : string) : bool :=
  connect_ok w ip common_ports && services_ok w (open_ports_of w ip).

(** No collector raises: the resolver answers or raises
    [socket.gaierror], and when ports are probed the scan gets
    through. *)
Definition collectors_ok (w : world) (tgt : string) : bool :=
  (is_ip_address tgt || resolver_ok w tgt)
  && match resolved w tgt with
     | Some a => not_ip (Some a) || scan_ok w a
     | None => true
     end.

(** The output file can be opened. *)
Definition writable (w : world) (tgt : string) : bool :=
  match open_w w (tgt ++ "_recon.json") with
  | Returns _ => true
  | Raises _ => false
  end.

(** No call of the run raises past a handler around it. *)
Definition run_ok (w : world) (tgt : string) : bool :=
  collectors_ok w tgt && writable w tgt.

(** The open ports a state's report lists. *)
Definition open_ports_reported (st : state) : list Z :=
  match report_field "port_scan" st with
  | Some (VDict d) => port_numbers d
  | _ => []
  end.

Definition has_field (k : string) (r : dict) : bool :=
  match dict_get (KStr k) r with
  | Some _ => true
  | None => false
  end.

(** Every check of the run has left its field in the report: the address,
    the registration data, the DNS records, the port scan and the HTTP
    headers each hold their data or a marker. *)
Definition fields_tagged (r : dict) : bool :=
  has_field "ip_address" r && has_field "whois" r
  && has_field "dns_records" r && has_field "port_scan" r
  && (has_field "https_headers" r || has_field "http_headers" r).

End Osint.

(* ================================================================== *)
(** ** Concrete worlds *)

Module Samples.
Import Py Osint.

(** Two texts that [is_ip_address] accepts and of which the socket layer
    cannot make an address: [connect_ex] raises [socket.gaierror] on
    them. *)
Definition no_address (ip : string) : bool :=
  String.eqb ip "999.999.999.999"
  || String.eqb ip ("1.2.3.4" ++ String Re.newline "").

Fixpoint has_char (c : ascii) (s : string) : bool :=
  match s with
  | EmptyString => false
  | String c' s' => Ascii.eqb c c' || has_char c s'
  end.

(** A file name with a slash in it names a directory that is not there:
    [open] raises [FileNotFoundError], an [OSError]. *)
Definition open_here (name : string) : outcome unit :=
  if has_char "/" name then Raises OSError else Returns tt.

(** A host that resolves, with SSH and both web ports open and an HTTPS
    server that answers. *)
Definition web : world :=
  mkWorld
    (fun h => if String.eqb h "example.com" then Returns "93.184.216.34"
              else Raises Gaierror)
    (fun _ => Returns (mkWhois (WStr "Example Registrar") "1995-08-14 04:00:00"
                               "2030-08-13 04:00:00"
                               (WList ["a.iana-servers.net"; "b.iana-servers.net"])
                               WNone))
    (fun _ rt => if String.eqb rt "A" then Returns ["93.184.216.34"]
                 else if String.eqb rt "NS"
                      then Returns ["a.iana-servers.net."; "b.iana-servers.net."]
                      else Raises OtherException)
    (fun ip p => if no_address ip then Raises Gaierror
                 else if Z.eqb p 22 || Z.eqb p 80 || Z.eqb p 443
                      then Returns 0%Z else Returns 111%Z)
    (fun p => if Z.eqb p 80 then Returns "http"
              else if Z.eqb p 443 then Returns "https"
                   else Raises OSError)
    (fun u => if String.eqb u "https://example.com"
              then Returns [("Server", "ECS"); ("Content-Type", "text/html")]
              else Raises OtherException)
    open_here
    (fun name => name)
    [3; 0; 0; 5; 1; 0; 7; 7; 7; 0; 0; 0; 2; 2; 2; 9; 9; 9; 9]%nat.

(** The same host seen through another schedule of the thread pool: ten
    items are started and each is taken up to its call of [connect_ex]
    before any of the calls returns. *)
Definition web_rescheduled : world :=
  mkWorld (gethostbyname web) (whois_whois web) (dns_resolve web)
          (connect_ex web) (getservbyport web) (requests_get web)
          (open_w web) (realpath web)
          ([0; 0; 0; 0; 0; 0; 0; 0; 0; 0]
           ++ [2; 3; 4; 5; 6; 7; 8; 9; 10; 11]
           ++ [2; 3; 4; 5; 6; 7; 8; 9; 10; 11]
           ++ [11; 10; 9; 8; 7; 6; 5; 4; 3; 2])%nat.

(** A network where every call fails. *)
Definition dark : world :=
  mkWorld (fun _ => Raises Gaierror)
          (fun _ => Raises OtherException)
          (fun _ _ => Raises OtherException)
          (fun ip _ => if no_address ip then Raises Gaierror
                       else Returns 111%Z)
          (fun _ => Raises OSError)
          (fun _ => Raises OtherException)
          open_here
          (fun name => name)
          [].

(** The network of [web] for a tool whose iterator is quick to cancel:
    after the first item has run, the queue is cancelled. *)
Definition web_cancelling : world :=
  mkWorld (gethostbyname web) (whois_whois web) (dns_resolve web)
          (connect_ex web) (getservbyport web) (requests_get web)
          (open_w web) (realpath web)
          [0; 0; 2; 2; 2; 2; 1]%nat.

End Samples.

(* ================================================================== *)
(** ** A tool used more than once, and what is observed of its runs *)

Module Lifecycle.
Import Py Classifier Osint.

(** [tool.set_target(target)] on a tool that has already run:
    [self.target] is replaced and [self.output] starts again from
    [{"target": target, "results": {}}]; the log of external calls and the
    files on disk are the world's and stay. *)
Definition retarget (tgt : string) (st : state) : state :=
  mkState tgt [] (trace st) (files st).

(** The same world under another schedule of the thread pool. *)
Definition reschedule (s : list nat) (w : world) : world :=
  mkWorld (gethostbyname w) (whois_whois w) (dns_resolve w) (connect_ex w)
          (getservbyport w) (requests_get w) (open_w w) (realpath w) s.

(** The calls that [run_recon] makes outside a handler that catches
    what they raise all answer: the resolver answers or raises
    [socket.gaierror], [connect_ex] returns on each port, the services
    table answers or raises [OSError] on each port found open, and the
    output file can be opened. *)
Definition run_completes (w : world) (tgt : string) : bool :=
  (is_ip_address tgt || resolver_ok w tgt)
  && match resolved w tgt with
     | Some a =>
         not_ip (Some a)
         || (connect_ok w a common_ports && services_ok w (open_ports_of w a))
     | None => true
     end
  && writable w tgt.

(** The content of the file that a name denotes, if there is one. *)
Definition file_named (w : world) (name : string)
           (fs : list (string * Json.json)) : option Json.json :=
  match find (fun f => String.eqb (realpath w (fst f)) (realpath w name)) fs with
  | Some f => Some (snd f)
  | None => None
  end.

(** The network of [web] on a file system that does not tell the case
    of letters in a name. *)
Definition case_blind : world :=
  mkWorld (fun h => gethostbyname Samples.web (lower h))
          (whois_whois Samples.web) (dns_resolve Samples.web)
          (connect_ex Samples.web) (getservbyport Samples.web)
          (fun u => requests_get Samples.web (lower u))
          (open_w Samples.web) lower (schedule Samples.web).

(** The connection attempts that a run can have made: none when the
    scan is skipped; else one on each of the first [m] ports of the
    list, for some [m] of 1 to 20, in the order the pool took them, and
    on all twenty when every [connect_ex] returns. *)
Definition attempts_listed (w : world) (tgt : string)
           (l : list (string * Z)) : Prop :=
  match resolved w tgt with
  | Some a =>
      if not_ip (Some a) then l = []
      else exists m,
          (0 < m <= length common_ports)%nat /\
          Permutation l (map (pair a) (firstn m common_ports)) /\
          (connect_ok w a common_ports = true -> m = length common_ports)
  | None => l = []
  end.

(** The lookups in the services table that a trace makes. *)
Fixpoint service_lookups (tr : list event) : list Z :=
  match tr with
  | [] => []
  | ServByPort p :: tr' => p :: service_lookups tr'
  | _ :: tr' => service_lookups tr'
  end.

(** The WHOIS queries that a trace makes. *)
Fixpoint whois_queries (tr : list event) : list string :=
  match tr with
  | [] => []
  | WhoisQuery t :: tr' => t :: whois_queries tr'
  | _ :: tr' => whois_queries tr'
  end.

(** The files that a trace opens for writing. *)
Fixpoint file_writes (tr : list event) : list string :=
  match tr with
  | [] => []
  | FileWrite n :: tr' => n :: file_writes tr'
  | _ :: tr' => file_writes tr'
  end.

(** The DNS query for a record type answered, and what it answered. *)
Definition answered (w : world) (tgt rt : string) : bool :=
  match dns_resolve w tgt rt with
  | Returns _ => true
  | Raises _ => false
  end.

Definition records (w : world) (tgt rt : string) : value :=
  match dns_resolve w tgt rt with
  | Returns a => VList (map VStr a)
  | Raises _ => VList []
  end.

Fixpoint string_forall (f : ascii -> bool) (s : string) : bool :=
  match s with
  | EmptyString => true
  | String c s' => f c && string_forall f s'
  end.

(** The characters a text classified as an address can hold. *)
Definition address_char (c : ascii) : bool :=
  Re.is_digit c || Ascii.eqb c "." || Ascii.eqb c Re.newline.

(** A resolver that fails with an exception that is no
    [socket.gaierror], as for a name that cannot be encoded. *)
Definition unencodable : world :=
  mkWorld (fun _ => Raises OtherException)
          (whois_whois Samples.web) (dns_resolve Samples.web)
          (connect_ex Samples.web) (getservbyport Samples.web)
          (requests_get Samples.web) (open_w Samples.web)
          (realpath Samples.web) (schedule Samples.web).

(** A services table that fails on port 80 with an exception that is no
    [OSError]. *)
Definition broken_services : world :=
  mkWorld (gethostbyname Samples.web) (whois_whois Samples.web)
          (dns_resolve Samples.web) (connect_ex Samples.web)
          (fun p => if Z.eqb p 80 then Raises OtherException
                    else getservbyport Samples.web p)
          (requests_get Samples.web) (open_w Samples.web)
          (realpath Samples.web) (schedule Samples.web).

End Lifecycle.

(* ================================================================== *)
(** ** Facts about the thread pool *)

Module PoolFacts.
Import Py Pool.

Lemma remove_nth_length (X : Type) (l : list X) (n : nat) (x : X) :
  nth_error l n = Some x -> S (length (remove_nth n l)) = length l.
Proof.
  revert n; induction l as [|y l IH]; intros [|n] H; simpl in *;
    try discriminate; auto.
Qed.

Lemma replace_nth_length (X : Type) (l : list X) (n : nat) (x : X) :
  length (replace_nth n x l) = length l.
Proof.
  revert n; induction l as [|y l IH]; intros [|n]; simpl; auto.
Qed.

Lemma remove_nth_perm (X : Type) (l : list X) (n : nat) (x : X) :
  nth_error l n = Some x -> Permutation l (x :: remove_nth n l).
Proof.
  revert n; induction l as [|y l IH]; intros [|n] H; simpl in *;
    try discriminate.
  - injection H as ->. apply Permutation_refl.
  - apply IH in H. eapply perm_trans; [apply perm_skip, H | apply perm_swap].
Qed.

Lemma replace_nth_map (X Y : Type) (f : X -> Y) (l : list X) (n : nat)
      (x y : X) :
  nth_error l n = Some x -> f y = f x -> map f (replace_nth n y l) = map f l.
Proof.
  revert n; induction l as [|z l IH]; intros [|n] H E; simpl in *;
    try discriminate.
  - injection H as ->. now rewrite E.
  - f_equal. now apply IH.
Qed.

Lemma replace_nth_In (X : Type) (l : list X) (n : nat) (y z : X) :
  In z (replace_nth n y l) -> z = y \/ In z l.
Proof.
  revert n; induction l as [|x l IH]; intros [|n] H; simpl in *; try tauto.
  - destruct H as [<-|H]; auto.
  - destruct H as [<-|H]; auto. apply IH in H. tauto.
Qed.

Lemma remove_nth_In (X : Type) (l : list X) (n : nat) (z : X) :
  In z (remove_nth n l) -> In z l.
Proof.
  revert n; induction l as [|x l IH]; intros [|n] H; simpl in *; try tauto.
  destruct H as [<-|H]; auto. apply IH in H. tauto.
Qed.

Lemma skipn_cons (X : Type) (l : list X) : forall m x q,
  skipn m l = x :: q ->
  firstn (S m) l = firstn m l ++ [x] /\ skipn (S m) l = q.
Proof.
  induction l as [|y l IH]; intros [|m] x q H; simpl in *; try discriminate.
  - injection H as -> ->. auto.
  - apply IH in H as [H1 H2]. simpl in H1. rewrite H1. auto.
Qed.

Lemma skipn_tail (X : Type) (l : list X) : forall k e rest,
  e :: rest = skipn k l -> rest = skipn (S k) l.
Proof.
  induction l as [|y l IH]; intros [|k] e rest H; simpl in *;
    try discriminate.
  - now injection H.
  - now apply IH in H.
Qed.

Lemma list_sum_remove_nth (X : Type) (f : X -> nat) (l : list X) n x :
  nth_error l n = Some x ->
  list_sum (map f l) = (f x + list_sum (map f (remove_nth n l)))%nat.
Proof.
  revert n; induction l as [|y l IH]; intros [|n] H; simpl in *;
    try discriminate.
  - now injection H as ->.
  - rewrite (IH _ H). lia.
Qed.

Lemma list_sum_replace_nth (X : Type) (f : X -> nat) (l : list X) n x y :
  nth_error l n = Some x ->
  (list_sum (map f (replace_nth n y l)) + f x
   = list_sum (map f l) + f y)%nat.
Proof.
  revert n; induction l as [|z l IH]; intros [|n] H; simpl in *;
    try discriminate.
  - injection H as ->. lia.
  - specialize (IH _ H). lia.
Qed.

Section Facts.
Variables A B E : Type.
Variable fn : A -> list E * outcome B.
Variable max_workers : nat.

Local Abbreviation pool := (pool A B E).
Local Abbreviation step := (step fn max_workers).
Local Abbreviation drive := (drive fn max_workers).
Local Abbreviation moved := (moved fn max_workers).
Local Abbreviation work := (work fn).

Lemma start_moved p p' es :
  start fn max_workers p = Some (p', es) -> moved p p' es.
Proof.
  unfold start. destruct (queue p) as [|[i a] q] eqn:Q; [discriminate|].
  destruct (Nat.ltb_spec (length (running p)) max_workers); [|discriminate].
  intros [= <- <-]. now apply moved_start.
Qed.

Lemma advance_moved n p p' es :
  advance n p = Some (p', es) -> moved p p' es.
Proof.
  unfold advance.
  destruct (nth_error (running p) n) as [[i [[|e r] o]]|] eqn:R;
    try discriminate; intros [= <- <-].
  - now apply moved_finish.
  - now apply moved_event.
Qed.

Lemma cancel_moved p p' es :
  cancel p = Some (p', es) -> moved p p' es.
Proof.
  unfold cancel. destruct (queue p) as [|x q] eqn:Q; [discriminate|].
  destruct (await (finished p) (seq 0 (size p))) as [[bs|e]|] eqn:W;
    try discriminate.
  intros [= <- <-]. eapply moved_cancel; eauto.
Qed.

Lemma orelse_Some (X : Type) (a b : option X) (x : X) :
  orelse a b = Some x -> a = Some x \/ b = Some x.
Proof. destruct a; simpl; auto. Qed.

Lemma step_moved c p p' es (H : step c p = Some (p', es)) : moved p p' es.
Proof.
  unfold Pool.step in H.
  destruct c as [|[|n]];
    apply orelse_Some in H as [H|H];
    try (apply orelse_Some in H as [H|H]);
    eauto using start_moved, advance_moved, cancel_moved.
Qed.

(** Every move of the pool is some decision of a schedule, so the
    schedules cover every interleaving. *)
Lemma moved_step p p' es (H : moved p p' es) :
  exists c, step c p = Some (p', es).
Proof.
  destruct H as [i a q Q L | n i e r o R | n i o R | x q e Q W].
  - exists 0%nat. unfold Pool.step, start, orelse. rewrite Q.
    apply Nat.ltb_lt in L. now rewrite L.
  - exists (S (S n)). unfold Pool.step, orelse.
    assert (Hn : (n < length (running p))%nat)
      by (apply nth_error_Some; congruence).
    rewrite Nat.mod_small by exact Hn. unfold advance. now rewrite R.
  - exists (S (S n)). unfold Pool.step, orelse.
    assert (Hn : (n < length (running p))%nat)
      by (apply nth_error_Some; congruence).
    rewrite Nat.mod_small by exact Hn. unfold advance. now rewrite R.
  - exists 1%nat. unfold Pool.step, orelse, cancel. now rewrite Q, W.
Qed.

Lemma moved_work p p' es (H : moved p p' es) : (work p' < work p)%nat.
Proof.
  destruct H as [i a q Q L | n i e r o R | n i o R | x q e Q W];
    unfold Pool.work; cbn [queue running].
  - rewrite Q, map_app, list_sum_app. simpl. lia.
  - pose proof (list_sum_replace_nth _ (fun r => 1 + length (fst (snd r)))%nat
                  _ _ _ (i, (r, o)) R) as H. cbn [fst snd length] in H. lia.
  - rewrite (list_sum_remove_nth _ (fun r => 1 + length (fst (snd r)))%nat
               _ _ _ R). lia.
  - rewrite Q. simpl. lia.
Qed.

(** A pool with work left always moves. *)
Lemma step_progress c p :
  (0 < max_workers)%nat -> (0 < work p)%nat -> step c p <> None.
Proof.
  intros Hw Hp.
  assert (Hadv : forall n, (n < length (running p))%nat -> advance n p <> None).
  { intros n Hn. unfold advance.
    destruct (nth_error (running p) n) as [[i [[|e r] o]]|] eqn:R;
      try discriminate.
    apply nth_error_None in R. lia. }
  assert (Hst : running p = [] -> start fn max_workers p <> None).
  { intros R. unfold start. unfold Pool.work in Hp. rewrite R in *.
    destruct (queue p) as [|[i a] q]; simpl in *; [lia|].
    destruct (Nat.ltb_spec 0 max_workers); [discriminate|lia]. }
  unfold Pool.step, orelse.
  destruct (running p) as [|r0 rs] eqn:R.
  - specialize (Hst eq_refl).
    destruct (start fn max_workers p); [|congruence].
    destruct c as [|[|n]]; try discriminate.
    + destruct (cancel p); discriminate.
    + destruct (advance _ p); discriminate.
  - assert (H0 : advance 0 p <> None) by (apply Hadv; simpl; lia).
    destruct c as [|[|n]].
    + destruct (start fn max_workers p); [discriminate|].
      destruct (advance 0 p); [discriminate|congruence].
    + destruct (cancel p); [discriminate|].
      destruct (start fn max_workers p); [discriminate|].
      destruct (advance 0 p); [discriminate|congruence].
    + assert (Hn : advance (n mod length (r0 :: rs)) p <> None).
      { apply Hadv. apply Nat.mod_upper_bound. discriminate. }
      destruct (advance (n mod length (r0 :: rs)) p); [discriminate|congruence].
Qed.

Lemma work_0 (p : pool) : work p = 0%nat -> queue p = [] /\ running p = [].
Proof.
  unfold Pool.work. destruct (queue p), (running p); simpl; intros; try lia; auto.
Qed.

(** With enough decisions the pool runs dry. *)
Lemma drive_dry fuel : forall sched (p : pool),
  (0 < max_workers)%nat -> (work p <= fuel)%nat ->
  queue (fst (drive fuel sched p)) = [] /\
  running (fst (drive fuel sched p)) = [].
Proof.
  induction fuel as [|fuel IH]; intros sched p Hw Hp; simpl.
  - apply work_0. lia.
  - destruct (step (hd 0%nat sched) p) as [[p' es]|] eqn:S1.
    + pose proof S1 as Hm. apply step_moved in Hm. apply moved_work in Hm.
      specialize (IH (tl sched) p' Hw ltac:(lia)).
      destruct (drive fuel (tl sched) p') as [p'' es']; simpl in *. exact IH.
    + simpl. destruct (Nat.eq_dec (work p) 0) as [E0|NE].
      * now apply work_0.
      * exfalso. revert S1. apply step_progress; [exact Hw | lia].
Qed.

(** *** Events that open and close

    When every item has at most one thing in flight at a time and none
    when it ends, the pool has at most [max_workers] in flight. *)
Section Weights.
Variable weight : E -> Z.

Local Abbreviation total := (@Pool.total E weight).
Local Abbreviation owed := (@Pool.owed B E weight).
Local Abbreviation tails := (@Pool.tails A B E fn).

Hypothesis bracket : forall a k,
  (0 <= total (firstn k (fst (fn a))) <= 1)%Z /\ total (fst (fn a)) = 0%Z.

Lemma total_app (a b : list E) : total (a ++ b) = (total a + total b)%Z.
Proof. induction a as [|e a IH]; simpl; [reflexivity|]. rewrite IH. lia. Qed.

Lemma tail_owes (a : A) (k : nat) :
  (0 <= - total (skipn k (fst (fn a))) <= 1)%Z.
Proof.
  destruct (bracket a k) as [H1 H2].
  rewrite <- (firstn_skipn k (fst (fn a))), total_app in H2. lia.
Qed.

Lemma owed_bounds (rs : list (nat * (list E * outcome B))) :
  (forall r, In r rs -> exists a k, fst (snd r) = skipn k (fst (fn a))) ->
  (0 <= owed rs <= Z.of_nat (length rs))%Z.
Proof.
  induction rs as [|r rs IH]; intros H; [simpl; lia|].
  destruct (H r (or_introl eq_refl)) as (a & k & Hk).
  pose proof (tail_owes a k) as T. rewrite <- Hk in T.
  specialize (IH (fun r' Hr => H r' (or_intror Hr))).
  cbn [owed fold_right length]. fold (owed rs). lia.
Qed.

Lemma owed_app rs rs' : owed (rs ++ rs') = (owed rs + owed rs')%Z.
Proof. induction rs as [|r rs IH]; simpl; [reflexivity|]. rewrite IH. lia. Qed.

Lemma owed_replace rs n (x y : nat * (list E * outcome B)) :
  nth_error rs n = Some x ->
  owed (replace_nth n y rs)
  = (owed rs + total (fst (snd x)) - total (fst (snd y)))%Z.
Proof.
  revert n; induction rs as [|z rs IH]; intros [|n] H; simpl in *;
    try discriminate.
  - injection H as ->. lia.
  - rewrite (IH _ H). lia.
Qed.

Lemma owed_remove rs n (x : nat * (list E * outcome B)) :
  nth_error rs n = Some x ->
  owed (remove_nth n rs) = (owed rs + total (fst (snd x)))%Z.
Proof.
  revert n; induction rs as [|z rs IH]; intros [|n] H; simpl in *;
    try discriminate.
  - injection H as ->. lia.
  - rewrite (IH _ H). lia.
Qed.

Lemma moved_tails p p' es : moved p p' es -> tails p -> tails p'.
Proof.
  intros H T r Hr.
  destruct H as [i a q Q L | n i e rest o R | n i o R | x q e Q W];
    simpl in Hr.
  - apply in_app_or in Hr as [Hr|[<-|[]]]; [now apply T|].
    exists a, 0%nat. reflexivity.
  - apply replace_nth_In in Hr as [->|Hr]; [|now apply T].
    apply nth_error_In in R. destruct (T _ R) as (a & k & Hk). simpl in *.
    exists a, (S k). eapply skipn_tail; eauto.
  - apply remove_nth_In in Hr. now apply T.
  - now apply T.
Qed.

Lemma moved_owed p p' es :
  moved p p' es -> owed (running p') = (owed (running p) + total es)%Z.
Proof.
  intros H.
  destruct H as [i a q Q L | n i e rest o R | n i o R | x q e Q W]; simpl.
  - rewrite owed_app. simpl. destruct (bracket a 0) as [_ ->]. lia.
  - rewrite (owed_replace _ _ _ _ R). simpl. lia.
  - rewrite (owed_remove _ _ _ R). simpl. lia.
  - lia.
Qed.

Lemma moved_running p p' es :
  moved p p' es ->
  (length (running p) <= max_workers)%nat ->
  (length (running p') <= max_workers)%nat.
Proof.
  intros H L.
  destruct H as [i a q Q L' | n i e rest o R | n i o R | x q e Q W]; simpl.
  - rewrite length_app. simpl. lia.
  - now rewrite replace_nth_length.
  - apply remove_nth_length in R. lia.
  - exact L.
Qed.

Lemma moved_events p p' es : moved p p' es -> (length es <= 1)%nat.
Proof. intros []; simpl; lia. Qed.

(** What is in flight follows the running items, which never exceed
    the bound. *)
Lemma drive_in_flight fuel : forall sched (p : pool) k,
  tails p ->
  (length (running p) <= max_workers)%nat ->
  (0 <= owed (running p) + total (firstn k (snd (drive fuel sched p)))
     <= Z.of_nat max_workers)%Z.
Proof.
  induction fuel as [|fuel IH]; intros sched p k T L; simpl.
  - rewrite firstn_nil; simpl. pose proof (owed_bounds _ T). lia.
  - destruct (step (hd 0%nat sched) p) as [[p' es]|] eqn:S1;
      [|rewrite firstn_nil; simpl; pose proof (owed_bounds _ T); lia].
    apply step_moved in S1.
    pose proof (moved_tails _ _ _ S1 T) as T'.
    pose proof (moved_running _ _ _ S1 L) as L'.
    pose proof (moved_owed _ _ _ S1) as O.
    pose proof (moved_events _ _ _ S1) as Le.
    destruct (drive fuel (tl sched) p') as [p'' es'] eqn:D; simpl.
    destruct es as [|e [|e' es]]; simpl in Le; [| |lia].
    + simpl. specialize (IH (tl sched) p' k T' L'). rewrite D in IH.
      simpl in IH, O. lia.
    + destruct k as [|k]; simpl.
      * pose proof (owed_bounds _ T). lia.
      * specialize (IH (tl sched) p' k T' L'). rewrite D in IH.
        simpl in IH, O. lia.
Qed.

End Weights.

(** *** What the block hands back *)

Lemma result_of_In (fin : list (nat * outcome B)) i o :
  result_of i fin = Some o -> In (i, o) fin.
Proof.
  induction fin as [|[j x] fin IH]; simpl; [discriminate|].
  destruct (Nat.eqb_spec j i) as [->|NE].
  - intros [= ->]. auto.
  - auto.
Qed.

Lemma In_result_of (fin : list (nat * outcome B)) i o :
  In (i, o) fin -> result_of i fin <> None.
Proof.
  induction fin as [|[j x] fin IH]; simpl; [tauto|].
  destruct (Nat.eqb_spec j i) as [->|NE]; [discriminate|].
  intros [[= -> ->]|H]; [congruence|auto].
Qed.

Lemma result_of_app (fin : list (nat * outcome B)) x i o :
  result_of i fin = Some o -> result_of i (fin ++ [x]) = Some o.
Proof.
  induction fin as [|[j y] fin IH]; simpl; [discriminate|].
  destruct (Nat.eqb_spec j i); auto.
Qed.

(** Once the iterator has met a failure, later results do not change
    it. *)
Lemma await_raises_app (fin : list (nat * outcome B)) x fs e :
  await fin fs = Some (Raises e) -> await (fin ++ [x]) fs = Some (Raises e).
Proof.
  induction fs as [|i fs IH]; simpl; [discriminate|].
  destruct (result_of i fin) as [[b|e']|] eqn:R; [| |discriminate].
  - rewrite (result_of_app _ x _ _ R).
    destruct (await fin fs) as [[bs|e'']|]; try discriminate.
    intros [= ->]. now rewrite IH.
  - rewrite (result_of_app _ x _ _ R). auto.
Qed.

Lemma await_raises_In (fin : list (nat * outcome B)) fs e :
  await fin fs = Some (Raises e) -> exists i, In (i, Raises e) fin.
Proof.
  induction fs as [|i fs IH]; simpl; [discriminate|].
  destruct (result_of i fin) as [[b|e']|] eqn:R; [| |discriminate].
  - destruct (await fin fs) as [[bs|e'']|]; try discriminate.
    intros [= ->]. auto.
  - intros [= ->]. exists i. now apply result_of_In.
Qed.

(** What the iterator hands back agrees with the items taken in order,
    as far as the futures hold what their items gave. *)
Lemma await_sound (fin : list (nat * outcome B)) : forall (l : list A) s r,
  (forall j a o, nth_error l j = Some a ->
                 result_of (s + j) fin = Some o -> o = snd (fn a)) ->
  await fin (seq s (length l)) = Some r ->
  r = in_order (map (fun a => snd (fn a)) l).
Proof.
  induction l as [|x l IH]; intros s r H; simpl.
  - now intros [= <-].
  - pose proof (H 0%nat x) as Hx. rewrite Nat.add_0_r in Hx. simpl in Hx.
    destruct (result_of s fin) as [[b|e]|] eqn:R; [| |discriminate].
    + rewrite <- (Hx _ eq_refl eq_refl).
      destruct (await fin (seq (S s) (length l))) as [r'|] eqn:W;
        [|discriminate].
      rewrite <- (IH (S s) r'); auto.
      * destruct r'; now intros [= <-].
      * intros j a o Hj. rewrite Nat.add_succ_comm. now apply (H (S j)).
    + rewrite <- (Hx _ eq_refl eq_refl). now intros [= <-].
Qed.

Lemma await_defined (fin : list (nat * outcome B)) : forall (n s : nat),
  (forall j, (j < n)%nat -> result_of (s + j) fin <> None) ->
  await fin (seq s n) <> None.
Proof.
  induction n as [|n IH]; intros s H; simpl; [discriminate|].
  pose proof (H 0%nat ltac:(lia)) as H0. rewrite Nat.add_0_r in H0.
  destruct (result_of s fin) as [[b|e]|]; [|discriminate|congruence].
  specialize (IH (S s)).
  destruct (await fin (seq (S s) n)) as [[bs|e]|]; try discriminate.
  apply IH. intros j Hj. rewrite Nat.add_succ_comm. apply H. lia.
Qed.

Lemma in_order_raises (l : list A) : forall e,
  in_order (map (fun a => snd (fn a)) l) = Raises e ->
  exists k a, nth_error l k = Some a /\ snd (fn a) = Raises e.
Proof.
  induction l as [|x l IH]; simpl; [discriminate|]. intros e.
  destruct (snd (fn x)) as [b|e'] eqn:X.
  - destruct (in_order (map (fun a => snd (fn a)) l)) eqn:IO;
      [discriminate|].
    intros [= ->]. destruct (IH _ eq_refl) as (k & a & Hk & Ha).
    exists (S k), a. auto.
  - intros [= ->]. exists 0%nat, x. auto.
Qed.

Lemma combine_seq_nth (l : list A) : forall s i a,
  In (i, a) (combine (seq s (length l)) l) ->
  (s <= i)%nat /\ nth_error l (i - s) = Some a.
Proof.
  induction l as [|x l IH]; intros s i a H; simpl in *; [tauto|].
  destruct H as [[= <- <-]|H].
  - rewrite Nat.sub_diag. auto.
  - apply IH in H as [Hs Hn]. split; [lia|].
    replace (i - s)%nat with (S (i - S s)) by lia. exact Hn.
Qed.

Lemma nth_combine_seq (l : list A) : forall s k a,
  nth_error l k = Some a ->
  In ((s + k)%nat, a) (combine (seq s (length l)) l).
Proof.
  induction l as [|x l IH]; intros s [|k] a H; simpl in *;
    try discriminate.
  - injection H as ->. left. f_equal. lia.
  - right. replace (s + S k)%nat with (S s + k)%nat by lia. now apply IH.
Qed.

Lemma snd_combine_seq (l : list A) : forall s,
  map snd (combine (seq s (length l)) l) = l.
Proof.
  induction l as [|x l IH]; intros s; simpl; [reflexivity|].
  now rewrite IH.
Qed.

Lemma firstn_items_index (l : list A) : forall s m i a,
  In (i, a) (firstn m (combine (seq s (length l)) l)) -> (i < s + m)%nat.
Proof.
  induction l as [|x l IH]; intros s [|m] i a H; simpl in *; try tauto.
  destruct H as [[= <- <-]|H]; [lia|].
  apply IH in H. lia.
Qed.

Lemma flat_map_firstn_items (f : A -> list E) (l : list A) : forall s m,
  flat_map (fun ia => f (snd ia)) (firstn m (combine (seq s (length l)) l))
  = flat_map f (firstn m l).
Proof.
  induction l as [|x l IH]; intros s [|m]; simpl; auto. now rewrite IH.
Qed.

Lemma firstn_min (l : list A) (m : nat) :
  firstn (Nat.min m (length l)) l = firstn m l.
Proof.
  destruct (Nat.le_ge_cases m (length l)) as [Hm|Hm].
  - now rewrite Nat.min_l.
  - rewrite Nat.min_r by exact Hm. now rewrite firstn_all, firstn_all2.
Qed.

Lemma flat_map_replace (rs : list (nat * (list E * outcome B))) n i e es o :
  nth_error rs n = Some (i, (e :: es, o)) ->
  Permutation (flat_map (fun r => fst (snd r)) rs)
              (e :: flat_map (fun r => fst (snd r))
                             (replace_nth n (i, (es, o)) rs)).
Proof.
  revert n; induction rs as [|z rs IH]; intros [|n] H; simpl in *;
    try discriminate.
  - injection H as ->. simpl. apply Permutation_refl.
  - apply IH in H.
    eapply perm_trans; [apply Permutation_app_head, H|].
    apply Permutation_sym, Permutation_middle.
Qed.

Lemma flat_map_remove (rs : list (nat * (list E * outcome B))) n i o :
  nth_error rs n = Some (i, ([], o)) ->
  flat_map (fun r => fst (snd r)) (remove_nth n rs)
  = flat_map (fun r => fst (snd r)) rs.
Proof.
  revert n; induction rs as [|z rs IH]; intros [|n] H; simpl in *;
    try discriminate.
  - now injection H as ->.
  - now rewrite (IH _ H).
Qed.

Section Answers.
Variable args : list A.

Local Abbreviation items := (combine (seq 0 (length args)) args).

Local Abbreviation consistent := (@Pool.consistent A B E fn args).

Lemma submitted : consistent 0 [] (submit_all B E args).
Proof.
  split; simpl; auto.
Qed.

Lemma moved_consistent p p' es m past :
  moved p p' es -> consistent m past p ->
  exists m', consistent m' (past ++ es) p'.
Proof.
  intros H [Hs Hq He Hf].
  destruct H as [i a q Q L | n i e rest o R | n i o R | x q e Q W].
  - destruct Hq as [Hq|[Hq _]]; [|congruence].
    rewrite Q in Hq. symmetry in Hq.
    apply skipn_cons in Hq as [F1 F2].
    exists (S m). split; cbn [size queue running finished]; auto.
    + rewrite app_nil_r, F1, !flat_map_app, app_assoc. cbn [flat_map snd].
      rewrite app_nil_r. now apply Permutation_app_tail.
    + rewrite F1, !map_app. cbn [map fst snd].
      eapply perm_trans; [apply Permutation_app_tail, Hf|].
      rewrite <- !app_assoc. apply Permutation_app_head, Permutation_app_comm.
  - exists m. split; cbn [size queue running finished]; auto.
    + eapply perm_trans; [|exact He].
      rewrite <- app_assoc. apply Permutation_app_head. cbn [app].
      apply Permutation_sym. eapply flat_map_replace; eauto.
    + rewrite (replace_nth_map _ _ (fun r => (fst r, snd (snd r))) _ _ _ _ R);
        auto.
  - exists m. split; cbn [size queue running finished]; auto.
    + destruct Hq as [Hq|[Hq [e W]]]; auto.
      right. split; auto. exists e. now apply await_raises_app.
    + rewrite app_nil_r, (flat_map_remove _ _ _ _ R). exact He.
    + eapply perm_trans; [exact Hf|].
      pose proof (remove_nth_perm _ _ _ _ R) as P.
      apply (Permutation_map (fun r => (fst r, snd (snd r)))) in P.
      cbn [map fst snd] in P.
      eapply perm_trans; [apply Permutation_app_tail, P|]. cbn [app].
      rewrite app_assoc. apply Permutation_cons_append.
  - exists m. split; cbn [size queue running finished]; auto.
    + right. split; auto. exists e. now rewrite <- Hs.
    + now rewrite app_nil_r.
Qed.

Lemma drive_consistent fuel : forall sched (p : pool) m past,
  consistent m past p ->
  exists m', consistent m' (past ++ snd (drive fuel sched p))
                        (fst (drive fuel sched p)).
Proof.
  induction fuel as [|fuel IH]; intros sched p m past C; simpl.
  - exists m. now rewrite app_nil_r.
  - destruct (step (hd 0%nat sched) p) as [[p' es]|] eqn:S1;
      [|exists m; simpl; now rewrite app_nil_r].
    apply step_moved in S1.
    destruct (moved_consistent _ _ _ _ _ S1 C) as [m1 C1].
    destruct (IH (tl sched) p' m1 _ C1) as [m2 C2].
    destruct (drive fuel (tl sched) p') as [p'' es']; simpl in *.
    exists m2. now rewrite app_assoc.
Qed.

Lemma consistent_bound m past p : consistent m past p ->
  forall i o, In (i, o) (finished p) ->
    (i < m)%nat /\ exists a, nth_error args i = Some a /\ o = snd (fn a).
Proof.
  intros [Hs Hq He Hf] i o Hi.
  assert (H : In (i, o) (map (fun ia => (fst ia, snd (fn (snd ia))))
                             (firstn m items))).
  { eapply Permutation_in; [apply Permutation_sym, Hf|].
    apply in_or_app. now right. }
  apply in_map_iff in H as [[j a] [[= <- <-] H]].
  split.
  - apply firstn_items_index in H. lia.
  - exists a. split; [|reflexivity].
    assert (H' : In (j, a) items)
      by (rewrite <- (firstn_skipn m items); apply in_or_app; now left).
    apply combine_seq_nth in H' as [_ H'].
    now rewrite Nat.sub_0_r in H'.
Qed.

Section Run.
Variable sched : list nat.
Hypothesis workers_pos : (0 < max_workers)%nat.

Local Abbreviation fuel := (work (submit_all B E args)).
Local Abbreviation final := (fst (drive fuel sched (submit_all B E args))).
Local Abbreviation events := (snd (drive fuel sched (submit_all B E args))).

Lemma map_list_unfold :
  map_list fn max_workers sched args
  = (match await (finished final) (seq 0 (length args)) with
     | Some r => r
     | None => Raises OtherException
     end, events).
Proof.
  unfold map_list.
  destruct (drive fuel sched (submit_all B E args)); reflexivity.
Qed.

Lemma run_consistent :
  exists m, consistent m events final /\ queue final = [] /\ running final = [].
Proof.
  destruct (drive_consistent fuel sched _ _ _ submitted) as [m C].
  destruct (drive_dry fuel sched (submit_all B E args) workers_pos (le_n _))
    as [Q R].
  exists m. simpl in C. auto.
Qed.

Lemma run_all_started m :
  consistent m events final -> queue final = [] -> running final = [] ->
  queue final = skipn m items ->
  (length args <= m)%nat /\
  forall j, (j < length args)%nat -> result_of j (finished final) <> None.
Proof.
  intros [Hs Hq He Hf] Q R Hq'.
  assert (Hm : (length args <= m)%nat).
  { rewrite Q in Hq'. symmetry in Hq'.
    assert (L : length (skipn m items) = 0%nat) by now rewrite Hq'.
    rewrite length_skipn, length_combine, length_seq, Nat.min_id in L. lia. }
  split; [exact Hm|]. intros j Hj.
  destruct (nth_error args j) as [a|] eqn:Ha;
    [|apply nth_error_None in Ha; lia].
  apply In_result_of with (o := snd (fn a)).
  rewrite R in Hf. simpl in Hf. eapply Permutation_in; [exact Hf|].
  rewrite firstn_all2
    by (rewrite length_combine, length_seq, Nat.min_id; exact Hm).
  apply (nth_combine_seq args 0) in Ha. simpl in Ha.
  apply (in_map (fun ia => (fst ia, snd (fn (snd ia))))) in Ha. exact Ha.
Qed.

(** [list(executor.map(fn, args))] gives what the items give when they
    are taken one after another, in the order of [args], under every
    schedule. *)
Theorem map_list_result :
  fst (map_list fn max_workers sched args)
  = in_order (map (fun a => snd (fn a)) args).
Proof.
  rewrite map_list_unfold. simpl.
  destruct run_consistent as (m & C & Q & R).
  assert (Hsound : forall r,
             await (finished final) (seq 0 (length args)) = Some r ->
             r = in_order (map (fun a => snd (fn a)) args)).
  { intros r. apply await_sound. intros j a o Hj Ho. simpl in Ho.
    apply result_of_In in Ho.
    destruct (consistent_bound _ _ _ C _ _ Ho) as (_ & a' & Ha & ->).
    congruence. }
  destruct (await (finished final) (seq 0 (length args))) as [r|] eqn:W;
    [now apply Hsound|].
  exfalso. revert W.
  destruct (c_queue C) as [Hq|[_ [e W]]]; [|congruence].
  apply await_defined. intros j Hj. simpl.
  now apply (run_all_started m C Q R Hq).
Qed.

(** The events of the block are those of the first [m] items, in some
    order: all of them when no item raises, and otherwise at least up to
    an item that raised what the block raises. *)
Theorem map_list_events :
  exists m,
    (m <= length args)%nat /\
    Permutation (snd (map_list fn max_workers sched args))
                (flat_map (fun a => fst (fn a)) (firstn m args)) /\
    match fst (map_list fn max_workers sched args) with
    | Returns _ => m = length args
    | Raises e =>
        exists k a, (k < m)%nat /\ nth_error args k = Some a
                    /\ snd (fn a) = Raises e
    end.
Proof.
  pose proof map_list_result as Hres.
  rewrite map_list_unfold in *. simpl in *.
  destruct run_consistent as (m & C & Q & R).
  pose proof (consistent_bound _ _ _ C) as Hb.
  exists (Nat.min m (length args)). split; [lia|]. split.
  - pose proof (c_events C) as He.
    rewrite R in He. simpl in He. rewrite app_nil_r in He.
    rewrite (flat_map_firstn_items (fun a => fst (fn a)) args 0 m) in He.
    now rewrite firstn_min.
  - destruct (c_queue C) as [Hq|[_ [e W]]].
    + destruct (run_all_started m C Q R Hq) as [Hm Hall].
      rewrite Nat.min_r by exact Hm.
      destruct (await (finished final) (seq 0 (length args)))
        as [[bs|e]|] eqn:W; auto.
      * apply await_raises_In in W as [k Hk].
        destruct (Hb _ _ Hk) as (Hkm & a & Ha & Hr).
        exists k, a. repeat split; auto.
        apply nth_error_Some. congruence.
      * exfalso. revert W. apply await_defined. exact Hall.
    + rewrite W.
      apply await_raises_In in W as [k Hk].
      destruct (Hb _ _ Hk) as (Hkm & a & Ha & Hr).
      exists k, a. repeat split; auto.
      assert (k < length args)%nat by (apply nth_error_Some; congruence).
      lia.
Qed.

(** At no instant is more in flight than there are workers. *)
Theorem map_list_in_flight (weight : E -> Z) k :
  (forall a j, (0 <= total weight (firstn j (fst (fn a))) <= 1)%Z
               /\ total weight (fst (fn a)) = 0%Z) ->
  (0 <= total weight (firstn k (snd (map_list fn max_workers sched args)))
     <= Z.of_nat max_workers)%Z.
Proof.
  intros Hb. rewrite map_list_unfold. simpl.
  pose proof (drive_in_flight weight Hb fuel sched (submit_all B E args) k) as H.
  simpl in H. apply H; [|lia].
  intros r [].
Qed.

End Run.
End Answers.
End Facts.

Arguments map_list_result {A B E} fn {max_workers} args sched workers_pos.
Arguments map_list_events {A B E} fn {max_workers} args sched workers_pos.
Arguments map_list_in_flight {A B E} fn {max_workers} args sched workers_pos
  weight k bracket.
End PoolFacts.

(* ================================================================== *)
(** ** Facts about dicts *)

Module DictFacts.
Import Py.

Lemma key_eqb_eq (a b : key) : key_eqb a b = true <-> a = b.
Proof.
  destruct a as [s|n], b as [t|m]; simpl; split; intros H;
    try discriminate; try congruence.
  - apply String.eqb_eq in H. now subst.
  - injection H as ->. apply String.eqb_refl.
  - apply Z.eqb_eq in H. now subst.
  - injection H as ->. apply Z.eqb_refl.
Qed.

Lemma key_eqb_refl (a : key) : key_eqb a a = true.
Proof. now apply key_eqb_eq. Qed.

Lemma key_eqb_neq (a b : key) : a <> b -> key_eqb a b = false.
Proof.
  intros H. destruct (key_eqb a b) eqn:E; [|reflexivity].
  apply key_eqb_eq in E. contradiction.
Qed.

Lemma dict_get_set_same (k : key) (v : value) (d : dict) :
  dict_get k (dict_set k v d) = Some v.
Proof.
  induction d as [|[k' v'] d IH]; simpl.
  - now rewrite key_eqb_refl.
  - destruct (key_eqb k' k) eqn:E; simpl; rewrite E; auto.
Qed.

Lemma dict_get_set_other (k k' : key) (v : value) (d : dict) :
  k <> k' -> dict_get k' (dict_set k v d) = dict_get k' d.
Proof.
  intros NE. induction d as [|[k0 v0] d IH]; simpl.
  - rewrite key_eqb_neq; auto.
  - destruct (key_eqb k0 k) eqn:E; simpl.
    + apply key_eqb_eq in E; subst k0. rewrite key_eqb_neq; auto.
    + rewrite IH. reflexivity.
Qed.

Lemma dict_get_None (k : key) (d : dict) :
  dict_get k d = None <-> ~ In k (keys d).
Proof.
  induction d as [|[k' v'] d IH]; simpl; [tauto|].
  destruct (key_eqb k' k) eqn:E.
  - apply key_eqb_eq in E. split; [discriminate|]. intros H. exfalso; auto.
  - rewrite IH. split; intros H; [|tauto].
    intros [H1|H1]; [|tauto]. subst. now rewrite key_eqb_refl in E.
Qed.

(** A new key goes last. *)
Lemma dict_set_new (k : key) (v : value) (d : dict) :
  ~ In k (keys d) -> dict_set k v d = d ++ [(k, v)].
Proof.
  induction d as [|[k' v'] d IH]; simpl; intros H; [reflexivity|].
  rewrite key_eqb_neq by tauto. rewrite IH by tauto. reflexivity.
Qed.

Lemma keys_dict_set (k : key) (v : value) (d : dict) :
  keys (dict_set k v d)
  = match dict_get k d with Some _ => keys d | None => keys d ++ [k] end.
Proof.
  induction d as [|[k' v'] d IH]; simpl; [reflexivity|].
  destruct (key_eqb k' k) eqn:E; simpl; [reflexivity|].
  rewrite IH. destruct (dict_get k d); reflexivity.
Qed.

Lemma dict_set_NoDup (k : key) (v : value) (d : dict) :
  NoDup (keys d) -> NoDup (keys (dict_set k v d)).
Proof.
  intros H. rewrite keys_dict_set.
  destruct (dict_get k d) eqn:E; [exact H|].
  apply dict_get_None in E.
  apply NoDup_app; [exact H | repeat constructor; simpl; tauto |].
  intros x Hx [<-|[]]. contradiction.
Qed.

Lemma dict_of_pairs_NoDup (l : list (key * value)) :
  NoDup (keys (dict_of_pairs l)).
Proof.
  unfold dict_of_pairs.
  assert (G : forall d, NoDup (keys d) ->
            NoDup (keys (fold_left (fun d kv => dict_set (fst kv) (snd kv) d) l d))).
  { induction l as [|[k v] l IH]; intros d Hd; simpl; [exact Hd|].
    apply IH, dict_set_NoDup, Hd. }
  apply G. constructor.
Qed.

(** [dict(d.items())] is [d]. *)
Lemma dict_of_pairs_id (d : dict) :
  NoDup (keys d) -> dict_of_pairs d = d.
Proof.
  unfold dict_of_pairs.
  assert (G : forall l acc, NoDup (keys (acc ++ l)) ->
            fold_left (fun d kv => dict_set (fst kv) (snd kv) d) l acc = acc ++ l).
  { induction l as [|[k v] l IH]; intros acc H; simpl.
    - now rewrite app_nil_r.
    - assert (E : acc ++ (k, v) :: l = (acc ++ [(k, v)]) ++ l)
        by now rewrite <- app_assoc.
      rewrite E in *. rewrite <- IH by exact H. f_equal.
      apply dict_set_new.
      unfold keys in H. rewrite !map_app in H. simpl in H.
      apply NoDup_app_remove_r in H.
      apply NoDup_remove_2 in H. rewrite app_nil_r in H. exact H. }
  intros H. apply (G d []). exact H.
Qed.

End DictFacts.

(* ================================================================== *)
(** ** Facts about the methods *)

Module OsintFacts.
Import Py Classifier Osint DictFacts.

Lemma add_trace_nil (st : state) : add_trace st [] = st.
Proof. destruct st; unfold add_trace; simpl. now rewrite app_nil_r. Qed.

Lemma add_trace_app (st : state) (a b : list event) :
  add_trace (add_trace st a) b = add_trace st (a ++ b).
Proof. unfold add_trace; simpl. now rewrite app_assoc. Qed.

Lemma caught_exception (e : exn) : caught ExceptException e = true.
Proof. destruct e; reflexivity. Qed.

Lemma max_workers_pos : (0 < max_workers)%nat.
Proof. unfold max_workers. lia. Qed.

Ltac by_events :=
  let a := fresh "a" in
  let e := fresh "e" in
  let IH := fresh "IH" in
  intros a; induction a as [|e a IH]; intros; simpl;
  [reflexivity | destruct e; simpl; rewrite ?IH; reflexivity].

Section Facts.
Variable w : world.

(** What one call of [check_port] does. *)
Lemma check_port_item_eq (ip : string) (port : Z) :
  check_port_item w ip port
  = match connect_ex w ip port with
    | Returns result =>
        ([SocketOpen port; ConnectBegin ip port (Some 1%Z);
          ConnectEnd ip port; SocketClose port],
         Returns (port, Z.eqb result 0))
    | Raises e =>
        ([SocketOpen port; ConnectBegin ip port (Some 1%Z);
          ConnectRaised ip port e],
         Raises e)
    end.
Proof.
  unfold check_port_item, run_task, check_port, socket_socket, settimeout,
    sock_connect_ex, sock_close, perform, bind, ret.
  cbn. destruct (connect_ex w ip port); reflexivity.
Qed.

Lemma port_results_in_order (ip : string) (ports : list Z) :
  connect_ok w ip ports = true ->
  Pool.in_order (map (fun p => snd (check_port_item w ip p)) ports)
  = Returns (port_results w ip ports).
Proof.
  unfold port_results.
  induction ports as [|p ports IH]; intros H; [reflexivity|].
  cbn [connect_ok forallb] in H. apply andb_prop in H as [H1 H2].
  cbn [map Pool.in_order]. rewrite check_port_item_eq. unfold is_open at 1.
  destruct (connect_ex w ip p) as [c|e]; [|discriminate].
  cbn [snd]. rewrite (IH H2). reflexivity.
Qed.

Lemma port_results_raise (ip : string) (ports : list Z) :
  connect_ok w ip ports = false ->
  exists e,
    Pool.in_order (map (fun p => snd (check_port_item w ip p)) ports)
    = Raises e.
Proof.
  induction ports as [|p ports IH]; intros H; [discriminate|].
  cbn [connect_ok forallb] in H. cbn [map Pool.in_order].
  rewrite check_port_item_eq.
  destruct (connect_ex w ip p) as [c|e]; cbn [snd].
  - cbn [andb] in H. destruct (IH H) as [e He]. exists e. now rewrite He.
  - exists e. reflexivity.
Qed.

(** The pool hands the port results back in the order of the port
    list, or raises what the first call that raised did, whatever the
    schedule. *)
Lemma probe_unfold (ip : string) (ports : list Z) (st : state) :
  probe w ip ports st
  = (Pool.in_order (map (fun p => snd (check_port_item w ip p)) ports),
     add_trace st (probe_events w ip ports)).
Proof.
  unfold probe, probe_events.
  pose proof (PoolFacts.map_list_result (check_port_item w ip) ports
                (schedule w) max_workers_pos) as R.
  destruct (Pool.map_list (check_port_item w ip) max_workers (schedule w) ports)
    as [res es]; cbn [fst snd] in *.
  subst res. reflexivity.
Qed.

Lemma probe_spec (ip : string) (ports : list Z) (st : state) :
  connect_ok w ip ports = true ->
  probe w ip ports st
  = (Returns (port_results w ip ports),
     add_trace st (probe_events w ip ports)).
Proof. intros H. now rewrite probe_unfold, port_results_in_order. Qed.

Lemma probe_raises (ip : string) (ports : list Z) (st : state) :
  connect_ok w ip ports = false ->
  exists e,
    probe w ip ports st = (Raises e, add_trace st (probe_events w ip ports)).
Proof.
  intros H. destruct (port_results_raise ip ports H) as [e He].
  exists e. now rewrite probe_unfold, He.
Qed.

Lemma opened_port_results (ip : string) (ports : list Z) :
  opened (port_results w ip ports) = filter (is_open w ip) ports.
Proof.
  unfold opened, port_results.
  induction ports as [|q ports IH]; simpl; [reflexivity|].
  destruct (is_open w ip q); simpl; now rewrite IH.
Qed.

Lemma service_loop_spec (res : list (Z * bool)) : forall acc st,
  services_ok w (opened res) = true ->
  service_loop w res acc st
  = (Returns (labelled w (opened res) acc),
     add_trace st (map ServByPort (opened res))).
Proof.
  induction res as [|[port is_open] res IH]; intros acc st H.
  - simpl. now rewrite add_trace_nil.
  - simpl. destruct is_open.
    + unfold opened in H; simpl in H. apply andb_prop in H as [H1 H2].
      unfold bind, try_except, call at 1.
      change (opened ((port, true) :: res)) with (port :: opened res).
      change (labelled w (port :: opened res) acc)
        with (labelled w (opened res)
                (dict_set (KInt port) (VStr (service_label w port)) acc)).
      simpl map.
      destruct (getservbyport w port) as [s|e] eqn:G.
      * assert (E : service_label w port = s)
          by (unfold service_label; now rewrite G).
        rewrite E, IH by exact H2. now rewrite add_trace_app.
      * assert (E : service_label w port = "unknown")
          by (unfold service_label; now rewrite G).
        change (caught ExceptOSError e = true) in H1.
        rewrite E, H1. unfold ret. rewrite IH by exact H2.
        now rewrite add_trace_app.
    + rewrite IH by exact H. reflexivity.
Qed.

(** Labelling only asks the services table. *)
Lemma service_loop_trace (res : list (Z * bool)) : forall acc st,
  exists l, trace (snd (service_loop w res acc st))
            = trace st ++ map ServByPort l.
Proof.
  induction res as [|[port is_open] res IH]; intros acc st.
  - exists []. simpl. now rewrite app_nil_r.
  - simpl. destruct is_open; [|apply IH].
    unfold bind, try_except, call at 1.
    destruct (getservbyport w port) as [s|e].
    + destruct (IH (dict_set (KInt port) (VStr s) acc) (add_trace st [ServByPort port]))
        as [l Hl].
      exists (port :: l). rewrite Hl. simpl. now rewrite <- app_assoc.
    + destruct (caught ExceptOSError e).
      * unfold ret.
        destruct (IH (dict_set (KInt port) (VStr "unknown") acc)
                     (add_trace st [ServByPort port])) as [l Hl].
        exists (port :: l). rewrite Hl. simpl. now rewrite <- app_assoc.
      * exists [port]. reflexivity.
Qed.

Lemma scan_ports_skip (ports : list Z) (ip : option string) (st : state) :
  not_ip ip = true ->
  scan_ports w ports ip st
  = set_result "port_scan" (VStr "Skipped due to DNS resolution failure") st.
Proof.
  intros H. unfold scan_ports. destruct ip as [a|]; [|reflexivity].
  now rewrite H.
Qed.

Lemma scan_ports_spec (ports : list Z) (ip : string) (st : state) :
  not_ip (Some ip) = false ->
  connect_ok w ip ports = true ->
  services_ok w (filter (is_open w ip) ports) = true ->
  scan_ports w ports (Some ip) st
  = (Returns tt,
     mkState (target st)
             (dict_set (KStr "port_scan")
                (VDict (labelled w (filter (is_open w ip) ports) []))
                (results st))
             (trace st ++ probe_events w ip ports
                ++ map ServByPort (filter (is_open w ip) ports))
             (files st)).
Proof.
  intros N C H. unfold scan_ports. rewrite N.
  rewrite <- opened_port_results in *.
  unfold bind at 1. rewrite probe_spec by exact C.
  unfold bind at 1. rewrite service_loop_spec by exact H.
  unfold set_result, add_trace; simpl. now rewrite <- app_assoc.
Qed.

Lemma scan_ports_trace (ports : list Z) (ip : option string) (st : state) :
  exists l,
    trace (snd (scan_ports w ports ip st))
    = trace st
      ++ (if not_ip ip then []
          else match ip with
               | Some a => probe_events w a ports
               | None => []
               end)
      ++ map ServByPort l.
Proof.
  destruct (not_ip ip) eqn:N.
  - rewrite scan_ports_skip by exact N. exists []. simpl.
    now rewrite app_nil_r.
  - destruct ip as [a|]; [|discriminate]. unfold scan_ports. rewrite N.
    unfold bind at 1.
    destruct (connect_ok w a ports) eqn:C.
    + rewrite probe_spec by exact C. unfold bind at 1.
      destruct (service_loop_trace (port_results w a ports) []
                  (add_trace st (probe_events w a ports))) as [l Hl].
      exists l.
      destruct (service_loop w (port_results w a ports) []
                  (add_trace st (probe_events w a ports))) as [[d|e] st'];
        simpl in *; rewrite Hl; now rewrite <- app_assoc.
    + destruct (probe_raises a ports st C) as [e ->].
      exists []. simpl. now rewrite app_nil_r.
Qed.

(** *** The sequential collectors, as equations *)

Lemma get_ip_address (st : state) :
  is_ip_address (target st) = true ->
  get_ip w st = (Returns (Some (target st)), st).
Proof.
  intros H. unfold get_ip, bind, get_target. now rewrite H.
Qed.

Lemma get_ip_resolved (st : state) (ip : string) :
  is_ip_address (target st) = false ->
  gethostbyname w (target st) = Returns ip ->
  get_ip w st
  = (Returns (Some ip),
     mkState (target st) (dict_set (KStr "ip_address") (VStr ip) (results st))
             (trace st ++ [GetHostByName (target st)]) (files st)).
Proof.
  intros H G. unfold get_ip, bind at 1, get_target. rewrite H.
  unfold try_except, bind, call. now rewrite G.
Qed.

Lemma get_ip_raised (st : state) (e : exn) :
  is_ip_address (target st) = false ->
  gethostbyname w (target st) = Raises e ->
  get_ip w st
  = if caught ExceptGaierror e
    then (Returns None,
          mkState (target st)
                  (dict_set (KStr "ip_address") (VStr "Not found") (results st))
                  (trace st ++ [GetHostByName (target st)]) (files st))
    else (Raises e, add_trace st [GetHostByName (target st)]).
Proof.
  intros H G. unfold get_ip, bind at 1, get_target. rewrite H.
  unfold try_except, bind at 1, call. rewrite G.
  destruct (caught ExceptGaierror e); reflexivity.
Qed.

Lemma get_whois_spec (st : state) :
  get_whois w st
  = (Returns tt,
     mkState (target st)
             (dict_set (KStr "whois") (whois_value w (target st)) (results st))
             (trace st ++ [WhoisQuery (target st)]) (files st)).
Proof.
  unfold get_whois, try_except, bind, get_target, call, whois_value.
  destruct (whois_whois w (target st)); rewrite ?caught_exception;
    reflexivity.
Qed.

Lemma dns_loop_spec (tgt : string) (types : list string) : forall acc st,
  dns_loop w tgt types acc st
  = (Returns (dns_answers w tgt types acc),
     add_trace st (map (DnsQuery tgt) types)).
Proof.
  induction types as [|rt types IH]; intros acc st.
  - simpl. now rewrite add_trace_nil.
  - cbn [dns_loop]. unfold bind at 1, try_except, bind at 1, call.
    unfold dns_answers. cbn [fold_left map]. fold (dns_answers w tgt types).
    destruct (dns_resolve w tgt rt); rewrite ?caught_exception; unfold ret;
      rewrite IH, add_trace_app; reflexivity.
Qed.

Lemma get_dns_records_spec (st : state) :
  get_dns_records w st
  = (Returns tt,
     mkState (target st)
             (dict_set (KStr "dns_records") (dns_value w (target st))
                       (results st))
             (trace st ++ (if is_ip_address (target st) then []
                           else map (DnsQuery (target st)) record_types))
             (files st)).
Proof.
  unfold get_dns_records, bind at 1, get_target, dns_value.
  destruct (is_ip_address (target st)).
  - unfold set_result. now rewrite app_nil_r.
  - unfold bind. rewrite dns_loop_spec. reflexivity.
Qed.

Lemma http_loop_spec (tgt : string) (ps : list string) : forall st,
  http_loop w tgt ps st
  = (Returns tt,
     mkState (target st)
             (match first_success w tgt ps with
              | Some (p, hs) =>
                  dict_set (KStr (p ++ "_headers")) (VDict (headers_dict hs))
                           (results st)
              | None => results st
              end)
             (trace st ++ map (fun p => HttpGet (url_of p tgt) 5) (tried w tgt ps))
             (files st)).
Proof.
  induction ps as [|p ps IH]; intros st.
  - simpl. rewrite app_nil_r. now destruct st.
  - cbn [http_loop first_success tried].
    unfold bind at 1, try_except, bind at 1, call. fold (url_of p tgt).
    destruct (requests_get w (url_of p tgt)) as [hs|e].
    + reflexivity.
    + rewrite caught_exception. unfold ret. rewrite IH. cbn [map].
      unfold add_trace; cbn [target results trace files].
      now rewrite <- app_assoc.
Qed.

Lemma get_http_headers_spec (st : state) :
  get_http_headers w st = http_loop w (target st) protocols st.
Proof. reflexivity. Qed.

(** *** What the observations see of a probe *)

Lemma connects_app : forall a b,
  connects (a ++ b) = connects a ++ connects b.
Proof. by_events. Qed.

Lemma opens_app : forall a b, opens (a ++ b) = opens a ++ opens b.
Proof. by_events. Qed.

Lemma closes_app : forall a b, closes (a ++ b) = closes a ++ closes b.
Proof. by_events. Qed.

Lemma returned_app : forall a b,
  returned (a ++ b) = returned a ++ returned b.
Proof. by_events. Qed.

Lemma raised_app : forall a b, raised (a ++ b) = raised a ++ raised b.
Proof. by_events. Qed.

Lemma timeouts_app : forall a b,
  timeouts (a ++ b) = timeouts a ++ timeouts b.
Proof. by_events. Qed.

Lemma conn_in_flight_app (a b : list event) :
  conn_in_flight (a ++ b) = (conn_in_flight a + conn_in_flight b)%Z.
Proof.
  induction a as [|e a IH]; simpl; [reflexivity|].
  destruct e; simpl; rewrite IH; lia.
Qed.

Lemma connects_servbyport (l : list Z) : connects (map ServByPort l) = [].
Proof. induction l; simpl; auto. Qed.

Lemma conn_in_flight_servbyport (l : list Z) k :
  conn_in_flight (firstn k (map ServByPort l)) = 0%Z.
Proof.
  revert k; induction l as [|p l IH]; intros [|k]; simpl; auto.
Qed.

(** An observation made call by call sees the same of the same calls in
    another order, up to the order. *)
Lemma perm_obs {X : Type} (obs : list event -> list X) :
  (forall a b, obs (a ++ b) = obs a ++ obs b) ->
  forall l l', Permutation l l' -> Permutation (obs l) (obs l').
Proof.
  intros H l l' P.
  induction P as [|x l l' P IH|x y l|l l' l'' P1 IH1 P2 IH2].
  - apply Permutation_refl.
  - change (x :: l) with ([x] ++ l). change (x :: l') with ([x] ++ l').
    rewrite !H. now apply Permutation_app_head.
  - change (y :: x :: l) with ([y] ++ [x] ++ l).
    change (x :: y :: l) with ([x] ++ [y] ++ l).
    rewrite !H, !app_assoc. apply Permutation_app_tail, Permutation_app_comm.
  - eapply perm_trans; eauto.
Qed.

Lemma obs_flat_map {X Y : Type} (obs : list event -> list X)
      (f : Y -> list event) :
  obs [] = [] ->
  (forall a b, obs (a ++ b) = obs a ++ obs b) ->
  forall l, obs (flat_map f l) = flat_map (fun y => obs (f y)) l.
Proof.
  intros H0 H l. induction l as [|y l IH]; simpl; [exact H0|].
  now rewrite H, IH.
Qed.

Lemma flat_map_singleton {X Y : Type} (f : X -> Y) (l : list X) :
  flat_map (fun x => [f x]) l = map f l.
Proof. induction l as [|x l IH]; simpl; [reflexivity|]. now rewrite IH. Qed.

Lemma flat_map_filter {X : Type} (f : X -> bool) (l : list X) :
  flat_map (fun x => if f x then [x] else []) l = filter f l.
Proof.
  induction l as [|x l IH]; simpl; [reflexivity|].
  destruct (f x); simpl; now rewrite IH.
Qed.

Lemma perm_filter_length {X : Type} (f : X -> bool) (l l' : list X) :
  Permutation l l' -> length (filter f l) = length (filter f l').
Proof.
  induction 1 as [|x l l' P IH|x y l|l l' l'' P1 IH1 P2 IH2]; simpl; auto.
  - destruct (f x); simpl; auto.
  - destruct (f x), (f y); reflexivity.
  - congruence.
Qed.

Lemma conn_in_flight_total (tr : list event) :
  conn_in_flight tr = Pool.total conn_weight tr.
Proof.
  unfold Pool.total.
  induction tr as [|e tr IH]; [reflexivity|].
  destruct e; cbn [conn_in_flight conn_weight fold_right]; rewrite IH; lia.
Qed.

(** A call of [check_port] has one attempt in flight from its call of
    [connect_ex] until that is over, and none when it ends. *)
Lemma check_port_bracket (ip : string) (p : Z) (j : nat) :
  (0 <= Pool.total conn_weight (firstn j (fst (check_port_item w ip p))) <= 1)%Z
  /\ Pool.total conn_weight (fst (check_port_item w ip p)) = 0%Z.
Proof.
  rewrite check_port_item_eq. unfold Pool.total.
  destruct (connect_ex w ip p); cbn [fst];
    destruct j as [|[|[|[|j]]]];
    cbn [firstn fold_right conn_weight]; rewrite ?firstn_nil;
    cbn [fold_right]; lia.
Qed.

Lemma in_flight_probe (ip : string) (ports : list Z) k :
  (0 <= conn_in_flight (firstn k (probe_events w ip ports)) <= 10)%Z.
Proof.
  rewrite conn_in_flight_total. unfold probe_events.
  apply (PoolFacts.map_list_in_flight (check_port_item w ip) ports
           (schedule w) max_workers_pos conn_weight k).
  intros a j. apply check_port_bracket.
Qed.

(** The socket calls of a probe are those of [check_port] on the first
    [m] ports of the list, in some order: on all of them when every
    [connect_ex] returns, and on one at least. *)
Lemma probe_events_spec (ip : string) (ports : list Z) :
  exists m,
    (m <= length ports)%nat /\
    Permutation (probe_events w ip ports)
                (flat_map (fun p => fst (check_port_item w ip p))
                          (firstn m ports)) /\
    (connect_ok w ip ports = true -> m = length ports) /\
    (ports <> [] -> (0 < m)%nat).
Proof.
  unfold probe_events.
  destruct (PoolFacts.map_list_events (check_port_item w ip) ports
              (schedule w) max_workers_pos) as (m & Hm & P & R).
  exists m. split; [exact Hm|]. split; [exact P|].
  rewrite (PoolFacts.map_list_result (check_port_item w ip) ports
             (schedule w) max_workers_pos) in R.
  split.
  - intros C. now rewrite (port_results_in_order ip ports C) in R.
  - intros NE.
    destruct (Pool.in_order
                (map (fun a => snd (check_port_item w ip a)) ports)).
    + subst m. destruct ports; [congruence|simpl; lia].
    + destruct R as (k & a & Hk & _). lia.
Qed.

Lemma item_connects (ip : string) (p : Z) :
  connects (fst (check_port_item w ip p)) = [(ip, p)].
Proof.
  rewrite check_port_item_eq. now destruct (connect_ex w ip p).
Qed.

Lemma item_opens (ip : string) (p : Z) :
  opens (fst (check_port_item w ip p)) = [p].
Proof.
  rewrite check_port_item_eq. now destruct (connect_ex w ip p).
Qed.

Lemma item_timeouts (ip : string) (p : Z) :
  timeouts (fst (check_port_item w ip p)) = [Some 1%Z].
Proof.
  rewrite check_port_item_eq. now destruct (connect_ex w ip p).
Qed.

Lemma item_closes (ip : string) (p : Z) :
  closes (fst (check_port_item w ip p))
  = returned (fst (check_port_item w ip p)).
Proof.
  rewrite check_port_item_eq. now destruct (connect_ex w ip p).
Qed.

Lemma item_returned (ip : string) (p : Z) :
  returned (fst (check_port_item w ip p))
  = if connect_ok w ip [p] then [p] else [].
Proof.
  rewrite check_port_item_eq. unfold connect_ok. cbn [forallb].
  now destruct (connect_ex w ip p).
Qed.

Lemma item_raised (ip : string) (p : Z) :
  raised (fst (check_port_item w ip p))
  = if connect_ok w ip [p] then [] else [p].
Proof.
  rewrite check_port_item_eq. unfold connect_ok. cbn [forallb].
  now destruct (connect_ex w ip p).
Qed.

Lemma item_socket_calls (ip : string) (p : Z) :
  forallb socket_call (fst (check_port_item w ip p)) = true.
Proof.
  rewrite check_port_item_eq. now destruct (connect_ex w ip p).
Qed.

(** A probe makes socket calls only. *)
Lemma probe_socket_calls (ip : string) (ports : list Z) :
  forallb socket_call (probe_events w ip ports) = true.
Proof.
  destruct (probe_events_spec ip ports) as (m & _ & P & _).
  apply forallb_forall. intros e He.
  eapply Permutation_in in He; [|exact P].
  apply in_flat_map in He as (p & _ & He).
  pose proof (item_socket_calls ip p) as H.
  rewrite forallb_forall in H. now apply H.
Qed.

(** One attempt per port, on the ports of the list that were begun. *)
Lemma connects_probe (ip : string) (ports : list Z) :
  exists m,
    (m <= length ports)%nat /\
    Permutation (connects (probe_events w ip ports))
                (map (pair ip) (firstn m ports)) /\
    (connect_ok w ip ports = true -> m = length ports) /\
    (ports <> [] -> (0 < m)%nat).
Proof.
  destruct (probe_events_spec ip ports) as (m & Hm & P & Hall & Hpos).
  exists m. repeat split; auto.
  apply (perm_obs connects connects_app) in P.
  rewrite (obs_flat_map connects _ eq_refl connects_app) in P.
  erewrite flat_map_ext in P by (intros; apply item_connects).
  now rewrite flat_map_singleton in P.
Qed.

(** When every [connect_ex] returns, each port of the list has its one
    attempt. *)
Lemma attempts_probe (ip : string) (ports : list Z) (p : Z) :
  connect_ok w ip ports = true ->
  attempts p (probe_events w ip ports)
  = length (filter (fun q => Z.eqb q p) ports).
Proof.
  intros C. unfold attempts.
  destruct (connects_probe ip ports) as (m & _ & P & Hall & _).
  rewrite (perm_filter_length _ _ _ P), (Hall C), firstn_all.
  clear. induction ports as [|q ports IH]; simpl; [reflexivity|].
  destruct (Z.eqb q p); simpl; now rewrite IH.
Qed.

(** The sockets a probe closes are those whose [connect_ex] returned. *)
Lemma closes_probe (ip : string) (ports : list Z) :
  Permutation (closes (probe_events w ip ports))
              (returned (probe_events w ip ports)).
Proof.
  destruct (probe_events_spec ip ports) as (m & _ & P & _).
  eapply perm_trans; [apply (perm_obs closes closes_app), P|].
  eapply perm_trans;
    [|apply Permutation_sym, (perm_obs returned returned_app), P].
  rewrite (obs_flat_map closes _ eq_refl closes_app),
    (obs_flat_map returned _ eq_refl returned_app).
  erewrite flat_map_ext by (intros; apply item_closes).
  apply Permutation_refl.
Qed.

(** The sockets a probe makes are those it connects, and they are the
    sockets whose [connect_ex] returned and those whose [connect_ex]
    raised. *)
Lemma opens_probe (ip : string) (ports : list Z) :
  Permutation (opens (probe_events w ip ports))
              (map snd (connects (probe_events w ip ports))) /\
  Permutation (opens (probe_events w ip ports))
              (returned (probe_events w ip ports)
               ++ raised (probe_events w ip ports)).
Proof.
  destruct (probe_events_spec ip ports) as (m & _ & P & _).
  pose proof (perm_obs opens opens_app _ _ P) as Po.
  pose proof (perm_obs connects connects_app _ _ P) as Pc.
  pose proof (perm_obs returned returned_app _ _ P) as Pr.
  pose proof (perm_obs raised raised_app _ _ P) as Px.
  rewrite (obs_flat_map opens _ eq_refl opens_app) in Po.
  rewrite (obs_flat_map connects _ eq_refl connects_app) in Pc.
  rewrite (obs_flat_map returned _ eq_refl returned_app) in Pr.
  rewrite (obs_flat_map raised _ eq_refl raised_app) in Px.
  erewrite flat_map_ext in Po by (intros; apply item_opens).
  erewrite flat_map_ext in Pc by (intros; apply item_connects).
  erewrite flat_map_ext in Pr by (intros; apply item_returned).
  erewrite flat_map_ext in Px by (intros; apply item_raised).
  rewrite flat_map_singleton, map_id in Po.
  rewrite flat_map_singleton in Pc.
  split.
  - eapply perm_trans; [exact Po|].
    apply (Permutation_map snd) in Pc. rewrite map_map in Pc. cbn [snd] in Pc.
    rewrite map_id in Pc. now apply Permutation_sym.
  - eapply perm_trans; [exact Po|].
    eapply perm_trans;
      [|apply Permutation_sym, Permutation_app; [exact Pr|exact Px]].
    generalize (firstn m ports). intros l.
    induction l as [|q l IH]; cbn [flat_map app]; [apply Permutation_refl|].
    destruct (connect_ok w ip [q]); cbn [app].
    + now apply perm_skip.
    + now apply Permutation_cons_app.
Qed.

(** When the block is left no attempt is in flight. *)
Lemma in_flight_probe_end (ip : string) (ports : list Z) :
  conn_in_flight (probe_events w ip ports) = 0%Z.
Proof.
  assert (G : forall tr, conn_in_flight tr
              = (Z.of_nat (length (connects tr))
                 - Z.of_nat (length (returned tr))
                 - Z.of_nat (length (raised tr)))%Z).
  { induction tr as [|e tr IH]; simpl; [reflexivity|].
    destruct e; simpl length; rewrite IH; lia. }
  rewrite G.
  destruct (opens_probe ip ports) as [P1 P2].
  apply Permutation_length in P1, P2.
  rewrite length_map in P1. rewrite length_app in P2. lia.
Qed.

Lemma results_for_port (ip : string) (ports : list Z) (p : Z) :
  filter (fun r => Z.eqb (fst r) p) (port_results w ip ports)
  = port_results w ip (filter (fun q => Z.eqb q p) ports).
Proof.
  unfold port_results.
  induction ports as [|q ports IH]; simpl; [reflexivity|].
  destruct (Z.eqb q p); simpl; now rewrite IH.
Qed.

(** Labels of fresh ports go in at the end, in order. *)
Lemma labelled_new (l : list Z) : forall acc,
  NoDup l ->
  (forall p, In p l -> ~ In (KInt p) (keys acc)) ->
  labelled w l acc
  = acc ++ map (fun p => (KInt p, VStr (service_label w p))) l.
Proof.
  induction l as [|p l IH]; intros acc ND Hacc; simpl.
  - now rewrite app_nil_r.
  - inversion ND as [|? ? Hp ND']; subst.
    change (labelled w (p :: l) acc)
      with (labelled w l (dict_set (KInt p) (VStr (service_label w p)) acc)).
    rewrite dict_set_new by (apply Hacc; now left).
    rewrite IH; [now rewrite <- app_assoc | exact ND' |].
    intros q Hq. unfold keys. rewrite map_app. simpl.
    intros Hin. apply in_app_or in Hin as [Hin|[Hin|[]]].
    + revert Hin. apply Hacc. now right.
    + injection Hin as ->. contradiction.
Qed.

Lemma port_numbers_labels (l : list Z) :
  port_numbers (map (fun p => (KInt p, VStr (service_label w p))) l) = l.
Proof. induction l as [|p l IH]; simpl; [reflexivity|now rewrite IH]. Qed.

End Facts.

Lemma bind_returns {A B : Type} (m : M A) (f : A -> M B) (st st' : state) (a : A) :
  m st = (Returns a, st') -> bind m f st = f a st'.
Proof. intros H. unfold bind. now rewrite H. Qed.

Lemma bind_raises {A B : Type} (m : M A) (f : A -> M B) (st st' : state) (e : exn) :
  m st = (Raises e, st') -> bind m f st = (Raises e, st').
Proof. intros H. unfold bind. now rewrite H. Qed.

Lemma services_ok_incl (w : world) (l l' : list Z) :
  incl l l' -> services_ok w l' = true -> services_ok w l = true.
Proof.
  unfold services_ok. intros I H. rewrite forallb_forall in *.
  intros p Hp. apply H, I, Hp.
Qed.

Lemma sorted_filter (f : Z -> bool) (l : list Z) :
  StronglySorted Z.lt l -> StronglySorted Z.lt (filter f l).
Proof.
  induction 1 as [|x l S IH F]; simpl; [constructor|].
  destruct (f x); [|exact IH]. constructor; [exact IH|].
  rewrite Forall_forall in *. intros y Hy. apply filter_In in Hy as [Hy _].
  now apply F.
Qed.

Lemma sorted_NoDup (l : list Z) : StronglySorted Z.lt l -> NoDup l.
Proof.
  induction 1 as [|x l S IH F]; constructor; [|exact IH].
  intros Hx. rewrite Forall_forall in F. specialize (F x Hx). lia.
Qed.

(** The fixed port list is written in ascending order. *)
Lemma common_ports_sorted : StronglySorted Z.lt common_ports.
Proof.
  unfold common_ports.
  repeat (constructor; [|repeat (constructor; [lia|]); constructor]).
  constructor.
Qed.

Lemma filter_absent (l : list Z) (p : Z) :
  ~ In p l -> filter (fun q => Z.eqb q p) l = [].
Proof.
  induction l as [|x l IH]; simpl; intros H; [reflexivity|].
  destruct (Z.eqb_spec x p) as [->|NE]; [exfalso; auto|]. apply IH. tauto.
Qed.

Lemma filter_once (l : list Z) (p : Z) :
  NoDup l -> In p l -> filter (fun q => Z.eqb q p) l = [p].
Proof.
  induction 1 as [|x l Hx ND IH]; simpl; intros H; [contradiction|].
  destruct (Z.eqb_spec x p) as [->|NE].
  - now rewrite filter_absent.
  - destruct H as [H|H]; [contradiction|]. now apply IH.
Qed.

Lemma common_ports_once (p : Z) :
  In p common_ports -> filter (fun q => Z.eqb q p) common_ports = [p].
Proof. apply filter_once, sorted_NoDup, common_ports_sorted. Qed.

Lemma open_ports_of_eq (w : world) (ip : string) :
  open_ports_of w ip = filter (is_open w ip) common_ports.
Proof. reflexivity. Qed.

Lemma services_ok_opened (w : world) (ip : string) :
  services_ok w common_ports = true ->
  services_ok w (open_ports_of w ip) = true.
Proof.
  rewrite open_ports_of_eq. apply services_ok_incl.
  intros p Hp. apply filter_In in Hp as [Hp _]. exact Hp.
Qed.

Lemma save_results_spec (w : world) (st : state) :
  save_results w st
  = match open_w w (target st ++ "_recon.json") with
    | Returns _ =>
        (Returns tt,
         mkState (target st) (results st)
                 (trace st ++ [FileWrite (target st ++ "_recon.json")])
                 (file_write w (target st ++ "_recon.json")
                             (Json.dumps (output st)) (files st)))
    | Raises e =>
        (Raises e,
         mkState (target st) (results st)
                 (trace st ++ [FileWrite (target st ++ "_recon.json")])
                 (files st))
    end.
Proof.
  unfold save_results, bind, get_target, call, json_dump, add_trace.
  destruct (open_w w (target st ++ "_recon.json")); reflexivity.
Qed.

(** The tail of [run_recon] when the port scan gets through: the
    collectors have filled the report, and the run ends as the opening
    of the file does. *)
Lemma after_get_ip_spec (w : world) (ip : option string) (st : state) :
  match ip with
  | Some a => not_ip (Some a) || scan_ok w a
  | None => true
  end = true ->
  after_get_ip w ip st
  = (let tgt := target st in
     let r3 := dict_set (KStr "port_scan")
                 (match ip with
                  | Some a =>
                      if not_ip (Some a)
                      then VStr "Skipped due to DNS resolution failure"
                      else VDict (labelled w (open_ports_of w a) [])
                  | None => VStr "Skipped due to DNS resolution failure"
                  end)
                 (dict_set (KStr "dns_records") (dns_value w tgt)
                    (dict_set (KStr "whois") (whois_value w tgt) (results st))) in
     let r4 := match first_success w tgt protocols with
               | Some (p, hs) =>
                   dict_set (KStr (p ++ "_headers")) (VDict (headers_dict hs)) r3
               | None => r3
               end in
     let tr := trace st
               ++ [WhoisQuery tgt]
               ++ (if is_ip_address tgt then []
                   else map (DnsQuery tgt) record_types)
               ++ (match ip with
                   | Some a =>
                       if not_ip (Some a) then []
                       else probe_events w a common_ports
                            ++ map ServByPort (open_ports_of w a)
                   | None => []
                   end)
               ++ map (fun p => HttpGet (url_of p tgt) 5) (tried w tgt protocols)
               ++ [FileWrite (tgt ++ "_recon.json")] in
     match open_w w (tgt ++ "_recon.json") with
     | Returns _ =>
         (Returns tt,
          mkState tgt r4 tr
            (file_write w (tgt ++ "_recon.json")
               (Json.dumps (VDict [(KStr "target", VStr tgt);
                                   (KStr "results", VDict r4)]))
               (files st)))
     | Raises e => (Raises e, mkState tgt r4 tr (files st))
     end).
Proof.
  intros Hok. unfold after_get_ip.
  erewrite bind_returns by apply get_whois_spec.
  erewrite bind_returns by apply get_dns_records_spec.
  cbn [target results trace files].
  destruct (not_ip ip) eqn:N.
  - erewrite bind_returns
      by (unfold scan_common_ports; rewrite scan_ports_skip by exact N;
          reflexivity).
    erewrite bind_returns by (rewrite get_http_headers_spec; apply http_loop_spec).
    rewrite save_results_spec. unfold output. cbn [target results trace files].
    destruct ip as [a|]; [rewrite N|]; rewrite <- ?app_assoc; reflexivity.
  - destruct ip as [a|]; [|discriminate]. rewrite N in *.
    rewrite orb_false_l in Hok. unfold scan_ok in Hok.
    apply andb_prop in Hok as [C S]. rewrite open_ports_of_eq in S.
    erewrite bind_returns
      by (unfold scan_common_ports; apply scan_ports_spec;
          [exact N | exact C | exact S]).
    erewrite bind_returns by (rewrite get_http_headers_spec; apply http_loop_spec).
    rewrite save_results_spec, !open_ports_of_eq. unfold output.
    cbn [target results trace files].
    rewrite <- ?app_assoc; reflexivity.
Qed.

Lemma first_success_protocols (w : world) (tgt p : string) hs :
  first_success w tgt protocols = Some (p, hs) -> p = "https" \/ p = "http".
Proof.
  unfold protocols. cbn [first_success].
  destruct (requests_get w (url_of "https" tgt)); [intros [= <- _]; now left|].
  destruct (requests_get w (url_of "http" tgt)); [intros [= <- _]; now right|].
  discriminate.
Qed.

(** [run_recon] on a tool whose results are empty, when no collector
    raises: the report and the external calls are these, and the run
    ends as the opening of the file does. *)
Lemma run_recon_collected (w : world) (st : state) :
  results st = [] ->
  collectors_ok w (target st) = true ->
  run_recon w st
  = match open_w w (target st ++ "_recon.json") with
    | Returns _ =>
        (Returns tt,
         mkState (target st) (report_results w (target st))
                 (trace st ++ run_trace w (target st))
                 (file_write w (target st ++ "_recon.json")
                             (Json.dumps (report w (target st))) (files st)))
    | Raises e =>
        (Raises e,
         mkState (target st) (report_results w (target st))
                 (trace st ++ run_trace w (target st)) (files st))
    end.
Proof.
  destruct st as [tgt rs tr fs]. cbn [results target trace files].
  intros -> H. unfold collectors_ok in H. apply andb_prop in H as [H1 H2].
  change (run_recon w (mkState tgt [] tr fs))
    with (bind (get_ip w) (after_get_ip w) (mkState tgt [] tr fs)).
  unfold report, report_results, run_trace, scan_events, port_value,
    resolver_ok, resolved, ip_text in *.
  destruct (is_ip_address tgt) eqn:IP.
  - erewrite bind_returns by (apply get_ip_address; exact IP).
    rewrite after_get_ip_spec by exact H2.
    cbn [target results trace files]. rewrite IP.
    destruct (first_success w tgt protocols) as [[p hs]|] eqn:F.
    + apply first_success_protocols in F as [-> | ->]; reflexivity.
    + reflexivity.
  - destruct (gethostbyname w tgt) as [ip|e] eqn:G.
    + erewrite bind_returns by (apply get_ip_resolved; [exact IP | exact G]).
      rewrite after_get_ip_spec by exact H2.
      cbn [target results trace files]. rewrite IP, <- app_assoc.
      destruct (first_success w tgt protocols) as [[p hs]|] eqn:F.
      * apply first_success_protocols in F as [-> | ->]; reflexivity.
      * reflexivity.
    + change (caught ExceptGaierror e = true) in H1.
      erewrite bind_returns
        by (rewrite get_ip_raised with (e := e) by (try exact IP; exact G);
            rewrite H1; reflexivity).
      rewrite after_get_ip_spec by reflexivity.
      cbn [target results trace files]. rewrite IP, <- app_assoc.
      destruct (first_success w tgt protocols) as [[p hs]|] eqn:F.
      * apply first_success_protocols in F as [-> | ->]; reflexivity.
      * reflexivity.
Qed.

(** With no call raising past its handler, the run completes, and its
    report, its external calls and the file it writes are these. *)
Lemma main_spec (w : world) (tgt : string) :
  run_ok w tgt = true ->
  main w tgt
  = (Returns tt,
     mkState tgt (report_results w tgt) (run_trace w tgt)
             [((tgt ++ "_recon.json")%string, Json.dumps (report w tgt))]).
Proof.
  unfold run_ok, writable. intros H. apply andb_prop in H as [H1 H2].
  change (main w tgt) with (run_recon w (set_target tgt)).
  rewrite run_recon_collected by (try reflexivity; exact H1).
  cbn [set_target target results trace files].
  destruct (open_w w (tgt ++ "_recon.json")); [reflexivity|discriminate].
Qed.

End OsintFacts.

(* ================================================================== *)
(** ** Facts about response headers *)

Module HeaderFacts.
Import Py Osint DictFacts.

Lemma add_header_keys (name value : string) (c : list headers_entry) :
  map fst (add_header name value c)
  = if existsb (String.eqb (lower name)) (map fst c)
    then map fst c
    else map fst c ++ [lower name].
Proof.
  induction c as [|[k [cased vals]] c IH]; [reflexivity|].
  cbn [add_header map fst existsb].
  rewrite (String.eqb_sym (lower name) k).
  destruct (String.eqb k (lower name)); [reflexivity|].
  cbn [map fst orb]. rewrite IH.
  now destruct (existsb (String.eqb (lower name)) (map fst c)).
Qed.

Lemma add_header_fresh (name value : string) (c : list headers_entry) :
  existsb (String.eqb (lower name)) (map fst c) = false ->
  add_header name value c = c ++ [(lower name, (name, [value]))].
Proof.
  induction c as [|[k [cased vals]] c IH]; intros F; [reflexivity|].
  cbn [map fst existsb] in F. apply orb_false_elim in F as [F1 F2].
  cbn [add_header]. rewrite String.eqb_sym, F1, <- app_comm_cons.
  now rewrite (IH F2).
Qed.

Lemma existsb_eqb_In (x : string) (l : list string) :
  existsb (String.eqb x) l = true <-> In x l.
Proof.
  rewrite existsb_exists. split.
  - intros (y & Hy & E). apply String.eqb_eq in E. now subst.
  - intros H. exists x. split; [exact H|apply String.eqb_refl].
Qed.

(** Where an entry of the container comes from, after a line went
    in. *)
Lemma add_header_In (name value : string) (c : list headers_entry)
      k cased vals :
  NoDup (map fst c) ->
  In (k, (cased, vals)) (add_header name value c) ->
  (k <> lower name /\ In (k, (cased, vals)) c)
  \/ (k = lower name /\
      exists old, In (k, (cased, old)) c /\ vals = old ++ [value])
  \/ (k = lower name /\ ~ In k (map fst c) /\ cased = name /\ vals = [value]).
Proof.
  induction c as [|[k0 [c0 v0]] c IH]; intros ND H.
  - destruct H as [[= <- <- <-]|[]]. right. right. auto.
  - cbn [add_header] in H. inversion ND as [|? ? Hk0 ND']; subst.
    destruct (String.eqb_spec k0 (lower name)) as [E|NE].
    + destruct H as [[= <- <- <-]|H].
      * right. left. split; [exact E|]. exists v0. split; [now left|reflexivity].
      * left. split; [|now right].
        intros ->. apply Hk0. rewrite E.
        apply (in_map fst) in H. exact H.
    + destruct H as [[= <- <- <-]|H].
      * left. split; [exact NE|now left].
      * destruct (IH ND' H) as [[H1 H2]|[[H1 (old & H2 & H3)]|(H1 & H2 & H3 & H4)]].
        -- left. split; [exact H1|now right].
        -- right. left. split; [exact H1|]. exists old. split; [now right|exact H3].
        -- right. right. repeat split; auto.
           cbn [map fst]. intros [H5|H5]; [congruence|contradiction].
Qed.

Lemma find_app_some {X : Type} (f : X -> bool) (l l' : list X) (x : X) :
  find f l = Some x -> find f (l ++ l') = Some x.
Proof.
  induction l as [|y l IH]; simpl; [discriminate|].
  destruct (f y); auto.
Qed.

Lemma find_app_none {X : Type} (f : X -> bool) (l l' : list X) :
  find f l = None -> find f (l ++ l') = find f l'.
Proof.
  induction l as [|y l IH]; simpl; [reflexivity|].
  destruct (f y); [discriminate|auto].
Qed.

Lemma first_spelling_app (name : string) (l l' : list (string * string)) :
  first_spelling name l = true -> first_spelling name (l ++ l') = true.
Proof.
  unfold first_spelling.
  destruct (find (same_header name) l) as [h|] eqn:F; [|discriminate].
  now rewrite (find_app_some _ _ l' _ F).
Qed.

Lemma header_values_app (name : string) (l l' : list (string * string)) :
  header_values name (l ++ l') = header_values name l ++ header_values name l'.
Proof. unfold header_values. now rewrite filter_app, map_app. Qed.

Lemma same_header_lower (a b : string) (h : string * string) :
  lower a = lower b -> same_header a h = same_header b h.
Proof. unfold same_header. now intros ->. Qed.

Lemma same_header_find (a b : string) (l : list (string * string)) :
  lower a = lower b -> find (same_header a) l = find (same_header b) l.
Proof.
  intros E. induction l as [|h l IH]; simpl; [reflexivity|].
  now rewrite (same_header_lower a b h E), IH.
Qed.

Lemma same_header_values (a b : string) (l : list (string * string)) :
  lower a = lower b -> header_values a l = header_values b l.
Proof.
  intros E. unfold header_values. f_equal.
  apply filter_ext. intros h. now apply same_header_lower.
Qed.

Lemma header_entries_app (l : list (string * string)) (h : string * string) :
  header_entries (l ++ [h]) = add_header (fst h) (snd h) (header_entries l).
Proof. unfold header_entries. now rewrite fold_left_app. Qed.

Lemma entries_of_add (l : list (string * string)) (c : list headers_entry)
      (h : string * string) :
  entries_of l c -> entries_of (l ++ [h]) (add_header (fst h) (snd h) c).
Proof.
  intros [Hk He Hl]. split.
  - rewrite add_header_keys.
    destruct (existsb (String.eqb (lower (fst h))) (map fst c)) eqn:X;
      [exact Hk|].
    apply NoDup_app; [exact Hk|repeat constructor; intros []|].
    intros k Hin [<-|[]].
    apply existsb_eqb_In in Hin. congruence.
  - intros k cased vals Hin.
    destruct (add_header_In _ _ _ _ _ _ Hk Hin)
      as [[H1 H2]|[[H1 (old & H2 & H3)]|(H1 & H2 & H3 & H4)]].
    + destruct (He _ _ _ H2) as (E1 & E2 & E3).
      split; [exact E1|]. split; [now apply first_spelling_app|].
      rewrite header_values_app, <- E3.
      unfold header_values at 1. cbn [filter]. unfold same_header.
      destruct (String.eqb_spec (lower (fst h)) (lower cased)) as [E|_];
        [congruence|].
      cbn [map]. now rewrite app_nil_r.
    + destruct (He _ _ _ H2) as (E1 & E2 & E3).
      split; [exact E1|]. split; [now apply first_spelling_app|].
      rewrite header_values_app, <- E3, H3. f_equal.
      unfold header_values. cbn [filter]. unfold same_header.
      rewrite <- E1, H1, String.eqb_refl. reflexivity.
    + subst cased vals. split; [exact H1|].
      assert (N : forall h', In h' l -> same_header (fst h) h' = false).
      { intros h' Hh'. unfold same_header.
        destruct (String.eqb_spec (lower (fst h')) (lower (fst h))) as [E|_];
          [|reflexivity].
        exfalso. apply H2. rewrite H1, <- E. now apply Hl. }
      assert (F : find (same_header (fst h)) l = None).
      { clear - N. induction l as [|x l IH]; [reflexivity|]. simpl.
        rewrite (N x) by now left. apply IH. intros; apply N; now right. }
      assert (V : header_values (fst h) l = []).
      { unfold header_values. clear - N.
        induction l as [|x l IH]; [reflexivity|]. simpl.
        rewrite (N x) by now left. apply IH. intros; apply N; now right. }
      split.
      * unfold first_spelling. rewrite (find_app_none _ _ _ F).
        cbn [find]. unfold same_header at 1.
        now rewrite !String.eqb_refl.
      * rewrite header_values_app, V. unfold header_values. cbn [filter].
        unfold same_header. now rewrite String.eqb_refl.
  - intros h' Hin. rewrite add_header_keys.
    assert (G : In (lower (fst h')) (map fst c)
                \/ lower (fst h') = lower (fst h)).
    { apply in_app_or in Hin as [Hin|[<-|[]]]; [left; now apply Hl|now right]. }
    destruct (existsb (String.eqb (lower (fst h))) (map fst c)) eqn:X.
    + destruct G as [G|G]; [exact G|].
      rewrite G. now apply existsb_eqb_In.
    + apply in_or_app. destruct G as [G|G]; [now left|right; now left].
Qed.

Lemma header_entries_spec (l : list (string * string)) :
  entries_of l (header_entries l).
Proof.
  induction l as [|h l IH] using rev_ind.
  - split; simpl; [constructor|tauto|tauto].
  - rewrite header_entries_app. now apply entries_of_add.
Qed.

Lemma headers_dict_eq (l : list (string * string)) :
  headers_dict l
  = map (fun e => (KStr (fst (snd e)), VStr (join ", " (snd (snd e)))))
        (header_entries l).
Proof.
  unfold headers_dict, response_headers. rewrite map_map. cbn [fst snd].
  apply dict_of_pairs_id. unfold keys. rewrite map_map. cbn [fst].
  destruct (header_entries_spec l) as [Hk He _].
  induction (header_entries l) as [|[k [cased vals]] c IH];
    [constructor|].
  cbn [map fst snd]. inversion Hk as [|? ? Hk0 Hk']; subst.
  constructor.
  - intros Hin. apply in_map_iff in Hin as ([k' [cased' vals']] & [= E] & Hin).
    cbn [fst snd] in E. subst cased'. apply Hk0.
    destruct (He k cased vals (or_introl eq_refl)) as [-> _].
    destruct (He k' cased vals' (or_intror Hin)) as [E' _]. rewrite <- E'.
    apply (in_map fst) in Hin. exact Hin.
  - apply IH; [exact Hk'|]. intros; apply He. now right.
Qed.

Lemma dict_get_In (k : key) (v : value) (d : dict) :
  NoDup (keys d) -> In (k, v) d -> dict_get k d = Some v.
Proof.
  induction d as [|[k' v'] d IH]; intros ND H; [destruct H|].
  cbn [dict_get]. inversion ND as [|? ? Hk ND']; subst.
  destruct H as [[= -> ->]|H].
  - now rewrite key_eqb_refl.
  - destruct (key_eqb k' k) eqn:E; [|now apply IH].
    apply key_eqb_eq in E. subst k'. exfalso. apply Hk.
    apply (in_map fst) in H. exact H.
Qed.

(** [dict(response.headers)] holds the headers of the response. *)
Theorem headers_dict_spec (l : list (string * string)) :
  holds_headers l (headers_dict l).
Proof.
  pose proof (dict_of_pairs_NoDup
                (map (fun h => (KStr (fst h), VStr (snd h)))
                     (response_headers l))) as ND.
  fold (headers_dict l) in ND.
  destruct (header_entries_spec l) as [Hk He Hl].
  split; [exact ND|]. split; [|split].
  - intros name. destruct (first_spelling name l) eqn:F.
    + apply dict_get_In; [exact ND|].
      rewrite headers_dict_eq.
      unfold first_spelling in F.
      destruct (find (same_header name) l) as [h0|] eqn:Fd; [|discriminate].
      apply String.eqb_eq in F.
      pose proof (find_some _ _ Fd) as [Hin Hs].
      unfold same_header in Hs. apply String.eqb_eq in Hs.
      pose proof (Hl _ Hin) as Hkey. rewrite Hs in Hkey.
      apply in_map_iff in Hkey as ([k [cased vals]] & E & Hent).
      cbn [fst] in E. subst k.
      destruct (He _ _ _ Hent) as (E1 & E2 & E3).
      assert (C : cased = name).
      { unfold first_spelling in E2.
        rewrite (same_header_find cased name l (eq_sym E1)), Fd in E2.
        apply String.eqb_eq in E2. congruence. }
      subst cased.
      apply in_map_iff. eexists. split; [|exact Hent].
      cbn [fst snd]. now rewrite E3.
    + apply dict_get_None. rewrite headers_dict_eq.
      unfold keys. rewrite map_map. cbn [fst]. intros Hin.
      apply in_map_iff in Hin as ([k [cased vals]] & [= E] & Hent).
      cbn [fst snd] in E. subst cased.
      destruct (He _ _ _ Hent) as (_ & E2 & _). congruence.
  - intros n. apply dict_get_None. rewrite headers_dict_eq.
    unfold keys. rewrite map_map. cbn [fst]. intros Hin.
    apply in_map_iff in Hin as (e & E & _). discriminate.
  - intros NDl. rewrite headers_dict_eq.
    assert (E : header_entries l
                = map (fun h => (lower (fst h), (fst h, [snd h]))) l).
    { clear - NDl. induction l as [|h l IH] using rev_ind; [reflexivity|].
      rewrite map_app in NDl. cbn [map] in NDl.
      rewrite header_entries_app, IH by (eapply NoDup_app_remove_r; eauto).
      assert (Fresh : existsb (String.eqb (lower (fst h)))
                        (map fst (map (fun h0 => (lower (fst h0), (fst h0, [snd h0]))) l))
                      = false).
      { rewrite map_map. cbn [fst].
        destruct (existsb _ _) eqn:X; [|reflexivity].
        apply existsb_eqb_In in X. exfalso.
        apply NoDup_remove_2 in NDl. rewrite app_nil_r in NDl. contradiction. }
      rewrite (add_header_fresh _ _ _ Fresh), map_app. reflexivity. }
    rewrite E, map_map. reflexivity.
Qed.

End HeaderFacts.

(* ================================================================== *)
(** ** The port prober *)

Import Py Classifier Osint DictFacts OsintFacts.

(** C1.  For a resolved address, the port numbers that [scan_common_ports]
    writes under [port_scan] are in ascending order, and two runs whose
    connection attempts all return, with the same open/closed outcomes,
    write the same report, whatever the schedules of their thread pools:
    the order in which the attempts complete does not reach the
    report. *)
Theorem port_scan_sorted_and_reproducible
        (w1 w2 : world) (ip : string) (st : state) :
  not_ip (Some ip) = false ->
  connect_ok w1 ip common_ports = true ->
  connect_ok w2 ip common_ports = true ->
  (forall p, In p common_ports -> is_open w1 ip p = is_open w2 ip p) ->
  (forall p, In p common_ports -> getservbyport w1 p = getservbyport w2 p) ->
  services_ok w1 common_ports = true ->
  let r1 := scan_common_ports w1 (Some ip) st in
  let r2 := scan_common_ports w2 (Some ip) st in
  fst r1 = Returns tt /\ fst r2 = Returns tt /\
  results (snd r1) = results (snd r2) /\
  exists d,
    report_field "port_scan" (snd r1) = Some (VDict d) /\
    port_numbers d = filter (is_open w1 ip) common_ports /\
    StronglySorted Z.lt (port_numbers d).
Proof.
  intros N C1 C2 Hc Hs Hok r1 r2.
  assert (Hf : filter (is_open w1 ip) common_ports
               = filter (is_open w2 ip) common_ports)
    by (apply filter_ext_in; exact Hc).
  assert (Hok2 : services_ok w2 common_ports = true).
  { unfold services_ok in *. rewrite forallb_forall in *. intros p Hp.
    rewrite <- Hs by exact Hp. now apply Hok. }
  assert (I1 : incl (filter (is_open w1 ip) common_ports) common_ports)
    by (intros p Hp; apply filter_In in Hp as [Hp _]; exact Hp).
  assert (ND : NoDup (filter (is_open w1 ip) common_ports))
    by (apply sorted_NoDup, sorted_filter, common_ports_sorted).
  unfold r1, r2, scan_common_ports.
  rewrite !scan_ports_spec; try assumption;
    try (eapply services_ok_incl; eauto; rewrite <- ?Hf; exact I1).
  rewrite <- Hf. cbn [fst snd results].
  rewrite !labelled_new; try exact ND; try (intros p _ []).
  rewrite !app_nil_l.
  assert (Hl : map (fun p => (KInt p, VStr (service_label w2 p)))
                   (filter (is_open w1 ip) common_ports)
               = map (fun p => (KInt p, VStr (service_label w1 p)))
                   (filter (is_open w1 ip) common_ports)).
  { apply map_ext_in. intros p Hp. unfold service_label.
    rewrite (Hs p) by (apply I1, Hp). reflexivity. }
  rewrite Hl. repeat split.
  eexists. split; [apply dict_get_set_same|].
  rewrite port_numbers_labels. split; [reflexivity|].
  apply sorted_filter, common_ports_sorted.
Qed.

(** C2.  While [scan_common_ports] probes a port list of any length, at
    most 10 connection attempts are in flight at any instant: after every
    prefix of the run's trace, the attempts begun and not yet over
    number between 0 and 10. *)
Theorem at_most_ten_in_flight
        (w : world) (ports : list Z) (ip : option string)
        (tgt : string) (res : dict) (fs : list (string * Json.json)) (k : nat) :
  (0 <= conn_in_flight
          (firstn k (trace (snd (scan_ports w ports ip (mkState tgt res [] fs)))))
     <= 10)%Z.
Proof.
  destruct (scan_ports_trace w ports ip (mkState tgt res [] fs)) as [l Hl].
  rewrite Hl. cbn [trace]. rewrite app_nil_l, firstn_app, conn_in_flight_app.
  rewrite conn_in_flight_servbyport, Z.add_0_r.
  destruct (not_ip ip); [rewrite firstn_nil; cbn; lia|].
  destruct ip as [a|]; [|rewrite firstn_nil; cbn; lia].
  apply in_flight_probe.
Qed.


Lemma port_scan_sorted_and_reproducible_witness :
  let st := set_target "example.com" in
  let r1 := scan_common_ports Samples.web (Some "93.184.216.34") st in
  let r2 := scan_common_ports Samples.web_rescheduled (Some "93.184.216.34") st in
  not_ip (Some "93.184.216.34") = false /\
  connect_ok Samples.web "93.184.216.34" common_ports = true /\
  connect_ok Samples.web_rescheduled "93.184.216.34" common_ports = true /\
  services_ok Samples.web common_ports = true /\
  fst r1 = Returns tt /\ fst r2 = Returns tt /\
  results (snd r1) = results (snd r2) /\
  exists d,
    report_field "port_scan" (snd r1) = Some (VDict d) /\
    port_numbers d = filter (is_open Samples.web "93.184.216.34") common_ports /\
    StronglySorted Z.lt (port_numbers d).
Proof.
  intros st r1 r2. split; [reflexivity|]. split; [reflexivity|].
  split; [reflexivity|]. split; [reflexivity|].
  apply (port_scan_sorted_and_reproducible
           Samples.web Samples.web_rescheduled "93.184.216.34" st);
    try reflexivity; intros; reflexivity.
Defined.

(** The two sample runs do make their socket calls in different
    orders. *)
Example web_schedules_differ :
  returned (trace (snd (scan_common_ports Samples.web (Some "93.184.216.34")
                          (set_target "example.com"))))
  <> returned (trace (snd (scan_common_ports Samples.web_rescheduled
                             (Some "93.184.216.34") (set_target "example.com")))).
Proof. vm_compute. discriminate. Qed.

Lemma connects_http (tgt : string) (l : list string) :
  connects (map (fun p => HttpGet (url_of p tgt) 5) l) = [].
Proof. induction l; simpl; auto. Qed.

Lemma connects_dns (tgt : string) (l : list string) :
  connects (map (DnsQuery tgt) l) = [].
Proof. induction l; simpl; auto. Qed.

(** The bound is reached: under the schedule that takes ten items up to
    their call of [connect_ex] before any call returns, ten attempts are
    in flight after twenty socket calls, and the next decision can only
    let one of them return. *)
Example ten_in_flight_is_reached :
  let tr := trace (snd (scan_common_ports Samples.web_rescheduled
                          (Some "93.184.216.34") (set_target "example.com"))) in
  conn_in_flight (firstn 20 tr) = 10%Z /\
  conn_in_flight (firstn 21 tr) = 9%Z /\
  conn_in_flight tr = 0%Z.
Proof. vm_compute. repeat split. Qed.

(** C3.  When resolution ends Unresolved ([get_ip] returns [None]), the
    report's [port_scan] field is the string
    "Skipped due to DNS resolution failure" and the run makes no
    connection attempt at all; the run completes, unless its output file
    cannot be opened. *)
Theorem unresolved_skips_port_scan (w : world) (tgt : string) :
  fst (get_ip w (set_target tgt)) = Returns None ->
  fst (main w tgt)
  = match open_w w (tgt ++ "_recon.json") with
    | Returns _ => Returns tt
    | Raises e => Raises e
    end /\
  report_field "port_scan" (snd (main w tgt))
  = Some (VStr "Skipped due to DNS resolution failure") /\
  connects (trace (snd (main w tgt))) = [].
Proof.
  intros H.
  assert (IP : is_ip_address tgt = false).
  { destruct (is_ip_address tgt) eqn:IP; [|reflexivity].
    rewrite get_ip_address in H by exact IP. discriminate. }
  assert (G : exists e, gethostbyname w tgt = Raises e
                        /\ caught ExceptGaierror e = true).
  { destruct (gethostbyname w tgt) as [ip|e] eqn:G.
    - rewrite get_ip_resolved with (ip := ip) in H by assumption. discriminate.
    - exists e. split; [reflexivity|].
      rewrite get_ip_raised with (e := e) in H by assumption.
      destruct (caught ExceptGaierror e); [reflexivity|discriminate]. }
  destruct G as [e [G C]].
  assert (R : resolved w tgt = None) by (unfold resolved; now rewrite IP, G).
  change (main w tgt) with (run_recon w (set_target tgt)).
  rewrite run_recon_collected
    by (try reflexivity; cbn [set_target target];
        unfold collectors_ok, resolver_ok; rewrite R, IP, G, C; reflexivity).
  cbn [set_target target trace files].
  assert (P : dict_get (KStr "port_scan") (report_results w tgt)
              = Some (VStr "Skipped due to DNS resolution failure")).
  { unfold report_results, port_value. rewrite IP, R. reflexivity. }
  assert (Q : connects ([] ++ run_trace w tgt) = []).
  { unfold run_trace, scan_events. rewrite IP, R.
    rewrite !connects_app, connects_dns, connects_http. reflexivity. }
  destruct (open_w w (tgt ++ "_recon.json")); cbn [fst snd trace];
    unfold report_field; cbn [results]; auto.
Qed.

Lemma unresolved_skips_port_scan_witness :
  fst (get_ip Samples.dark (set_target "example.test")) = Returns None /\
  fst (main Samples.dark "example.test") = Returns tt /\
  report_field "port_scan" (snd (main Samples.dark "example.test"))
  = Some (VStr "Skipped due to DNS resolution failure") /\
  connects (trace (snd (main Samples.dark "example.test"))) = [].
Proof.
  split; [reflexivity|].
  apply (unresolved_skips_port_scan Samples.dark "example.test"). reflexivity.
Defined.

(** When every [connect_ex] returns, the probe makes one connection
    attempt on each port of the fixed list, under a timeout of one
    second, closes its socket once, and produces one port result for it,
    open exactly when [connect_ex] returned 0: an attempt that times out
    or is refused is that one result with open = false. *)
Lemma one_attempt_one_result (w : world) (ip : string) (st : state) (p : Z) :
  connect_ok w ip common_ports = true ->
  In p common_ports ->
  let r := probe w ip common_ports st in
  exists res,
    fst r = Returns res /\
    filter (fun x => Z.eqb (fst x) p) res = [(p, is_open w ip p)] /\
    exists es,
      trace (snd r) = trace st ++ es /\
      attempts p es = 1%nat /\
      length (filter (Z.eqb p) (closes es)) = 1%nat /\
      Forall (eq (Some 1%Z)) (timeouts es).
Proof.
  intros C Hp r. unfold r. rewrite probe_spec by exact C. cbn [fst snd].
  exists (port_results w ip common_ports).
  split; [reflexivity|]. split.
  { rewrite results_for_port, common_ports_once by exact Hp. reflexivity. }
  exists (probe_events w ip common_ports). split; [reflexivity|]. split.
  { rewrite attempts_probe, common_ports_once by assumption. reflexivity. }
  destruct (probe_events_spec w ip common_ports) as (m & _ & P & Hall & _).
  rewrite (Hall C), firstn_all in P. split.
  - pose proof (perm_obs closes closes_app _ _ P) as Pc.
    rewrite (obs_flat_map closes _ eq_refl closes_app) in Pc.
    erewrite flat_map_ext in Pc
      by (intros a; rewrite item_closes, item_returned; reflexivity).
    rewrite (perm_filter_length _ _ _ Pc).
    assert (E : forall l, connect_ok w ip l = true ->
                  flat_map (fun a => if connect_ok w ip [a] then [a] else []) l = l).
    { clear. induction l as [|q l IH]; intros H; [reflexivity|].
      unfold connect_ok in H. cbn [forallb] in H.
      apply andb_prop in H as [H1 H2].
      assert (Q : connect_ok w ip [q] = true)
        by (unfold connect_ok; cbn [forallb]; now rewrite H1).
      cbn [flat_map]. rewrite Q, (IH H2). reflexivity. }
    rewrite (E _ C).
    rewrite (filter_ext (Z.eqb p) (fun q => Z.eqb q p))
      by (intros; apply Z.eqb_sym).
    now rewrite common_ports_once.
  - pose proof (perm_obs timeouts timeouts_app _ _ P) as Pt.
    rewrite (obs_flat_map timeouts _ eq_refl timeouts_app) in Pt.
    erewrite flat_map_ext in Pt by (intros; apply item_timeouts).
    apply Forall_forall. intros t Ht.
    eapply Permutation_in in Ht; [|exact Pt].
    apply in_flat_map in Ht as (q & _ & [<-|[]]). reflexivity.
Qed.

(** No port is attempted twice, whether the attempts return or
    raise. *)
Lemma no_second_attempt (w : world) (ip : string) (p : Z) :
  (attempts p (probe_events w ip common_ports) <= 1)%nat.
Proof.
  unfold attempts.
  destruct (connects_probe w ip common_ports) as (m & _ & P & _).
  rewrite (perm_filter_length _ _ _ P).
  assert (ND : NoDup (firstn m common_ports)).
  { pose proof (sorted_NoDup _ common_ports_sorted) as ND.
    rewrite <- (firstn_skipn m common_ports) in ND.
    now apply NoDup_app_remove_r in ND. }
  assert (Z0 : forall l, ~ In p l ->
            filter (fun c : string * Z => Z.eqb (snd c) p) (map (pair ip) l) = []).
  { induction l as [|x l IH]; intros H; [reflexivity|]. cbn [map filter snd].
    destruct (Z.eqb_spec x p) as [->|NE]; [exfalso; apply H; now left|].
    apply IH. intros Hin. apply H. now right. }
  clear P. induction ND as [|x l Hx ND IH]; [cbn; lia|].
  cbn [map filter snd]. destruct (Z.eqb_spec x p) as [->|NE].
  - rewrite (Z0 l Hx). cbn. lia.
  - exact IH.
Qed.

Example one_attempt_on_port_25 :
  let r := probe Samples.web "93.184.216.34" common_ports
                 (set_target "example.com") in
  fst r = Returns (port_results Samples.web "93.184.216.34" common_ports) /\
  attempts 25 (trace (snd r)) = 1%nat /\
  filter (fun x => Z.eqb (fst x) 25)
         (port_results Samples.web "93.184.216.34" common_ports)
  = [(25%Z, false)].
Proof. vm_compute. repeat split. Qed.

(** C4.  An attempt whose [connect_ex] raises has no port result at all:
    [check_port] has no handler, the exception leaves the thread pool
    through [list(executor.map(...))], and the scan ends there with no
    result for any port and [port_scan] not written. *)
Theorem failed_attempt_aborts_scan
        (w : world) (ip : string) (st : state) (p : Z) (e : exn) :
  not_ip (Some ip) = false ->
  In p common_ports ->
  connect_ex w ip p = Raises e ->
  exists e',
    fst (probe w ip common_ports st) = Raises e' /\
    fst (scan_common_ports w (Some ip) st) = Raises e' /\
    results (snd (scan_common_ports w (Some ip) st)) = results st.
Proof.
  intros N Hp He.
  assert (C : connect_ok w ip common_ports = false).
  { destruct (connect_ok w ip common_ports) eqn:C; [|reflexivity].
    unfold connect_ok in C. rewrite forallb_forall in C.
    specialize (C p Hp). rewrite He in C. discriminate. }
  destruct (probe_raises w ip common_ports st C) as [e' E].
  exists e'. unfold scan_common_ports, scan_ports. rewrite N.
  rewrite E, (bind_raises _ _ _ _ _ E). cbn [fst snd]. auto.
Qed.

Lemma failed_attempt_aborts_scan_witness :
  not_ip (Some "999.999.999.999") = false /\
  In 21%Z common_ports /\
  connect_ex Samples.web "999.999.999.999" 21 = Raises Gaierror /\
  exists e',
    fst (probe Samples.web "999.999.999.999" common_ports
               (set_target "999.999.999.999")) = Raises e' /\
    fst (scan_common_ports Samples.web (Some "999.999.999.999")
                           (set_target "999.999.999.999")) = Raises e' /\
    results (snd (scan_common_ports Samples.web (Some "999.999.999.999")
                                    (set_target "999.999.999.999")))
    = results (set_target "999.999.999.999").
Proof.
  assert (H : In 21%Z common_ports) by (simpl; tauto).
  split; [reflexivity|]. split; [exact H|]. split; [reflexivity|].
  exact (failed_attempt_aborts_scan Samples.web "999.999.999.999"
           (set_target "999.999.999.999") 21 Gaierror eq_refl H eq_refl).
Defined.

(** The run on the target 999.999.999.999, which [is_ip_address]
    accepts: the scan raises [socket.gaierror], the run ends there, the
    report has no [port_scan], no file is written, and none of the
    sockets made is closed. *)
Example run_on_unparsable_address :
  let r := main Samples.web "999.999.999.999" in
  is_ip_address "999.999.999.999" = true /\
  fst r = Raises Gaierror /\
  report_field "port_scan" (snd r) = None /\
  files (snd r) = [] /\
  length (opens (trace (snd r))) = 20%nat /\
  closes (trace (snd r)) = [].
Proof. vm_compute. repeat split. Qed.

(** With an iterator that is quick to cancel, only two of the twenty
    attempts are made. *)
Example cancelled_scan_makes_fewer_attempts :
  connects (trace (snd (main Samples.web_cancelling "999.999.999.999")))
  = [("999.999.999.999", 21%Z); ("999.999.999.999", 22%Z)].
Proof. vm_compute. reflexivity. Qed.

(* ================================================================== *)
(** ** The resolver and the record collectors *)

(** [get_ip] on a target classified as an address returns the target
    unchanged and leaves the state, and with it the log of external
    calls, as it was; on a hostname whose resolution fails with
    [socket.gaierror] it returns [None] (it does not raise), records
    "Not found" under [ip_address], and has made the one resolution
    call. *)
Lemma resolver_contract (w : world) (st : state) :
  if is_ip_address (target st)
  then get_ip w st = (Returns (Some (target st)), st)
  else match gethostbyname w (target st) with
       | Raises Gaierror =>
           fst (get_ip w st) = Returns None /\
           report_field "ip_address" (snd (get_ip w st))
           = Some (VStr "Not found") /\
           trace (snd (get_ip w st))
           = trace st ++ [GetHostByName (target st)]
       | _ => True
       end.
Proof.
  destruct (is_ip_address (target st)) eqn:IP.
  - apply get_ip_address, IP.
  - destruct (gethostbyname w (target st)) as [ip|[| |]] eqn:G; try exact I.
    rewrite get_ip_raised with (e := Gaierror) by assumption.
    cbn [caught fst snd trace]. repeat split.
    unfold report_field. cbn [results]. apply dict_get_set_same.
Qed.

(** The two branches of the resolver contract on concrete targets. *)
Example resolver_contract_on_samples :
  get_ip Samples.web (set_target "999.999.999.999")
  = (Returns (Some "999.999.999.999"), set_target "999.999.999.999") /\
  fst (get_ip Samples.dark (set_target "example.test")) = Returns None /\
  report_field "ip_address" (snd (get_ip Samples.dark (set_target "example.test")))
  = Some (VStr "Not found") /\
  trace (snd (get_ip Samples.dark (set_target "example.test")))
  = [GetHostByName "example.test"].
Proof.
  split.
  - exact (resolver_contract Samples.web (set_target "999.999.999.999")).
  - exact (resolver_contract Samples.dark (set_target "example.test")).
Qed.

(** The handler of [get_ip] names [socket.gaierror] only: an exception of
    another class raised by the resolution call is not a resolution
    failure for [get_ip] and leaves it as raised. *)
Lemma get_ip_other_exception (w : world) (st : state) (e : exn) :
  is_ip_address (target st) = false ->
  gethostbyname w (target st) = Raises e ->
  e <> Gaierror ->
  fst (get_ip w st) = Raises e.
Proof.
  intros IP G NE. rewrite get_ip_raised with (e := e) by assumption.
  destruct e; try reflexivity. contradiction.
Qed.

(** C6.  A resolution that fails with an exception other than
    [socket.gaierror] is not caught by [get_ip]: the exception
    propagates to the caller, nothing is recorded under [ip_address],
    and the run ends there. *)
Theorem resolver_error_propagates (w : world) (st : state) (e : exn) :
  is_ip_address (target st) = false ->
  gethostbyname w (target st) = Raises e ->
  caught ExceptGaierror e = false ->
  fst (get_ip w st) = Raises e /\
  results (snd (get_ip w st)) = results st /\
  fst (run_recon w st) = Raises e /\
  files (snd (run_recon w st)) = files st.
Proof.
  intros IP G C.
  assert (E : get_ip w st = (Raises e, add_trace st [GetHostByName (target st)])).
  { rewrite get_ip_raised with (e := e) by assumption. now rewrite C. }
  rewrite E. cbn [fst snd]. split; [reflexivity|]. split; [reflexivity|].
  change (run_recon w st) with (bind (get_ip w) (after_get_ip w) st).
  rewrite (bind_raises _ _ _ _ _ E). split; reflexivity.
Qed.

Lemma resolver_error_propagates_witness :
  is_ip_address "a..b" = false /\
  gethostbyname Lifecycle.unencodable "a..b" = Raises OtherException /\
  caught ExceptGaierror OtherException = false /\
  fst (get_ip Lifecycle.unencodable (set_target "a..b")) = Raises OtherException /\
  results (snd (get_ip Lifecycle.unencodable (set_target "a..b"))) = [] /\
  fst (run_recon Lifecycle.unencodable (set_target "a..b"))
  = Raises OtherException /\
  files (snd (run_recon Lifecycle.unencodable (set_target "a..b"))) = [].
Proof.
  split; [reflexivity|]. split; [reflexivity|]. split; [reflexivity|].
  exact (resolver_error_propagates Lifecycle.unencodable (set_target "a..b")
           OtherException eq_refl eq_refl eq_refl).
Defined.

(** C7.  [get_http_headers] requests https first, with a timeout of 5
    seconds.  If that request answers, the headers of its response go
    under [https_headers] and no http request is made.  Otherwise http is
    requested, with the same timeout, and the headers of its response go
    under [http_headers] if it answers.  If both fail the results are
    left as they were: no headers field at all. *)
Theorem http_first_success_only (w : world) (st : state) :
  let tgt := target st in
  let r := get_http_headers w st in
  fst r = Returns tt /\
  match requests_get w ("https://" ++ tgt) with
  | Returns hs =>
      trace (snd r) = trace st ++ [HttpGet ("https://" ++ tgt) 5] /\
      exists d,
        results (snd r) = dict_set (KStr "https_headers") (VDict d) (results st)
        /\ holds_headers hs d
  | Raises _ =>
      trace (snd r)
      = trace st ++ [HttpGet ("https://" ++ tgt) 5; HttpGet ("http://" ++ tgt) 5] /\
      match requests_get w ("http://" ++ tgt) with
      | Returns hs =>
          exists d,
            results (snd r)
            = dict_set (KStr "http_headers") (VDict d) (results st)
            /\ holds_headers hs d
      | Raises _ => results (snd r) = results st
      end
  end.
Proof.
  intros tgt r. unfold r. rewrite get_http_headers_spec, http_loop_spec.
  fold tgt. cbn [fst snd trace results].
  unfold protocols. cbn [first_success tried].
  change (url_of "https" tgt) with ("https://" ++ tgt)%string.
  change (url_of "http" tgt) with ("http://" ++ tgt)%string.
  split; [reflexivity|].
  destruct (requests_get w ("https://" ++ tgt)) as [hs|e].
  - split; [reflexivity|]. exists (headers_dict hs).
    split; [reflexivity|apply HeaderFacts.headers_dict_spec].
  - split.
    + destruct (requests_get w ("http://" ++ tgt)); reflexivity.
    + destruct (requests_get w ("http://" ++ tgt)) as [hs|e'];
        [|reflexivity].
      exists (headers_dict hs).
      split; [reflexivity|apply HeaderFacts.headers_dict_spec].
Qed.

(** A response with repeated header names: each name comes once, under
    its first spelling, with its values joined. *)
Example repeated_headers_are_joined :
  headers_dict [("Set-Cookie", "a=1"); ("Server", "ECS");
                ("set-cookie", "b=2")]
  = [(KStr "Set-Cookie", VStr "a=1, b=2"); (KStr "Server", VStr "ECS")].
Proof. reflexivity. Qed.

(** On the sample host https answers: one request, none over http. *)
Example https_answers_http_untouched :
  http_requests (trace (snd (get_http_headers Samples.web
                               (set_target "example.com"))))
  = [("https://example.com", 5%Z)].
Proof. reflexivity. Qed.

Lemma dns_answers_cons (w : world) (tgt t : string) (types : list string) acc :
  dns_answers w tgt (t :: types) acc
  = dns_answers w tgt types
      (match dns_resolve w tgt t with
       | Returns a => dict_set (KStr t) (VList (map VStr a)) acc
       | Raises _ => acc
       end).
Proof. reflexivity. Qed.

Lemma dns_answers_other (w : world) (tgt rt : string) (types : list string) :
  forall acc,
    ~ In rt types ->
    dict_get (KStr rt) (dns_answers w tgt types acc) = dict_get (KStr rt) acc.
Proof.
  induction types as [|t types IH]; intros acc H; [reflexivity|].
  rewrite dns_answers_cons, IH by (simpl in H; tauto).
  destruct (dns_resolve w tgt t); [|reflexivity].
  apply dict_get_set_other. intros [= ->]. apply H. now left.
Qed.

Lemma dns_answers_in (w : world) (tgt rt : string) (types : list string) :
  forall acc,
    NoDup types -> In rt types ->
    dict_get (KStr rt) (dns_answers w tgt types acc)
    = match dns_resolve w tgt rt with
      | Returns a => Some (VList (map VStr a))
      | Raises _ => dict_get (KStr rt) acc
      end.
Proof.
  induction types as [|t types IH]; intros acc ND H; [contradiction|].
  inversion ND as [|? ? Ht ND']; subst.
  rewrite dns_answers_cons.
  destruct (String.eqb_spec t rt) as [->|NE].
  - rewrite dns_answers_other by exact Ht.
    destruct (dns_resolve w tgt rt); [apply dict_get_set_same|reflexivity].
  - destruct H as [H|H]; [contradiction|].
    rewrite IH by assumption.
    destruct (dns_resolve w tgt rt); [reflexivity|].
    destruct (dns_resolve w tgt t); [|reflexivity].
    apply dict_get_set_other. congruence.
Qed.

Lemma record_types_NoDup : NoDup record_types.
Proof.
  unfold record_types.
  repeat (constructor; [simpl; intuition discriminate|]). constructor.
Qed.

(** C8.  [get_dns_records] on a target classified as an address makes no
    query and records "Skipped for IP address" under [dns_records].  On a
    hostname it makes one query for each of the seven record types, in
    the fixed order, and records a dict that holds the records of exactly
    the types whose query answered: a query that raises adds nothing, and
    the collector returns normally whatever the queries do. *)
Theorem dns_collector_contract (w : world) (st : state) :
  let tgt := target st in
  let r := get_dns_records w st in
  fst r = Returns tt /\
  if is_ip_address tgt
  then trace (snd r) = trace st /\
       report_field "dns_records" (snd r) = Some (VStr "Skipped for IP address")
  else trace (snd r)
       = trace st ++ [DnsQuery tgt "A"; DnsQuery tgt "AAAA"; DnsQuery tgt "MX";
                      DnsQuery tgt "NS"; DnsQuery tgt "TXT"; DnsQuery tgt "SOA";
                      DnsQuery tgt "CNAME"] /\
       exists d,
         report_field "dns_records" (snd r) = Some (VDict d) /\
         forall rt,
           dict_get (KStr rt) d
           = if existsb (String.eqb rt) record_types
             then match dns_resolve w tgt rt with
                  | Returns a => Some (VList (map VStr a))
                  | Raises _ => None
                  end
             else None.
Proof.
  intros tgt r. unfold r. rewrite get_dns_records_spec. fold tgt.
  cbn [fst snd trace]. split; [reflexivity|].
  unfold report_field, dns_value. cbn [results]. rewrite dict_get_set_same.
  destruct (is_ip_address tgt).
  - now rewrite app_nil_r.
  - split; [reflexivity|].
    exists (dns_answers w tgt record_types []). split; [reflexivity|].
    intros rt. destruct (existsb (String.eqb rt) record_types) eqn:E.
    + apply existsb_exists in E as [x [Hx E]].
      apply String.eqb_eq in E. subst x.
      rewrite dns_answers_in by (try apply record_types_NoDup; exact Hx).
      reflexivity.
    + apply dns_answers_other. intros Hin.
      assert (T : existsb (String.eqb rt) record_types = true)
        by (apply existsb_exists; exists rt; split;
            [exact Hin | apply String.eqb_refl]).
      congruence.
Qed.

(** On the sample host two of the seven queries answer. *)
Example dns_of_example_com :
  let r := get_dns_records Samples.web (set_target "example.com") in
  length (dns_queries (trace (snd r))) = 7%nat /\
  report_field "dns_records" (snd r)
  = Some (VDict [(KStr "A", VList [VStr "93.184.216.34"]);
                 (KStr "NS", VList [VStr "a.iana-servers.net.";
                                    VStr "b.iana-servers.net."])]).
Proof. split; reflexivity. Qed.

(* ================================================================== *)
(** ** Facts about the JSON mapping *)

Module JsonFacts.
Import Json.

(** Induction on values that reaches the values inside lists and dicts. *)
Lemma value_induction (P : value -> Prop) :
  P VNone ->
  (forall s, P (VStr s)) ->
  (forall l, Forall P l -> P (VList l)) ->
  (forall d, Forall (fun kv => P (snd kv)) d -> P (VDict d)) ->
  forall v, P v.
Proof.
  intros HN HS HL HD. fix IH 1. intros [|s|l|d].
  - exact HN.
  - apply HS.
  - apply HL. induction l as [|x l IHl]; constructor; [apply IH|exact IHl].
  - apply HD. induction d as [|[k x] d IHd]; constructor; [apply IH|exact IHd].
Qed.

Lemma dumps_dict (d : dict) :
  dumps (VDict d)
  = JObject (map (fun kv => (key_name (fst kv), dumps (snd kv))) d).
Proof.
  simpl. f_equal. induction d as [|[k x] d IH]; simpl; [reflexivity|].
  now rewrite IH.
Qed.

Lemma loads_object (ms : list (string * json)) :
  loads (JObject ms)
  = VDict (dict_of_pairs (map (fun m => (KStr (fst m), loads (snd m))) ms)).
Proof.
  simpl. do 2 f_equal. induction ms as [|[n x] ms IH]; simpl; [reflexivity|].
  now rewrite IH.
Qed.

Lemma str_keys_dict (d : dict) :
  str_keys (VDict d)
  = VDict (map (fun kv => (KStr (key_name (fst kv)), str_keys (snd kv))) d).
Proof.
  simpl. f_equal. induction d as [|[k x] d IH]; simpl; [reflexivity|].
  now rewrite IH.
Qed.

Lemma distinct_names_list (l : list value) :
  distinct_names (VList l) <-> Forall distinct_names l.
Proof.
  simpl. induction l as [|x l IH]; split; intros H.
  - constructor.
  - exact I.
  - destruct H as [H1 H2]. constructor; [exact H1|now apply IH].
  - inversion H; subst. split; [assumption|now apply IH].
Qed.

Lemma distinct_names_dict (d : dict) :
  distinct_names (VDict d)
  <-> NoDup (map (fun kv => key_name (fst kv)) d)
      /\ Forall (fun kv => distinct_names (snd kv)) d.
Proof.
  simpl. apply and_iff_compat_l.
  induction d as [|[k x] d IH]; split; intros H.
  - constructor.
  - exact I.
  - destruct H as [H1 H2]. constructor; [exact H1|now apply IH].
  - inversion H; subst. split; [assumption|now apply IH].
Qed.

Lemma native_list (l : list value) : native (VList l) <-> Forall native l.
Proof.
  simpl. induction l as [|x l IH]; split; intros H.
  - constructor.
  - exact I.
  - destruct H as [H1 H2]. constructor; [exact H1|now apply IH].
  - inversion H; subst. split; [assumption|now apply IH].
Qed.

Lemma native_dict (d : dict) :
  native (VDict d)
  <-> NoDup (keys d)
      /\ Forall (fun kv => is_str_key (fst kv) /\ native (snd kv)) d.
Proof.
  simpl. apply and_iff_compat_l.
  induction d as [|[k x] d IH]; split; intros H.
  - constructor.
  - exact I.
  - destruct H as [H1 H2]. constructor; [exact H1|now apply IH].
  - inversion H; subst. split; [assumption|now apply IH].
Qed.

Lemma NoDup_map_on {X Y : Type} (f : X -> Y) (l : list X) :
  (forall x y, In x l -> In y l -> f x = f y -> x = y) ->
  NoDup l -> NoDup (map f l).
Proof.
  intros Inj ND. induction ND as [|x l Hx ND IH]; simpl; constructor.
  - intros H. apply in_map_iff in H as [y [E Hy]].
    apply Inj in E; [subst; contradiction|now right|now left].
  - apply IH. intros a b Ha Hb. apply Inj; now right.
Qed.

(** Parsing what was written gives the value back with its keys as the
    encoder named them. *)
Theorem loads_dumps (v : value) :
  distinct_names v -> loads (dumps v) = str_keys v.
Proof.
  induction v as [|s|l IH|d IH] using value_induction; intros H;
    try reflexivity.
  - apply distinct_names_list in H. simpl. f_equal. rewrite map_map.
    apply map_ext_in. intros x Hx.
    rewrite Forall_forall in IH, H. apply IH; auto.
  - apply distinct_names_dict in H as [ND H].
    rewrite dumps_dict, loads_object, str_keys_dict, map_map. cbn [fst snd].
    f_equal.
    assert (E : map (fun kv => (KStr (key_name (fst kv)), loads (dumps (snd kv)))) d
                = map (fun kv => (KStr (key_name (fst kv)), str_keys (snd kv))) d).
    { apply map_ext_in. intros kv Hkv. f_equal.
      rewrite Forall_forall in IH, H. apply IH; auto. }
    rewrite E. apply DictFacts.dict_of_pairs_id.
    unfold keys. rewrite map_map. cbn [fst].
    rewrite <- map_map with (f := fun kv => key_name (fst kv)) (g := KStr).
    apply NoDup_map_on; [|exact ND]. intros a b _ _ [= E']. exact E'.
Qed.

(** Writing the parsed value again gives the same document. *)
Theorem dumps_str_keys (v : value) : dumps (str_keys v) = dumps v.
Proof.
  induction v as [|s|l IH|d IH] using value_induction; try reflexivity.
  - simpl. f_equal. rewrite map_map. apply map_ext_in. intros x Hx.
    rewrite Forall_forall in IH. now apply IH.
  - rewrite str_keys_dict, !dumps_dict, map_map. cbn [fst snd]. f_equal.
    apply map_ext_in. intros kv Hkv.
    rewrite Forall_forall in IH. now rewrite IH.
Qed.

Theorem native_str_keys (v : value) : native v -> str_keys v = v.
Proof.
  induction v as [|s|l IH|d IH] using value_induction; intros H;
    try reflexivity.
  - apply native_list in H. simpl. f_equal.
    rewrite <- (map_id l) at 2. apply map_ext_in. intros x Hx.
    rewrite Forall_forall in IH, H. apply IH; auto.
  - apply native_dict in H as [_ H]. rewrite str_keys_dict. f_equal.
    rewrite <- (map_id d) at 2. apply map_ext_in. intros [k x] Hkv.
    rewrite Forall_forall in IH, H.
    destruct (H _ Hkv) as [Hk Hx]. pose proof (IH _ Hkv Hx) as E.
    cbn [fst snd] in *. rewrite E.
    destruct k; [reflexivity|contradiction].
Qed.

Lemma native_distinct (v : value) : native v -> distinct_names v.
Proof.
  induction v as [|s|l IH|d IH] using value_induction; intros H;
    try exact I.
  - apply native_list in H. apply distinct_names_list.
    rewrite Forall_forall in *. auto.
  - apply native_dict in H as [ND H]. apply distinct_names_dict. split.
    + unfold keys in ND.
      rewrite <- map_map with (f := fst) (g := key_name).
      apply NoDup_map_on; [|exact ND].
      intros a b Ha Hb E.
      apply in_map_iff in Ha as [[ka xa] [<- Ha]].
      apply in_map_iff in Hb as [[kb xb] [<- Hb]].
      rewrite Forall_forall in H.
      destruct (H _ Ha) as [Sa _], (H _ Hb) as [Sb _]. cbn [fst] in *.
      destruct ka, kb; simpl in *; try contradiction. now subst.
    + rewrite Forall_forall in *. intros kv Hkv. apply IH; [exact Hkv|].
      now apply H.
Qed.

End JsonFacts.

(* ================================================================== *)
(** ** The shape of the report *)

Module ReportFacts.
Import Json JsonFacts.

Lemma to_int_nonnil (z : Z) : Z.to_int z <> Pos Nil /\ Z.to_int z <> Neg Nil.
Proof.
  destruct z; simpl; split; try discriminate; intros [= H];
    apply (Unsigned.to_uint_nonnil p); exact H.
Qed.

(** Two port numbers are never written alike. *)
Lemma str_of_int_inj (n m : Z) : str_of_int n = str_of_int m -> n = m.
Proof.
  unfold str_of_int. intros H. apply to_int_inj.
  assert (E : NilZero.int_of_string (NilZero.string_of_int (Z.to_int n))
              = NilZero.int_of_string (NilZero.string_of_int (Z.to_int m)))
    by now rewrite H.
  rewrite !NilZero.isi in E by apply to_int_nonnil. congruence.
Qed.

Lemma Forall_dict_set (P : key * value -> Prop) (k : key) (v : value) (d : dict) :
  Forall P d -> P (k, v) -> Forall P (dict_set k v d).
Proof.
  intros H Hk. induction H as [|[k' v'] d Hx H IH]; simpl.
  - now constructor.
  - destruct (key_eqb k' k) eqn:E.
    + apply key_eqb_eq in E. subst k'. now constructor.
    + now constructor.
Qed.

Lemma native_dict_set (k : key) (v : value) (d : dict) :
  native (VDict d) -> is_str_key k -> native v ->
  native (VDict (dict_set k v d)).
Proof.
  intros H Hk Hv. apply native_dict in H as [ND H]. apply native_dict. split.
  - now apply dict_set_NoDup.
  - apply Forall_dict_set; [exact H|]. now split.
Qed.

Lemma native_strs (l : list string) : native (VList (map VStr l)).
Proof.
  apply native_list. apply Forall_forall. intros x Hx.
  apply in_map_iff in Hx as [s [<- _]]. exact I.
Qed.

Lemma native_attr (a : whois_attr) : native (attr_value a).
Proof. destruct a; try exact I. apply native_strs. Qed.

Lemma native_whois (w : world) (tgt : string) : native (whois_value w tgt).
Proof.
  unfold whois_value. destruct (whois_whois w tgt) as [i|e]; [|exact I].
  unfold simplified_whois. apply native_dict. split.
  - unfold keys. cbn [map fst].
    repeat (constructor; [simpl; intuition discriminate|]). constructor.
  - repeat (constructor; [cbn [fst snd]; split; [exact I|]|]);
      try apply native_attr; try exact I.
    + destruct (truthy (attr_value (emails i))); [apply native_attr|exact I].
    + constructor.
Qed.

Lemma native_dns_answers (w : world) (tgt : string) (types : list string) :
  forall acc, native (VDict acc) -> native (VDict (dns_answers w tgt types acc)).
Proof.
  induction types as [|t types IH]; intros acc H; [exact H|].
  rewrite dns_answers_cons. apply IH.
  destruct (dns_resolve w tgt t); [|exact H].
  apply native_dict_set; [exact H | exact I | apply native_strs].
Qed.

Lemma native_dns (w : world) (tgt : string) : native (dns_value w tgt).
Proof.
  unfold dns_value. destruct (is_ip_address tgt); [exact I|].
  apply native_dns_answers. apply native_dict. split; constructor.
Qed.

Lemma native_headers (hs : list (string * string)) :
  native (VDict (headers_dict hs)).
Proof.
  unfold headers_dict, dict_of_pairs.
  assert (G : forall (l : list (string * string)) acc, native (VDict acc) ->
            native (VDict (fold_left (fun d kv => dict_set (fst kv) (snd kv) d)
                             (map (fun h => (KStr (fst h), VStr (snd h))) l) acc))).
  { induction l as [|[n x] l IH]; intros acc H; simpl; [exact H|].
    apply IH. apply native_dict_set; [exact H | exact I | exact I]. }
  apply G. apply native_dict. split; constructor.
Qed.

Lemma open_ports_NoDup (w : world) (ip : string) : NoDup (open_ports_of w ip).
Proof.
  rewrite open_ports_of_eq.
  apply sorted_NoDup, sorted_filter, common_ports_sorted.
Qed.

Lemma labelled_open_ports (w : world) (ip : string) :
  labelled w (open_ports_of w ip) []
  = map (fun p => (KInt p, VStr (service_label w p))) (open_ports_of w ip).
Proof.
  rewrite labelled_new; [reflexivity | apply open_ports_NoDup |].
  intros p _ [].
Qed.

Lemma distinct_port_value (w : world) (tgt : string) :
  distinct_names (port_value w tgt).
Proof.
  unfold port_value. destruct (resolved w tgt) as [a|]; [|exact I].
  destruct (not_ip (Some a)); [exact I|].
  rewrite labelled_open_ports. apply distinct_names_dict. split.
  - rewrite map_map. cbn [fst key_name].
    apply NoDup_map_on; [|apply open_ports_NoDup].
    intros x y _ _. apply str_of_int_inj.
  - apply Forall_forall. intros kv Hkv.
    apply in_map_iff in Hkv as [p [<- _]]. exact I.
Qed.

(** With no port open the port scan holds nothing but strings. *)
Lemma native_port_value (w : world) (tgt : string) :
  match port_value w tgt with
  | VDict d => port_numbers d = []
  | _ => True
  end ->
  native (port_value w tgt).
Proof.
  unfold port_value. destruct (resolved w tgt) as [a|]; [|intros _; exact I].
  destruct (not_ip (Some a)); [intros _; exact I|].
  rewrite labelled_open_ports, port_numbers_labels. intros ->.
  apply native_dict. split; constructor.
Qed.

(** The report, field by field. *)
Lemma report_results_Forall (P : value -> Prop) (w : world) (tgt : string) :
  P (VStr (ip_text w tgt)) ->
  P (whois_value w tgt) -> P (dns_value w tgt) -> P (port_value w tgt) ->
  (forall hs, P (VDict (headers_dict hs))) ->
  Forall (fun kv => P (snd kv)) (report_results w tgt).
Proof.
  intros Hi Hw Hd Hp Hh. unfold report_results.
  repeat (apply Forall_app; split).
  - destruct (is_ip_address tgt); repeat constructor. exact Hi.
  - repeat constructor; assumption.
  - destruct (first_success w tgt protocols) as [[p hs]|]; repeat constructor.
    apply Hh.
Qed.

Lemma report_results_keys (w : world) (tgt : string) :
  keys (report_results w tgt)
  = map KStr ((if is_ip_address tgt then [] else ["ip_address"])
              ++ ["whois"; "dns_records"; "port_scan"]
              ++ match first_success w tgt protocols with
                 | Some (p, _) => [(p ++ "_headers")%string]
                 | None => []
                 end).
Proof.
  unfold report_results, keys. rewrite !map_app.
  destruct (is_ip_address tgt), (first_success w tgt protocols) as [[p hs]|];
    reflexivity.
Qed.

Lemma report_results_NoDup (w : world) (tgt : string) :
  NoDup (keys (report_results w tgt)).
Proof.
  rewrite report_results_keys.
  apply NoDup_map_on; [intros x y _ _ [= E]; exact E|].
  destruct (first_success w tgt protocols) as [[p hs]|] eqn:F.
  - apply first_success_protocols in F as [-> | ->];
      destruct (is_ip_address tgt); cbn [app];
      repeat (constructor; [simpl; intuition discriminate|]); constructor.
  - destruct (is_ip_address tgt); cbn [app];
      repeat (constructor; [simpl; intuition discriminate|]); constructor.
Qed.

Lemma report_results_str_keys (w : world) (tgt : string) :
  Forall (fun kv => is_str_key (fst kv)) (report_results w tgt).
Proof.
  unfold report_results. repeat (apply Forall_app; split).
  - destruct (is_ip_address tgt); repeat constructor.
  - repeat constructor.
  - destruct (first_success w tgt protocols) as [[p hs]|]; repeat constructor.
Qed.

(** No dict of a report has two keys that are written alike. *)
Lemma report_distinct_names (w : world) (tgt : string) :
  distinct_names (report w tgt).
Proof.
  unfold report. apply distinct_names_dict. split.
  - cbn [map fst key_name].
    repeat (constructor; [simpl; intuition discriminate|]). constructor.
  - apply Forall_cons; [exact I|]. apply Forall_cons; [|constructor].
    cbn [snd]. apply distinct_names_dict. split.
    + rewrite <- map_map with (f := fst) (g := key_name).
      apply NoDup_map_on; [|apply report_results_NoDup].
      intros a b Ha Hb E.
      pose proof (report_results_str_keys w tgt) as S.
      rewrite Forall_forall in S.
      apply in_map_iff in Ha as [[ka xa] [<- Ha]].
      apply in_map_iff in Hb as [[kb xb] [<- Hb]].
      apply S in Ha, Hb. cbn [fst] in *.
      destruct ka, kb; simpl in *; try contradiction. now subst.
    + apply report_results_Forall; try exact I.
      * apply native_distinct, native_whois.
      * apply native_distinct, native_dns.
      * apply distinct_port_value.
      * intros hs. apply native_distinct, native_headers.
Qed.

(** With no port open the report is made of what JSON has itself. *)
Lemma report_native (w : world) (tgt : string) :
  match port_value w tgt with
  | VDict d => port_numbers d = []
  | _ => True
  end ->
  native (report w tgt).
Proof.
  intros H. unfold report. apply native_dict. split.
  - unfold keys. cbn [map fst].
    repeat (constructor; [simpl; intuition discriminate|]). constructor.
  - apply Forall_cons; [split; exact I|]. apply Forall_cons; [|constructor].
    cbn [fst snd]. split; [exact I|].
    apply native_dict. split; [apply report_results_NoDup|].
    pose proof (report_results_str_keys w tgt) as S.
    assert (N : Forall (fun kv => native (snd kv)) (report_results w tgt)).
    { apply report_results_Forall; try exact I.
      - apply native_whois.
      - apply native_dns.
      - now apply native_port_value.
      - apply native_headers. }
    rewrite Forall_forall in *. intros kv Hkv. split; auto.
Qed.

Lemma report_port_scan (w : world) (tgt : string) :
  dict_get (KStr "port_scan") (report_results w tgt) = Some (port_value w tgt).
Proof.
  unfold report_results. destruct (is_ip_address tgt); reflexivity.
Qed.

End ReportFacts.

(* ================================================================== *)
(** ** The report *)

Import Json JsonFacts ReportFacts.

(** C5, as the code has it.  When no call raises past its handler the run
    completes, and its report always carries [whois], [dns_records] and
    [port_scan], each holding its data or its marker string
    ("Lookup failed", "Skipped for IP address",
    "Skipped due to DNS resolution failure"); for a hostname target it
    carries [ip_address], the address or "Not found".  The headers have no
    marker: the report carries the headers of the first protocol that
    answered, under that protocol's field and with the other protocol's
    field absent, and nothing about headers when both requests fail.  The
    report has no other field. *)
Theorem report_fields (w : world) (tgt : string) :
  run_ok w tgt = true ->
  let st := snd (main w tgt) in
  fst (main w tgt) = Returns tt /\
  report_field "whois" st
  = Some (match whois_whois w tgt with
          | Returns i => simplified_whois i
          | Raises _ => VStr "Lookup failed"
          end) /\
  report_field "dns_records" st
  = Some (if is_ip_address tgt then VStr "Skipped for IP address"
          else VDict (dns_answers w tgt record_types [])) /\
  report_field "port_scan" st
  = Some (match resolved w tgt with
          | Some a =>
              if not_ip (Some a)
              then VStr "Skipped due to DNS resolution failure"
              else VDict (labelled w (open_ports_of w a) [])
          | None => VStr "Skipped due to DNS resolution failure"
          end) /\
  (if is_ip_address tgt then True
   else report_field "ip_address" st
        = Some (VStr (match gethostbyname w tgt with
                      | Returns ip => ip
                      | Raises _ => "Not found"
                      end))) /\
  match first_success w tgt protocols with
  | Some (p, hs) =>
      (p = "https" \/ p = "http") /\
      report_field (p ++ "_headers") st = Some (VDict (headers_dict hs)) /\
      (p = "https" -> report_field "http_headers" st = None) /\
      (p = "http" -> report_field "https_headers" st = None)
  | None =>
      report_field "https_headers" st = None /\
      report_field "http_headers" st = None
  end /\
  keys (results st)
  = map KStr ((if is_ip_address tgt then [] else ["ip_address"])
              ++ ["whois"; "dns_records"; "port_scan"]
              ++ match first_success w tgt protocols with
                 | Some (p, _) => [(p ++ "_headers")%string]
                 | None => []
                 end).
Proof.
  intros H st. unfold st. rewrite main_spec by exact H. cbn [fst snd].
  unfold report_field. cbn [results].
  change (match whois_whois w tgt with
          | Returns i => simplified_whois i
          | Raises _ => VStr "Lookup failed"
          end) with (whois_value w tgt).
  change (if is_ip_address tgt then VStr "Skipped for IP address"
          else VDict (dns_answers w tgt record_types []))
    with (dns_value w tgt).
  change (match gethostbyname w tgt with
          | Returns ip => ip
          | Raises _ => "Not found"
          end) with (ip_text w tgt).
  fold (port_value w tgt).
  rewrite report_results_keys.
  unfold report_results.
  destruct (first_success w tgt protocols) as [[p hs]|] eqn:F.
  - apply first_success_protocols in F as [-> | ->];
      destruct (is_ip_address tgt); repeat split;
      try reflexivity; try discriminate; auto.
  - destruct (is_ip_address tgt); repeat split; reflexivity.
Qed.

Lemma report_fields_witness :
  run_ok Samples.web "example.com" = true /\
  let st := snd (main Samples.web "example.com") in
  fst (main Samples.web "example.com") = Returns tt /\
  report_field "whois" st
  = Some (match whois_whois Samples.web "example.com" with
          | Returns i => simplified_whois i
          | Raises _ => VStr "Lookup failed"
          end) /\
  report_field "dns_records" st
  = Some (if is_ip_address "example.com" then VStr "Skipped for IP address"
          else VDict (dns_answers Samples.web "example.com" record_types [])) /\
  report_field "port_scan" st
  = Some (match resolved Samples.web "example.com" with
          | Some a =>
              if not_ip (Some a)
              then VStr "Skipped due to DNS resolution failure"
              else VDict (labelled Samples.web (open_ports_of Samples.web a) [])
          | None => VStr "Skipped due to DNS resolution failure"
          end) /\
  (if is_ip_address "example.com" then True
   else report_field "ip_address" st
        = Some (VStr (match gethostbyname Samples.web "example.com" with
                      | Returns ip => ip
                      | Raises _ => "Not found"
                      end))) /\
  match first_success Samples.web "example.com" protocols with
  | Some (p, hs) =>
      (p = "https" \/ p = "http") /\
      report_field (p ++ "_headers") st = Some (VDict (headers_dict hs)) /\
      (p = "https" -> report_field "http_headers" st = None) /\
      (p = "http" -> report_field "https_headers" st = None)
  | None =>
      report_field "https_headers" st = None /\
      report_field "http_headers" st = None
  end /\
  keys (results st)
  = map KStr ((if is_ip_address "example.com" then [] else ["ip_address"])
              ++ ["whois"; "dns_records"; "port_scan"]
              ++ match first_success Samples.web "example.com" protocols with
                 | Some (p, _) => [(p ++ "_headers")%string]
                 | None => []
                 end).
Proof.
  assert (H : run_ok Samples.web "example.com" = true) by (vm_compute; reflexivity).
  split; [exact H|].
  exact (report_fields Samples.web "example.com" H).
Defined.

(** C5, as the specification words it, fails.  On a network where every
    call fails the run completes, both HTTP requests are made and fail,
    and the report carries no headers field and no marker in its place:
    not every failed field is tagged. *)
Lemma failed_headers_are_left_out :
  let st := snd (main Samples.dark "example.test") in
  fst (main Samples.dark "example.test") = Returns tt /\
  http_requests (trace st)
  = [("https://example.test", 5%Z); ("http://example.test", 5%Z)] /\
  report_field "https_headers" st = None /\
  report_field "http_headers" st = None /\
  fields_tagged (results st) = false.
Proof. vm_compute. repeat split. Qed.

(** The report of a target given as an address has no [ip_address]
    field. *)
Example address_target_report_keys :
  keys (results (snd (main Samples.dark "93.184.216.34")))
  = [KStr "whois"; KStr "dns_records"; KStr "port_scan"].
Proof. vm_compute. reflexivity. Qed.

(** C10, as the code has it.  When no call raises past its handler the run
    writes one file, the JSON document of its report.  Parsing that
    document gives the report with every port-number key of [port_scan]
    replaced by its decimal string and nothing else changed; writing the
    parsed value again gives the same document; and when the report lists
    no open port the parsed value is the report itself. *)
Theorem report_round_trip (w : world) (tgt : string) :
  run_ok w tgt = true ->
  let st := snd (main w tgt) in
  exists doc,
    files st = [((tgt ++ "_recon.json")%string, doc)] /\
    doc = dumps (output st) /\
    loads doc = str_keys (output st) /\
    dumps (loads doc) = doc /\
    (open_ports_reported st = [] -> loads doc = output st).
Proof.
  intros H st. unfold st. rewrite main_spec by exact H. cbn [snd files].
  exists (dumps (report w tgt)).
  assert (O : output (mkState tgt (report_results w tgt) (run_trace w tgt)
                        [((tgt ++ "_recon.json")%string, dumps (report w tgt))])
              = report w tgt) by reflexivity.
  rewrite O.
  assert (L : loads (dumps (report w tgt)) = str_keys (report w tgt))
    by apply loads_dumps, report_distinct_names.
  split; [reflexivity|]. split; [reflexivity|]. split; [exact L|]. split.
  - rewrite L. apply dumps_str_keys.
  - unfold open_ports_reported, report_field. cbn [results].
    rewrite report_port_scan. intros E. rewrite L.
    apply native_str_keys, report_native.
    destruct (port_value w tgt); try exact I. exact E.
Qed.

Lemma report_round_trip_witness :
  run_ok Samples.dark "93.184.216.34" = true /\
  let st := snd (main Samples.dark "93.184.216.34") in
  exists doc,
    files st = [("93.184.216.34_recon.json", doc)] /\
    doc = dumps (output st) /\
    loads doc = str_keys (output st) /\
    dumps (loads doc) = doc /\
    (open_ports_reported st = [] -> loads doc = output st).
Proof.
  assert (H : run_ok Samples.dark "93.184.216.34" = true)
    by (vm_compute; reflexivity).
  split; [exact H|].
  exact (report_round_trip Samples.dark "93.184.216.34" H).
Defined.

(** C10, as the specification words it, fails.  On the sample host three
    ports are open; the report keys them by number, the document by
    string, and parsing the document gives string keys back: the parsed
    value is not the report. *)
Lemma port_keys_do_not_round_trip :
  let st := snd (main Samples.web "example.com") in
  exists doc,
    files st = [("example.com_recon.json", doc)] /\
    report_field "port_scan" st
    = Some (VDict [(KInt 22, VStr "unknown"); (KInt 80, VStr "http");
                   (KInt 443, VStr "https")]) /\
    (match loads doc with
     | VDict [_; (_, VDict r)] => dict_get (KStr "port_scan") r
     | _ => None
     end)
    = Some (VDict [(KStr "22", VStr "unknown"); (KStr "80", VStr "http");
                   (KStr "443", VStr "https")]) /\
    loads doc <> output st.
Proof.
  eexists. split; [vm_compute; reflexivity|].
  split; [vm_compute; reflexivity|].
  split; [vm_compute; reflexivity|].
  vm_compute. discriminate.
Qed.

(* ================================================================== *)
(** ** The target classifier against its specification *)

Module ClassifierFacts.
Import Re.

Local Open Scope string_scope.

Lemma append_nil_r (s : string) : s ++ "" = s.
Proof. induction s as [|c s IH]; simpl; [reflexivity|now rewrite IH]. Qed.

Lemma append_assoc (a b c : string) : (a ++ b) ++ c = a ++ (b ++ c).
Proof. induction a as [|x a IH]; simpl; [reflexivity|now rewrite IH]. Qed.

Lemma digits_then_spec (n : nat) : forall s r,
  digits_then n s = Some r
  <-> exists g, String.length g = n /\ all_digits g = true /\ s = g ++ r.
Proof.
  induction n as [|n IH]; intros s r; simpl.
  - split.
    + intros [= ->]. exists "". auto.
    + intros [g [L [_ ->]]]. destruct g; [reflexivity|discriminate].
  - destruct s as [|c s].
    + split; [discriminate|]. intros [[|c g] [L [_ E]]]; discriminate.
    + destruct (is_digit c) eqn:D.
      * rewrite IH. split.
        -- intros [g [L [A ->]]]. exists (String c g). simpl.
           rewrite D, A, L. auto.
        -- intros [[|c' g] [L [A E]]]; [discriminate|].
           simpl in *. injection E as <- ->. injection L as L.
           rewrite D in A. exists g. auto.
      * split; [discriminate|].
        intros [[|c' g] [L [A E]]]; [discriminate|].
        simpl in *. injection E as <- ->. rewrite D in A. discriminate.
Qed.

(** [\d{1,3}] hands the continuation what is left after three, two or one
    digits, longest first. *)
Lemma run_digits (pos : nat) (s : string) (k : cont) :
  run (Rep 1 3 Digit) pos s k
  = (match digits_then 3 s with Some r => k (3 + pos)%nat r | None => false end)
    || (match digits_then 2 s with Some r => k (2 + pos)%nat r | None => false end)
    || (match digits_then 1 s with Some r => k (1 + pos)%nat r | None => false end).
Proof.
  destruct s as [|c1 [|c2 [|c3 s]]]; simpl;
    repeat match goal with
           | |- context [is_digit ?c] => destruct (is_digit c); simpl
           end;
    rewrite ?orb_false_r; reflexivity.
Qed.

Lemma run_digits_true (pos : nat) (s : string) (k : cont) :
  run (Rep 1 3 Digit) pos s k = true
  <-> exists g r, digit_group g = true /\ s = g ++ r
                  /\ k (String.length g + pos)%nat r = true.
Proof.
  rewrite run_digits. split.
  - intros H. apply orb_prop in H as [H|H]; [apply orb_prop in H as [H|H]|];
      match type of H with
      | match digits_then ?n s with _ => _ end = true =>
          destruct (digits_then n s) as [r|] eqn:E; [|discriminate];
          apply digits_then_spec in E as [g [L [A ->]]];
          exists g, r; unfold digit_group; rewrite L, A; auto
      end.
  - intros [g [r [G [-> K]]]]. unfold digit_group in G.
    apply andb_prop in G as [G A]. apply andb_prop in G as [L1 L3].
    apply Nat.leb_le in L1, L3.
    assert (E : digits_then (String.length g) (g ++ r) = Some r)
      by (apply digits_then_spec; exists g; auto).
    destruct (String.length g) as [|[|[|[|n]]]] eqn:L; try lia;
      rewrite E, K; rewrite ?orb_true_r; reflexivity.
Qed.

Lemma run_cat (r1 r2 : regex) (pos : nat) (s : string) (k : cont) :
  run (Cat r1 r2) pos s k = run r1 pos s (fun p' s' => run r2 p' s' k).
Proof. reflexivity. Qed.

Lemma run_group_dot (pos : nat) (s : string) (k : cont) :
  run group_dot pos s k = true
  <-> exists g r, digit_group g = true /\ s = g ++ "." ++ r
                  /\ k (S (String.length g + pos)) r = true.
Proof.
  unfold group_dot. rewrite run_cat, run_digits_true. split.
  - intros [g [r [G [-> K]]]]. destruct r as [|c r]; [discriminate|].
    apply andb_prop in K as [C K]. apply Ascii.eqb_eq in C. subst c.
    exists g, r. auto.
  - intros [g [r [G [-> K]]]]. exists g, ("." ++ r). simpl. auto.
Qed.

Lemma run_last_group (pos : nat) (s : string) :
  run last_group pos s (fun _ _ => true) = true
  <-> exists g, digit_group g = true
                /\ (s = g \/ s = g ++ String newline "").
Proof.
  unfold last_group. rewrite run_cat, run_digits_true. split.
  - intros [g [r [G [-> K]]]]. cbn [run] in K. rewrite andb_true_r in K.
    exists g. split; auto.
    destruct r as [|c [|c' r]]; simpl in K; try discriminate.
    + left. apply append_nil_r.
    + right. apply Ascii.eqb_eq in K. now subst c.
  - intros [g [G [-> | ->]]].
    + exists g, "". rewrite append_nil_r. auto.
    + exists g, (String newline ""). repeat split; auto.
Qed.

(** The pattern, unrolled: three times a group and a period, then a
    group and the end. *)
Lemma is_ip_address_unfold (s : string) :
  is_ip_address s
  = run group_dot 0 s (fun p1 s1 =>
      run group_dot p1 s1 (fun p2 s2 =>
        run group_dot p2 s2 (fun p3 s3 =>
          run last_group p3 s3 (fun _ _ => true)) || false) || false)
    || false.
Proof. reflexivity. Qed.

(** The pattern accepts four digit groups separated by periods, and also
    such a text followed by one newline. *)
Theorem is_ip_address_spec (s : string) :
  is_ip_address s = true
  <-> quad_with "" s \/ quad_with (String newline "") s.
Proof.
  rewrite is_ip_address_unfold.
  rewrite orb_false_r, run_group_dot. split.
  - intros [g1 [r1 [G1 [-> K]]]].
    rewrite orb_false_r in K. apply run_group_dot in K as [g2 [r2 [G2 [-> K]]]].
    rewrite orb_false_r in K. apply run_group_dot in K as [g3 [r3 [G3 [-> K]]]].
    apply run_last_group in K as [g4 [G4 [-> | ->]]].
    + left. exists g1, g2, g3, g4. rewrite append_nil_r. auto.
    + right. exists g1, g2, g3, g4. auto.
  - intros H.
    assert (G : exists g1 g2 g3 g4 t,
               digit_group g1 = true /\ digit_group g2 = true /\
               digit_group g3 = true /\ digit_group g4 = true /\
               (t = g4 \/ t = g4 ++ String newline "") /\
               s = g1 ++ "." ++ g2 ++ "." ++ g3 ++ "." ++ t).
    { destruct H as [H|H]; destruct H as [g1 [g2 [g3 [g4 [G1 [G2 [G3 [G4 ->]]]]]]]];
        exists g1, g2, g3, g4.
      - exists g4. rewrite append_nil_r. auto 10.
      - exists (g4 ++ String newline ""). auto 10. }
    destruct G as [g1 [g2 [g3 [g4 [t [G1 [G2 [G3 [G4 [T ->]]]]]]]]]].
    exists g1, (g2 ++ "." ++ g3 ++ "." ++ t). split; [exact G1|].
    split; [reflexivity|]. rewrite orb_false_r. apply run_group_dot.
    exists g2, (g3 ++ "." ++ t). split; [exact G2|]. split; [reflexivity|].
    rewrite orb_false_r. apply run_group_dot.
    exists g3, t. split; [exact G3|]. split; [reflexivity|].
    apply run_last_group. exists g4. auto.
Qed.

Lemma digit_not_dot (c : ascii) : is_digit c = true -> Ascii.eqb c "." = false.
Proof.
  intros D. destruct (Ascii.eqb_spec c "."%char) as [->|]; [discriminate|reflexivity].
Qed.

Lemma split_on_group (g rest : string) :
  all_digits g = true ->
  split_on "." (g ++ "." ++ rest) = g :: split_on "." rest.
Proof.
  induction g as [|c g IH]; intros A; [reflexivity|].
  simpl in A. apply andb_prop in A as [D A].
  cbn [append split_on]. rewrite (digit_not_dot c D).
  change (g ++ String "." rest) with (g ++ "." ++ rest).
  now rewrite IH.
Qed.

Lemma split_on_last (g : string) :
  all_digits g = true -> split_on "." g = [g].
Proof.
  induction g as [|c g IH]; intros A; [reflexivity|].
  simpl in A. apply andb_prop in A as [D A].
  cbn [split_on]. rewrite (digit_not_dot c D). now rewrite IH.
Qed.

Lemma split_on_nonempty (s : string) : split_on "." s <> [].
Proof.
  induction s as [|c s IH]; simpl; [discriminate|].
  destruct (Ascii.eqb c "."); [discriminate|].
  destruct (split_on "." s); [contradiction|discriminate].
Qed.

(** Splitting at the periods loses nothing. *)
Lemma join_split (s : string) : join_dots (split_on "." s) = s.
Proof.
  induction s as [|c s IH]; [reflexivity|]. cbn [split_on].
  destruct (Ascii.eqb_spec c "."%char) as [->|NE].
  - pose proof (split_on_nonempty s) as N.
    destruct (split_on "." s) as [|g gs]; [contradiction|].
    change (join_dots ("" :: g :: gs)) with ("" ++ "." ++ join_dots (g :: gs)).
    now rewrite IH.
  - pose proof (split_on_nonempty s) as N.
    destruct (split_on "." s) as [|g gs]; [contradiction|].
    destruct gs as [|g' gs].
    + simpl in *. now rewrite IH.
    + change (join_dots (String c g :: g' :: gs))
        with (String c (g ++ "." ++ join_dots (g' :: gs))).
      change (join_dots (g :: g' :: gs))
        with (g ++ "." ++ join_dots (g' :: gs)) in IH.
      now rewrite IH.
Qed.

Lemma digit_group_digits (g : string) :
  digit_group g = true -> all_digits g = true.
Proof. unfold digit_group. intros H. now apply andb_prop in H as [_ H]. Qed.

(** The classifier of the specification accepts exactly the four digit
    groups separated by periods. *)
Theorem dotted_quad_spec (s : string) :
  dotted_quad s = true <-> quad_with "" s.
Proof.
  unfold dotted_quad. split.
  - intros H. pose proof (join_split s) as J.
    destruct (split_on "." s) as [|a [|b [|c [|d [|e l]]]]]; try discriminate.
    apply andb_prop in H as [H Gd]. apply andb_prop in H as [H Gc].
    apply andb_prop in H as [Ga Gb].
    exists a, b, c, d. rewrite append_nil_r. simpl in J. auto 10.
  - intros [g1 [g2 [g3 [g4 [G1 [G2 [G3 [G4 ->]]]]]]]].
    rewrite append_nil_r.
    rewrite !split_on_group, split_on_last by now apply digit_group_digits.
    now rewrite G1, G2, G3, G4.
Qed.

(** The classifier of the code against the classifier of the
    specification: they agree except on a text that ends in a newline,
    where the code looks at the text before the newline. *)
Theorem is_ip_address_dotted_quad (s : string) :
  is_ip_address s = true
  <-> dotted_quad s = true
      \/ exists q, s = q ++ String newline "" /\ dotted_quad q = true.
Proof.
  rewrite is_ip_address_spec, dotted_quad_spec.
  apply or_iff_compat_l. split.
  - intros [g1 [g2 [g3 [g4 [G1 [G2 [G3 [G4 ->]]]]]]]].
    exists (g1 ++ "." ++ g2 ++ "." ++ g3 ++ "." ++ g4). split.
    + now rewrite !append_assoc.
    + apply dotted_quad_spec. exists g1, g2, g3, g4.
      rewrite append_nil_r. auto 10.
  - intros [q [-> Q]]. apply dotted_quad_spec in Q.
    destruct Q as [g1 [g2 [g3 [g4 [G1 [G2 [G3 [G4 ->]]]]]]]].
    exists g1, g2, g3, g4. rewrite append_nil_r, !append_assoc. auto 10.
Qed.

End ClassifierFacts.

(* ================================================================== *)
(** ** The target classifier on concrete texts *)

(** C9.  The classifier is a total function of the text and accepts
    "999.999.999.999"; but it does not accept exactly the four digit
    groups separated by periods: "1.2.3.4" followed by a newline is
    classified as an address by the code and is not a dotted quad. *)
Theorem trailing_newline_is_an_address :
  is_ip_address "999.999.999.999" = true /\
  dotted_quad "999.999.999.999" = true /\
  is_ip_address ("1.2.3.4" ++ String Re.newline "") = true /\
  dotted_quad ("1.2.3.4" ++ String Re.newline "") = false.
Proof. repeat split; reflexivity. Qed.

(* ================================================================== *)
(** ** Facts about whole runs *)

Module RunFacts.
Import Lifecycle.

Lemma http_requests_app : forall a b,
  http_requests (a ++ b) = http_requests a ++ http_requests b.
Proof. by_events. Qed.

Lemma service_lookups_app : forall a b,
  service_lookups (a ++ b) = service_lookups a ++ service_lookups b.
Proof. by_events. Qed.

Lemma whois_queries_app : forall a b,
  whois_queries (a ++ b) = whois_queries a ++ whois_queries b.
Proof. by_events. Qed.

Lemma file_writes_app : forall a b,
  file_writes (a ++ b) = file_writes a ++ file_writes b.
Proof. by_events. Qed.

(** What each kind of call leaves in each observation. *)
Lemma quiet_dns (tgt : string) (l : list string) :
  http_requests (map (DnsQuery tgt) l) = [] /\
  service_lookups (map (DnsQuery tgt) l) = [] /\
  file_writes (map (DnsQuery tgt) l) = [] /\
  whois_queries (map (DnsQuery tgt) l) = [] /\
  closes (map (DnsQuery tgt) l) = [].
Proof. induction l; simpl; auto. Qed.

Lemma quiet_servbyport (l : list Z) :
  http_requests (map ServByPort l) = [] /\
  file_writes (map ServByPort l) = [] /\
  whois_queries (map ServByPort l) = [] /\
  closes (map ServByPort l) = [] /\
  service_lookups (map ServByPort l) = l.
Proof.
  induction l as [|p l IH]; simpl; auto.
  destruct IH as (? & ? & ? & ? & ->). auto.
Qed.

Lemma quiet_http (tgt : string) (l : list string) :
  service_lookups (map (fun p => HttpGet (url_of p tgt) 5) l) = [] /\
  file_writes (map (fun p => HttpGet (url_of p tgt) 5) l) = [] /\
  whois_queries (map (fun p => HttpGet (url_of p tgt) 5) l) = [] /\
  closes (map (fun p => HttpGet (url_of p tgt) 5) l) = [].
Proof. induction l; simpl; auto. Qed.

Lemma quiet_socket_calls (es : list event) :
  forallb socket_call es = true ->
  http_requests es = [] /\
  service_lookups es = [] /\
  file_writes es = [] /\
  whois_queries es = [].
Proof.
  induction es as [|e es IH]; [simpl; auto|].
  cbn [forallb]. intros H. apply andb_prop in H as [H1 H2].
  destruct (IH H2) as (? & ? & ? & ?).
  destruct e; try discriminate; simpl; auto.
Qed.

Lemma quiet_probe (w : world) (ip : string) (ports : list Z) :
  http_requests (probe_events w ip ports) = [] /\
  service_lookups (probe_events w ip ports) = [] /\
  file_writes (probe_events w ip ports) = [] /\
  whois_queries (probe_events w ip ports) = [].
Proof. apply quiet_socket_calls, probe_socket_calls. Qed.

(** Labelling touches neither the report nor the disk. *)
Lemma service_loop_frame (w : world) (res : list (Z * bool)) : forall acc st,
  target (snd (service_loop w res acc st)) = target st /\
  results (snd (service_loop w res acc st)) = results st /\
  files (snd (service_loop w res acc st)) = files st.
Proof.
  induction res as [|[port op] res IH]; intros acc st; [simpl; auto|].
  cbn [service_loop]. destruct op; [|apply IH].
  unfold bind, try_except, call.
  destruct (getservbyport w port) as [s|e].
  - exact (IH (dict_set (KInt port) (VStr s) acc) (add_trace st [ServByPort port])).
  - destruct (caught ExceptOSError e); [|simpl; auto].
    unfold ret.
    exact (IH (dict_set (KInt port) (VStr "unknown") acc)
              (add_trace st [ServByPort port])).
Qed.

(** An exception of the services table that is no [OSError] ends the
    labelling. *)
Lemma service_loop_raises (w : world) (res : list (Z * bool)) : forall acc st,
  services_ok w (opened res) = false ->
  exists e, fst (service_loop w res acc st) = Raises e.
Proof.
  induction res as [|[port op] res IH]; intros acc st H;
    [discriminate|].
  simpl. destruct op; [|apply IH; exact H].
  change (opened ((port, true) :: res)) with (port :: opened res) in H.
  unfold services_ok in H. cbn [forallb] in H. fold (services_ok w (opened res)) in H.
  unfold bind, try_except, call at 1.
  destruct (getservbyport w port) as [s|e].
  - apply IH. exact H.
  - destruct (caught ExceptOSError e).
    + unfold ret. apply IH. exact H.
    + exists e. reflexivity.
Qed.

(** The port scan when [connect_ex] raises, or when the services table
    raises past the handler. *)
Lemma scan_ports_raises (w : world) (ports : list Z) (a : string) (st : state) :
  not_ip (Some a) = false ->
  connect_ok w a ports && services_ok w (filter (is_open w a) ports) = false ->
  exists e st' l,
    scan_ports w ports (Some a) st = (Raises e, st') /\
    target st' = target st /\ results st' = results st /\
    files st' = files st /\
    trace st' = trace st ++ probe_events w a ports ++ map ServByPort l.
Proof.
  intros N H. unfold scan_ports. rewrite N.
  destruct (connect_ok w a ports) eqn:C.
  - cbn [andb] in H. rewrite <- opened_port_results in H.
    unfold bind at 1. rewrite probe_spec by exact C. unfold bind at 1.
    destruct (service_loop_raises w (port_results w a ports) []
                (add_trace st (probe_events w a ports)) H) as [e He].
    destruct (service_loop_trace w (port_results w a ports) []
                (add_trace st (probe_events w a ports))) as [l Hl].
    destruct (service_loop_frame w (port_results w a ports) []
                (add_trace st (probe_events w a ports))) as (Ht & Hr & Hf).
    destruct (service_loop w (port_results w a ports) []
                (add_trace st (probe_events w a ports))) as [o st'].
    cbn [fst snd] in *. subst o.
    exists e, st', l. split; [reflexivity|].
    rewrite Ht, Hr, Hf, Hl. cbn [target results files trace add_trace].
    rewrite <- app_assoc. auto.
  - destruct (probe_raises w a ports st C) as [e E].
    exists e, (add_trace st (probe_events w a ports)), [].
    split; [apply bind_raises; exact E|].
    cbn [target results files trace add_trace map]. rewrite app_nil_r. auto.
Qed.

(** The tail of [run_recon] when the port scan raises: the run ends in
    the port scan. *)
Lemma after_get_ip_raises (w : world) (a : string) (st : state) :
  not_ip (Some a) = false ->
  scan_ok w a = false ->
  exists e st' l,
    after_get_ip w (Some a) st = (Raises e, st') /\
    files st' = files st /\
    trace st'
    = trace st
      ++ [WhoisQuery (target st)]
      ++ (if is_ip_address (target st) then []
          else map (DnsQuery (target st)) record_types)
      ++ probe_events w a common_ports
      ++ map ServByPort l.
Proof.
  intros N H. unfold after_get_ip. unfold scan_ok in H.
  rewrite open_ports_of_eq in H.
  erewrite bind_returns by apply get_whois_spec.
  erewrite bind_returns by apply get_dns_records_spec.
  cbn [target results trace files].
  match goal with
  | |- context [bind (scan_common_ports w (Some a)) _ ?s] =>
      destruct (scan_ports_raises w common_ports a s N H)
        as (e & st' & l & E & _ & _ & Hf & Hl)
  end.
  exists e, st', l. split.
  - apply bind_raises. exact E.
  - cbn [files trace] in Hf, Hl. rewrite Hf, Hl, <- !app_assoc. auto.
Qed.

Lemma run_completes_ok (w : world) (tgt : string) :
  run_completes w tgt = run_ok w tgt.
Proof. reflexivity. Qed.

(** [run_recon] on a tool whose results are empty, when no call raises
    past its handler. *)
Lemma run_recon_exact (w : world) (st : state) :
  results st = [] ->
  run_completes w (target st) = true ->
  run_recon w st
  = (Returns tt,
     mkState (target st) (report_results w (target st))
             (trace st ++ run_trace w (target st))
             (file_write w (target st ++ "_recon.json")
                         (Json.dumps (report w (target st))) (files st))).
Proof.
  intros R H. rewrite run_completes_ok in H. unfold run_ok, writable in H.
  apply andb_prop in H as [H1 H2].
  rewrite run_recon_collected by assumption.
  destruct (open_w w (target st ++ "_recon.json")); [reflexivity|discriminate].
Qed.

(** [run_recon] when the file cannot be opened: every collector has
    run, and nothing is written. *)
Lemma run_recon_unwritable (w : world) (st : state) :
  results st = [] ->
  collectors_ok w (target st) = true ->
  writable w (target st) = false ->
  exists e,
    run_recon w st
    = (Raises e,
       mkState (target st) (report_results w (target st))
               (trace st ++ run_trace w (target st)) (files st)).
Proof.
  intros R H1 H2. rewrite run_recon_collected by assumption.
  unfold writable in H2.
  destruct (open_w w (target st ++ "_recon.json")) as [u|e];
    [discriminate|]. now exists e.
Qed.

Lemma connects_scan_events (w : world) (tgt : string) :
  attempts_listed w tgt (connects (scan_events w tgt)).
Proof.
  unfold attempts_listed, scan_events.
  destruct (resolved w tgt) as [a|]; [|reflexivity].
  destruct (not_ip (Some a)); [reflexivity|].
  rewrite connects_app, connects_servbyport, app_nil_r.
  destruct (connects_probe w a common_ports) as (m & Hm & P & Hall & Hpos).
  exists m. repeat split; auto. apply Hpos. discriminate.
Qed.

Lemma connects_run_trace (w : world) (tgt : string) :
  connects (run_trace w tgt) = connects (scan_events w tgt).
Proof.
  unfold run_trace. rewrite !connects_app, connects_http.
  assert (D : connects (if is_ip_address tgt then []
                        else map (DnsQuery tgt) record_types) = [])
    by (destruct (is_ip_address tgt); [reflexivity|apply connects_dns]).
  assert (G : connects (if is_ip_address tgt then [] else [GetHostByName tgt]) = [])
    by (destruct (is_ip_address tgt); reflexivity).
  rewrite D, G. cbn [connects app]. now rewrite ?app_nil_r.
Qed.

(** [run_recon] when a collector raises past its handler: the run ends
    there, before any HTTP request and before the file is opened. *)
Lemma run_recon_aborts (w : world) (st : state) :
  collectors_ok w (target st) = false ->
  exists e st' tr',
    run_recon w st = (Raises e, st') /\
    files st' = files st /\
    trace st' = trace st ++ tr' /\
    http_requests tr' = [] /\
    file_writes tr' = [] /\
    attempts_listed w (target st) (connects tr').
Proof.
  destruct st as [tgt rs tr fs]. cbn [results target trace files].
  intros H. unfold collectors_ok in H.
  change (run_recon w (mkState tgt rs tr fs))
    with (bind (get_ip w) (after_get_ip w) (mkState tgt rs tr fs)).
  assert (Tail : forall a st1 pre,
            target st1 = tgt -> files st1 = fs -> trace st1 = tr ++ pre ->
            http_requests pre = [] -> file_writes pre = [] -> connects pre = [] ->
            resolved w tgt = Some a ->
            not_ip (Some a) || scan_ok w a = false ->
            exists e st' tr',
              after_get_ip w (Some a) st1 = (Raises e, st') /\
              files st' = fs /\ trace st' = tr ++ tr' /\
              http_requests tr' = [] /\ file_writes tr' = [] /\
              attempts_listed w tgt (connects tr')).
  { intros a st1 pre Ht Hf Htr Q1 Q2 Q3 R Hbad.
    apply orb_false_elim in Hbad as [N S].
    destruct (after_get_ip_raises w a st1 N S) as (e & st' & l & E & Ef & Et).
    exists e, st'. eexists. split; [exact E|]. split; [congruence|].
    rewrite Et, Htr, Ht. split; [rewrite <- app_assoc; reflexivity|].
    destruct (quiet_dns tgt record_types) as (D1 & _ & D3 & _).
    destruct (quiet_probe w a common_ports) as (P1 & _ & P3 & _).
    destruct (quiet_servbyport l) as (S1 & S3 & _).
    rewrite !http_requests_app, !file_writes_app, !connects_app.
    rewrite Q1, Q2, Q3, P1, P3, S1, S3, connects_servbyport.
    assert (A : attempts_listed w tgt (connects (probe_events w a common_ports))).
    { pose proof (connects_scan_events w tgt) as A.
      unfold attempts_listed, scan_events in *. rewrite R, N in *.
      now rewrite connects_app, connects_servbyport, app_nil_r in A. }
    destruct (is_ip_address tgt); cbn [connects app http_requests file_writes];
      rewrite ?D1, ?D3, ?connects_dns, ?app_nil_r; auto. }
  unfold resolver_ok, resolved in *.
  destruct (is_ip_address tgt) eqn:IP.
  - cbn [orb andb] in H.
    erewrite bind_returns by (apply get_ip_address; exact IP).
    destruct (Tail tgt (mkState tgt rs tr fs) [])
      as (e & st' & tr' & E & R); auto using app_nil_r;
      try (cbn [trace]; now rewrite app_nil_r).
    exists e, st', tr'. auto.
  - destruct (gethostbyname w tgt) as [ip|e] eqn:G.
    + cbn [orb andb] in H.
      erewrite bind_returns by (apply get_ip_resolved; [exact IP | exact G]).
      cbn [target].
      destruct (Tail ip (mkState tgt (dict_set (KStr "ip_address") (VStr ip) rs)
                                 (tr ++ [GetHostByName tgt]) fs)
                     [GetHostByName tgt])
        as (e & st' & tr' & E & R); auto.
      exists e, st', tr'. auto.
    + rewrite andb_true_r in H. cbn [orb] in H.
      exists e, (add_trace (mkState tgt rs tr fs) [GetHostByName tgt]),
        [GetHostByName tgt].
      split; [|repeat split; try reflexivity].
      * apply bind_raises.
        rewrite get_ip_raised with (e := e) by (try exact IP; exact G).
        now rewrite H.
      * unfold attempts_listed, resolved. cbn [target]. now rewrite IP, G.
Qed.

End RunFacts.

(* ================================================================== *)
(** ** Further properties of the collectors and of the run *)

Import Lifecycle RunFacts.

(** X1.  [get_whois] never raises, whatever the WHOIS call does, and makes
    exactly one query, for an address target as for a hostname.  When the
    call raises, [whois] is "Lookup failed".  When it answers, [whois] is
    a dict of the five keys registrar, creation_date, expiration_date,
    name_servers and emails, in this order, and its [emails] is never
    [None] nor the empty string: a missing or empty value is recorded as
    the empty list. *)
Theorem whois_collector_contract (w : world) (st : state) :
  let r := get_whois w st in
  fst r = Returns tt /\
  trace (snd r) = trace st ++ [WhoisQuery (target st)] /\
  match whois_whois w (target st) with
  | Raises _ => report_field "whois" (snd r) = Some (VStr "Lookup failed")
  | Returns i =>
      exists e,
        report_field "whois" (snd r)
        = Some (VDict [(KStr "registrar", attr_value (registrar i));
                       (KStr "creation_date", VStr (creation_date i));
                       (KStr "expiration_date", VStr (expiration_date i));
                       (KStr "name_servers", attr_value (name_servers i));
                       (KStr "emails", e)]) /\
        e <> VNone /\ e <> VStr "" /\
        (e = attr_value (emails i) \/
         (e = VList [] /\ truthy (attr_value (emails i)) = false))
  end.
Proof.
  intros r. unfold r. rewrite get_whois_spec. cbn [fst snd trace].
  split; [reflexivity|]. split; [reflexivity|].
  unfold report_field. cbn [results]. rewrite dict_get_set_same.
  unfold whois_value. destruct (whois_whois w (target st)) as [i|e];
    [|reflexivity].
  unfold simplified_whois.
  destruct (truthy (attr_value (emails i))) eqn:T.
  - exists (attr_value (emails i)). split; [reflexivity|].
    repeat split; try (intros E; rewrite E in T; discriminate). now left.
  - exists (VList []). split; [reflexivity|].
    repeat split; try discriminate. now right.
Qed.

(** X2.  A run completes exactly when the calls made outside a handler
    that catches what they raise all answer: the resolver answers or
    raises [socket.gaierror], [connect_ex] returns on each of the twenty
    ports of a scan, the services table answers or raises [OSError] on
    every port found open, and the output file opens for writing.  What
    the WHOIS, DNS and HTTP calls do never decides whether the run
    completes.  Writing into the opened file is taken to succeed. *)
Theorem run_returns_iff (w : world) (tgt : string) :
  fst (main w tgt) = Returns tt <-> run_completes w tgt = true.
Proof.
  change (main w tgt) with (run_recon w (set_target tgt)). split.
  - intros H. destruct (run_completes w tgt) eqn:C; [reflexivity|].
    rewrite run_completes_ok in C. unfold run_ok in C.
    destruct (collectors_ok w tgt) eqn:K.
    + cbn [andb] in C.
      destruct (run_recon_unwritable w (set_target tgt) eq_refl K C) as [e E].
      rewrite E in H. discriminate.
    + destruct (run_recon_aborts w (set_target tgt) K)
        as (e & st' & tr' & E & _).
      rewrite E in H. discriminate.
  - intros C. rewrite run_recon_exact by (try reflexivity; exact C).
    reflexivity.
Qed.

(** The four ways in which a run does not complete. *)
Example runs_that_raise :
  fst (main unencodable "a..b") = Raises OtherException /\
  fst (main Samples.web "999.999.999.999") = Raises Gaierror /\
  fst (main broken_services "example.com") = Raises OtherException /\
  fst (main Samples.web "http://example.com") = Raises OSError /\
  fst (main Samples.dark "example.test") = Returns tt.
Proof. vm_compute. repeat split. Qed.

(** X3.  When a collector raises past its handler (the resolver an error
    other than [socket.gaierror], [connect_ex] any error, the services
    table an error other than [OSError] on a port found open), the run
    raises at that call: no HTTP request is made and no file is written,
    so the report of the collectors that did run is lost. *)
Theorem aborted_run_writes_nothing (w : world) (tgt : string) :
  collectors_ok w tgt = false ->
  exists e,
    fst (main w tgt) = Raises e /\
    files (snd (main w tgt)) = [] /\
    file_writes (trace (snd (main w tgt))) = [] /\
    http_requests (trace (snd (main w tgt))) = [].
Proof.
  change (main w tgt) with (run_recon w (set_target tgt)). intros C.
  destruct (run_recon_aborts w (set_target tgt) C)
    as (e & st' & tr' & E & Hf & Ht & Hh & Hw & _).
  exists e. rewrite E. cbn [fst snd]. cbn [set_target files trace app] in Hf, Ht.
  rewrite Hf, Ht. auto.
Qed.

Lemma aborted_run_writes_nothing_witness :
  collectors_ok broken_services "example.com" = false /\
  exists e,
    fst (main broken_services "example.com") = Raises e /\
    files (snd (main broken_services "example.com")) = [] /\
    file_writes (trace (snd (main broken_services "example.com"))) = [] /\
    http_requests (trace (snd (main broken_services "example.com"))) = [].
Proof.
  assert (C : collectors_ok broken_services "example.com" = false)
    by (vm_compute; reflexivity).
  split; [exact C|].
  exact (aborted_run_writes_nothing broken_services "example.com" C).
Defined.

(** The run on the sample host with the broken services table had got as
    far as labelling the second open port. *)
Example broken_services_stops_at_port_80 :
  service_lookups (trace (snd (main broken_services "example.com"))) = [22%Z; 80%Z] /\
  report_field "port_scan" (snd (main broken_services "example.com")) = None /\
  fst (main unencodable "a..b") = Raises OtherException /\
  trace (snd (main unencodable "a..b")) = [GetHostByName "a..b"].
Proof. vm_compute. repeat split. Qed.

Lemma scan_ports_results (w : world) (ports : list Z) (ip : option string)
      (st : state) :
  target (snd (scan_ports w ports ip st)) = target st /\
  files (snd (scan_ports w ports ip st)) = files st /\
  (results (snd (scan_ports w ports ip st)) = results st \/
   exists v, results (snd (scan_ports w ports ip st))
             = dict_set (KStr "port_scan") v (results st)).
Proof.
  destruct (not_ip ip) eqn:N.
  - rewrite scan_ports_skip by exact N. cbn. eauto.
  - destruct ip as [a|]; [|discriminate].
    destruct (connect_ok w a ports
              && services_ok w (filter (is_open w a) ports)) eqn:S.
    + apply andb_prop in S as [S1 S2].
      rewrite scan_ports_spec by assumption. cbn [snd target files results].
      eauto.
    + destruct (scan_ports_raises w ports a st N S)
        as (e & st' & l & E & Ht & Hr & Hf & _).
      rewrite E. cbn [snd]. auto.
Qed.

(** X4.  Each collector writes its own field of the report and no other:
    [get_ip] only [ip_address], [get_whois] only [whois],
    [get_dns_records] only [dns_records], [scan_common_ports] only
    [port_scan], [get_http_headers] only [https_headers] or
    [http_headers], and [save_results] none; this holds also when a
    collector, or the opening of the file, raises.  None of them changes
    the target. *)
Theorem collectors_keep_other_fields (w : world) (st : state) (k : string) :
  (k <> "ip_address" ->
   report_field k (snd (get_ip w st)) = report_field k st) /\
  (k <> "whois" ->
   report_field k (snd (get_whois w st)) = report_field k st) /\
  (k <> "dns_records" ->
   report_field k (snd (get_dns_records w st)) = report_field k st) /\
  (k <> "port_scan" ->
   forall ip, report_field k (snd (scan_common_ports w ip st)) = report_field k st) /\
  (k <> "https_headers" -> k <> "http_headers" ->
   report_field k (snd (get_http_headers w st)) = report_field k st) /\
  report_field k (snd (save_results w st)) = report_field k st /\
  target (snd (get_ip w st)) = target st /\
  target (snd (get_whois w st)) = target st /\
  target (snd (get_dns_records w st)) = target st /\
  (forall ip, target (snd (scan_common_ports w ip st)) = target st) /\
  target (snd (get_http_headers w st)) = target st /\
  target (snd (save_results w st)) = target st.
Proof.
  assert (O : forall k' v d, k <> k' ->
            dict_get (KStr k) (dict_set (KStr k') v d) = dict_get (KStr k) d).
  { intros k' v d NE. apply dict_get_set_other. intros [= E]. auto. }
  assert (IPs : (k <> "ip_address" ->
                 report_field k (snd (get_ip w st)) = report_field k st)
                /\ target (snd (get_ip w st)) = target st).
  { unfold report_field. destruct (is_ip_address (target st)) eqn:IP.
    - rewrite get_ip_address by exact IP. auto.
    - destruct (gethostbyname w (target st)) as [ip|e] eqn:G.
      + rewrite get_ip_resolved with (ip := ip) by assumption.
        cbn [snd results target]. auto.
      + rewrite get_ip_raised with (e := e) by assumption.
        destruct (caught ExceptGaierror e); cbn [snd results target add_trace];
          auto. }
  assert (Sc : forall ip,
            (k <> "port_scan" ->
             report_field k (snd (scan_common_ports w ip st)) = report_field k st)
            /\ target (snd (scan_common_ports w ip st)) = target st).
  { intros ip. unfold scan_common_ports, report_field.
    destruct (scan_ports_results w common_ports ip st) as (Ht & _ & [Hr|[v Hr]]);
      rewrite Hr; auto. }
  assert (Ht : (k <> "https_headers" -> k <> "http_headers" ->
                report_field k (snd (get_http_headers w st)) = report_field k st)
               /\ target (snd (get_http_headers w st)) = target st).
  { rewrite get_http_headers_spec, http_loop_spec. cbn [snd target].
    unfold report_field. cbn [results]. split; [|reflexivity].
    intros N1 N2.
    destruct (first_success w (target st) protocols) as [[p hs]|] eqn:F;
      [|reflexivity].
    apply first_success_protocols in F as [-> | ->]; apply O; assumption. }
  assert (Sv : results (snd (save_results w st)) = results st
               /\ target (snd (save_results w st)) = target st).
  { rewrite save_results_spec.
    destruct (open_w w (target st ++ "_recon.json")); auto. }
  rewrite get_whois_spec, get_dns_records_spec.
  unfold report_field. cbn [snd results target].
  destruct IPs, Ht, Sv as [-> ->].
  repeat split; auto; try (intros; apply Sc; assumption);
    try (intros ip; apply Sc).
Qed.

Lemma dict_get_labelled (w : world) (p : Z) (l : list Z) : forall acc,
  dict_get (KInt p) (labelled w l acc)
  = if existsb (Z.eqb p) l then Some (VStr (service_label w p))
    else dict_get (KInt p) acc.
Proof.
  induction l as [|q l IH]; intros acc; [reflexivity|].
  change (labelled w (q :: l) acc)
    with (labelled w l (dict_set (KInt q) (VStr (service_label w q)) acc)).
  rewrite IH. cbn [existsb].
  destruct (existsb (Z.eqb p) l); [now rewrite orb_true_r|].
  rewrite orb_false_r. destruct (Z.eqb_spec p q) as [->|NE].
  - apply dict_get_set_same.
  - apply dict_get_set_other. intros [= E]. auto.
Qed.

Lemma existsb_filter (p : Z) (f : Z -> bool) (l : list Z) :
  existsb (Z.eqb p) (filter f l) = existsb (Z.eqb p) l && f p.
Proof.
  induction l as [|q l IH]; [reflexivity|]. cbn [filter existsb].
  destruct (f q) eqn:F; cbn [existsb]; rewrite IH.
  - destruct (Z.eqb_spec p q) as [->|NE]; [now rewrite F|reflexivity].
  - destruct (Z.eqb_spec p q) as [->|NE]; [|reflexivity].
    rewrite F, !andb_false_r. reflexivity.
Qed.

(** X5.  After a scan of a resolved address in which every connection
    attempt returned, [port_scan] maps a port to a label exactly when the
    port is one of the twenty listed and its connection attempt returned
    0; the label is the answer of the services table, or "unknown" when
    the table raises [OSError].  A closed port has no entry, and the
    services table is asked about the open ports only, once each, in list
    order. *)
Theorem port_scan_lists_open_ports
        (w : world) (ip : string) (st : state) (p : Z) :
  not_ip (Some ip) = false ->
  connect_ok w ip common_ports = true ->
  services_ok w (open_ports_of w ip) = true ->
  let r := scan_common_ports w (Some ip) st in
  exists d,
    report_field "port_scan" (snd r) = Some (VDict d) /\
    dict_get (KInt p) d
    = (if existsb (Z.eqb p) common_ports && is_open w ip p
       then Some (VStr (match getservbyport w p with
                        | Returns s => s
                        | Raises _ => "unknown"
                        end))
       else None) /\
    service_lookups (trace (snd r))
    = service_lookups (trace st) ++ filter (is_open w ip) common_ports.
Proof.
  intros N C S r. unfold r, scan_common_ports.
  rewrite open_ports_of_eq in S.
  rewrite scan_ports_spec by assumption. cbn [snd trace].
  unfold report_field. cbn [results]. rewrite dict_get_set_same.
  eexists. split; [reflexivity|].
  split.
  - rewrite dict_get_labelled, existsb_filter. reflexivity.
  - rewrite !service_lookups_app.
    destruct (quiet_probe w ip common_ports) as (_ & P & _).
    destruct (quiet_servbyport (filter (is_open w ip) common_ports))
      as (_ & _ & _ & _ & Q).
    now rewrite P, Q.
Qed.

Lemma port_scan_lists_open_ports_witness :
  not_ip (Some "93.184.216.34") = false /\
  connect_ok Samples.web "93.184.216.34" common_ports = true /\
  services_ok Samples.web (open_ports_of Samples.web "93.184.216.34") = true /\
  let r := scan_common_ports Samples.web (Some "93.184.216.34")
                             (set_target "example.com") in
  exists d,
    report_field "port_scan" (snd r) = Some (VDict d) /\
    dict_get (KInt 22) d
    = (if existsb (Z.eqb 22) common_ports && is_open Samples.web "93.184.216.34" 22
       then Some (VStr (match getservbyport Samples.web 22 with
                        | Returns s => s
                        | Raises _ => "unknown"
                        end))
       else None) /\
    service_lookups (trace (snd r))
    = service_lookups (trace (set_target "example.com"))
      ++ filter (is_open Samples.web "93.184.216.34") common_ports.
Proof.
  split; [reflexivity|]. split; [reflexivity|]. split; [reflexivity|].
  apply (port_scan_lists_open_ports Samples.web "93.184.216.34"
           (set_target "example.com") 22); reflexivity.
Defined.

Lemma servbyport_no_socket (l : list Z) :
  closes (map ServByPort l) = [] /\
  opens (map ServByPort l) = [] /\
  returned (map ServByPort l) = [] /\
  raised (map ServByPort l) = [] /\
  conn_in_flight (map ServByPort l) = 0%Z.
Proof. induction l; simpl; auto. Qed.

(** X7.  A scan closes the socket of an attempt exactly when its
    [connect_ex] returned: under every schedule, the sockets closed are
    those of the attempts that returned, the sockets made are those of
    the attempts begun, and by the end of the scan every attempt begun
    has returned or raised.  The socket of an attempt whose [connect_ex]
    raised is made and never closed. *)
Theorem sockets_closed_when_connect_returns
        (w : world) (ip : option string) (st : state) :
  exists es,
    trace (snd (scan_common_ports w ip st)) = trace st ++ es /\
    Permutation (closes es) (returned es) /\
    Permutation (opens es) (map snd (connects es)) /\
    Permutation (opens es) (returned es ++ raised es) /\
    conn_in_flight es = 0%Z.
Proof.
  unfold scan_common_ports.
  destruct (scan_ports_trace w common_ports ip st) as [l Hl].
  eexists. split; [exact Hl|].
  destruct (servbyport_no_socket l) as (S1 & S2 & S3 & S4 & S5).
  rewrite closes_app, opens_app, returned_app, raised_app, connects_app,
    conn_in_flight_app, S1, S2, S3, S4, S5, connects_servbyport.
  rewrite !app_nil_r, Z.add_0_r.
  destruct (not_ip ip) eqn:N; [cbn; repeat split; apply perm_nil|].
  destruct ip as [a|]; [|discriminate N].
  destruct (opens_probe w a common_ports) as [O1 O2].
  repeat split; auto using closes_probe, in_flight_probe_end.
Qed.

(** X8.  A run connects nowhere but to the address it resolved, and only
    on ports of the fixed list: it makes one attempt on each of the first
    [m] ports of the list, for some [m] of 1 to 20, in the order the pool
    takes them, and on all twenty when every [connect_ex] returns; when
    resolution fails, or raises, it makes no connection attempt at all.
    This holds whether the run completes or raises. *)
Theorem run_connects_only_to_listed_ports (w : world) (tgt : string) :
  attempts_listed w tgt (connects (trace (snd (main w tgt)))).
Proof.
  change (main w tgt) with (run_recon w (set_target tgt)).
  destruct (collectors_ok w tgt) eqn:C.
  - rewrite run_recon_collected by (try reflexivity; exact C).
    cbn [set_target target trace files app].
    assert (A : attempts_listed w tgt (connects (run_trace w tgt)))
      by (rewrite connects_run_trace; apply connects_scan_events).
    destruct (open_w w (tgt ++ "_recon.json")); exact A.
  - destruct (run_recon_aborts w (set_target tgt) C)
      as (e & st' & tr' & E & _ & Ht & _ & _ & Hc).
    rewrite E. cbn [snd]. cbn [set_target trace target app] in Ht, Hc.
    rewrite Ht. exact Hc.
Qed.

(** On the sample host the run attempts the twenty ports; with connect
    calls that raise and an iterator quick to cancel, two of them. *)
Example attempts_of_sample_runs :
  length (connects (trace (snd (main Samples.web "example.com")))) = 20%nat /\
  length (connects (trace (snd (main Samples.web_cancelling
                                      "999.999.999.999")))) = 2%nat.
Proof. vm_compute. split; reflexivity. Qed.

Section Reschedule.
Variable w : world.
Variable s : list nat.

Lemma open_ports_of_reschedule (a : string) :
  open_ports_of (reschedule s w) a = open_ports_of w a.
Proof. rewrite !open_ports_of_eq. apply filter_ext. intros p. reflexivity. Qed.

Lemma labelled_reschedule (l : list Z) (acc : dict) :
  labelled (reschedule s w) l acc = labelled w l acc.
Proof. reflexivity. Qed.

Lemma services_ok_reschedule (l : list Z) :
  services_ok (reschedule s w) l = services_ok w l.
Proof. reflexivity. Qed.

Lemma dns_answers_reschedule (tgt : string) (types : list string) (acc : dict) :
  dns_answers (reschedule s w) tgt types acc = dns_answers w tgt types acc.
Proof. reflexivity. Qed.

Lemma first_success_reschedule (tgt : string) (ps : list string) :
  first_success (reschedule s w) tgt ps = first_success w tgt ps.
Proof. induction ps as [|p ps IH]; [reflexivity|]. simpl. now rewrite IH. Qed.

Lemma resolved_reschedule (tgt : string) :
  resolved (reschedule s w) tgt = resolved w tgt.
Proof. reflexivity. Qed.

Lemma port_value_reschedule (tgt : string) :
  port_value (reschedule s w) tgt = port_value w tgt.
Proof.
  unfold port_value. rewrite resolved_reschedule.
  destruct (resolved w tgt) as [a|]; [|reflexivity].
  now rewrite open_ports_of_reschedule, labelled_reschedule.
Qed.

Lemma report_results_reschedule (tgt : string) :
  report_results (reschedule s w) tgt = report_results w tgt.
Proof.
  unfold report_results, dns_value.
  rewrite port_value_reschedule, first_success_reschedule,
    dns_answers_reschedule.
  reflexivity.
Qed.

Lemma run_completes_reschedule (tgt : string) :
  run_completes (reschedule s w) tgt = run_completes w tgt.
Proof.
  unfold run_completes. rewrite resolved_reschedule.
  destruct (resolved w tgt) as [a|]; [|reflexivity].
  now rewrite open_ports_of_reschedule, services_ok_reschedule.
Qed.

End Reschedule.

(** X9.  The report and the file of a run that completes do not depend on
    the schedule of the thread pool. *)
Theorem report_independent_of_schedule
        (w : world) (tgt : string) (s : list nat) :
  run_completes w tgt = true ->
  fst (main (reschedule s w) tgt) = Returns tt /\
  results (snd (main (reschedule s w) tgt)) = results (snd (main w tgt)) /\
  files (snd (main (reschedule s w) tgt)) = files (snd (main w tgt)).
Proof.
  intros C.
  assert (C' : run_completes (reschedule s w) tgt = true)
    by (rewrite run_completes_reschedule; exact C).
  change (main (reschedule s w) tgt)
    with (run_recon (reschedule s w) (set_target tgt)).
  change (main w tgt) with (run_recon w (set_target tgt)).
  rewrite (run_recon_exact (reschedule s w) (set_target tgt) eq_refl C').
  rewrite (run_recon_exact w (set_target tgt) eq_refl C).
  cbn [fst snd results files]. unfold report.
  rewrite report_results_reschedule. auto.
Qed.

Lemma report_independent_of_schedule_witness :
  run_completes Samples.web "example.com" = true /\
  fst (main (reschedule [7; 0; 3]%nat Samples.web) "example.com") = Returns tt /\
  results (snd (main (reschedule [7; 0; 3]%nat Samples.web) "example.com"))
  = results (snd (main Samples.web "example.com")) /\
  files (snd (main (reschedule [7; 0; 3]%nat Samples.web) "example.com"))
  = files (snd (main Samples.web "example.com")).
Proof.
  assert (C : run_completes Samples.web "example.com" = true)
    by (vm_compute; reflexivity).
  split; [exact C|].
  exact (report_independent_of_schedule Samples.web "example.com"
           [7; 0; 3]%nat C).
Defined.

(** X10.  A tool that is given a second target writes a second file:
    after two runs that complete, the file of the second target holds the
    second report; the file of the first target still holds the first
    report when the two names denote different files; and when they
    denote one file, as they do when the targets are the same, that file
    holds the second report only. *)
Theorem one_file_per_target (w1 w2 : world) (t1 t2 : string) :
  (forall name, realpath w2 name = realpath w1 name) ->
  run_completes w1 t1 = true ->
  run_completes w2 t2 = true ->
  let st1 := snd (main w1 t1) in
  let st2 := snd (run_recon w2 (retarget t2 st1)) in
  file_named w2 (t2 ++ "_recon.json") (files st2)
  = Some (Json.dumps (report w2 t2)) /\
  if String.eqb (realpath w1 (t1 ++ "_recon.json"))
                (realpath w1 (t2 ++ "_recon.json"))
  then file_named w2 (t1 ++ "_recon.json") (files st2)
       = Some (Json.dumps (report w2 t2))
       /\ length (files st2) = 1%nat
  else file_named w2 (t1 ++ "_recon.json") (files st2)
       = Some (Json.dumps (report w1 t1))
       /\ length (files st2) = 2%nat.
Proof.
  intros Hfs C1 C2 st1 st2. unfold st2, st1.
  change (main w1 t1) with (run_recon w1 (set_target t1)).
  rewrite (run_recon_exact w1 (set_target t1) eq_refl C1). cbn [snd].
  rewrite run_recon_exact by (try reflexivity; exact C2).
  cbn [snd files retarget set_target target].
  unfold file_write, file_named. cbn [filter find fst snd].
  rewrite !Hfs, !String.eqb_refl. split; [reflexivity|].
  destruct (String.eqb (realpath w1 (t1 ++ "_recon.json"))
                       (realpath w1 (t2 ++ "_recon.json"))) eqn:E.
  - cbn [negb find fst snd].
    rewrite (String.eqb_sym (realpath w1 (t2 ++ "_recon.json"))), E. auto.
  - cbn [negb find fst snd].
    rewrite (String.eqb_sym (realpath w1 (t2 ++ "_recon.json"))), E.
    cbn [find fst snd]. rewrite Hfs, String.eqb_refl. auto.
Qed.

Lemma one_file_per_target_witness :
  (forall name, realpath Samples.dark name = realpath Samples.web name) /\
  run_completes Samples.web "example.com" = true /\
  run_completes Samples.dark "example.test" = true /\
  let st1 := snd (main Samples.web "example.com") in
  let st2 := snd (run_recon Samples.dark (retarget "example.test" st1)) in
  file_named Samples.dark "example.test_recon.json" (files st2)
  = Some (Json.dumps (report Samples.dark "example.test")) /\
  if String.eqb (realpath Samples.web "example.com_recon.json")
                (realpath Samples.web "example.test_recon.json")
  then file_named Samples.dark "example.com_recon.json" (files st2)
       = Some (Json.dumps (report Samples.dark "example.test"))
       /\ length (files st2) = 1%nat
  else file_named Samples.dark "example.com_recon.json" (files st2)
       = Some (Json.dumps (report Samples.web "example.com"))
       /\ length (files st2) = 2%nat.
Proof.
  assert (F : forall name, realpath Samples.dark name = realpath Samples.web name)
    by reflexivity.
  assert (C1 : run_completes Samples.web "example.com" = true)
    by (vm_compute; reflexivity).
  assert (C2 : run_completes Samples.dark "example.test" = true)
    by (vm_compute; reflexivity).
  split; [exact F|]. split; [exact C1|]. split; [exact C2|].
  exact (one_file_per_target Samples.web Samples.dark
           "example.com" "example.test" F C1 C2).
Defined.

(** Two targets that differ, on a file system that does not tell the
    case of letters: the second run replaces the file of the first. *)
Example targets_that_name_one_file :
  let st1 := snd (main case_blind "Example.com") in
  let st2 := snd (run_recon case_blind (retarget "example.com" st1)) in
  length (files st1) = 1%nat /\
  length (files st2) = 1%nat /\
  file_named case_blind "Example.com_recon.json" (files st2)
  = Some (Json.dumps (report case_blind "example.com")).
Proof. vm_compute. repeat split. Qed.

(** X11.  [set_target] starts the report again: a run on a tool that has
    run before completes with the report a fresh tool would give for the
    same target, with no field of the earlier run left in it, and adds
    its external calls after the earlier ones. *)
Theorem second_run_starts_afresh (w : world) (tgt : string) (st : state) :
  run_completes w tgt = true ->
  let r := run_recon w (retarget tgt st) in
  fst r = Returns tt /\
  output (snd r) = output (snd (main w tgt)) /\
  trace (snd r) = trace st ++ trace (snd (main w tgt)).
Proof.
  intros C r. unfold r.
  change (main w tgt) with (run_recon w (set_target tgt)).
  rewrite (run_recon_exact w (set_target tgt) eq_refl C).
  rewrite run_recon_exact by (try reflexivity; exact C).
  cbn [fst snd retarget set_target target trace app]. unfold output.
  cbn [target results]. auto.
Qed.

Lemma second_run_starts_afresh_witness :
  run_completes Samples.dark "93.184.216.34" = true /\
  let r := run_recon Samples.dark
             (retarget "93.184.216.34" (snd (main Samples.web "example.com"))) in
  fst r = Returns tt /\
  output (snd r) = output (snd (main Samples.dark "93.184.216.34")) /\
  trace (snd r)
  = trace (snd (main Samples.web "example.com"))
    ++ trace (snd (main Samples.dark "93.184.216.34")).
Proof.
  assert (C : run_completes Samples.dark "93.184.216.34" = true)
    by (vm_compute; reflexivity).
  split; [exact C|].
  exact (second_run_starts_afresh Samples.dark "93.184.216.34"
           (snd (main Samples.web "example.com")) C).
Defined.

(** The address of the first run is not in the report of the second. *)
Example second_report_has_no_old_address :
  report_field "ip_address" (snd (main Samples.web "example.com"))
  = Some (VStr "93.184.216.34") /\
  report_field "ip_address"
    (snd (run_recon Samples.dark
            (retarget "93.184.216.34" (snd (main Samples.web "example.com")))))
  = None.
Proof. vm_compute. split; reflexivity. Qed.

Lemma dns_answers_new (w : world) (tgt : string) (types : list string) :
  forall acc,
    NoDup types ->
    (forall rt, In rt types -> ~ In (KStr rt) (keys acc)) ->
    dns_answers w tgt types acc
    = acc ++ map (fun rt => (KStr rt, records w tgt rt))
                 (filter (answered w tgt) types).
Proof.
  induction types as [|t types IH]; intros acc ND Hacc.
  - simpl. now rewrite app_nil_r.
  - inversion ND as [|? ? Ht ND']; subst.
    rewrite dns_answers_cons. cbn [filter].
    unfold answered at 1. unfold records.
    destruct (dns_resolve w tgt t) as [a|e] eqn:D.
    + rewrite dict_set_new by (apply Hacc; now left).
      rewrite IH; [|exact ND'|].
      * cbn [map]. rewrite D. unfold records. now rewrite <- app_assoc.
      * intros rt Hrt. unfold keys. rewrite map_app. cbn [map fst].
        intros Hin. apply in_app_or in Hin as [Hin|[Hin|[]]].
        -- revert Hin. apply Hacc. now right.
        -- injection Hin as ->. contradiction.
    + rewrite IH; [reflexivity | exact ND' |].
      intros rt Hrt. apply Hacc. now right.
Qed.

(** X12.  For a hostname, [dns_records] lists exactly the record types
    whose query answered, each with its records, in the fixed order
    A, AAAA, MX, NS, TXT, SOA, CNAME; when no query answers it is the
    empty dict, not a marker. *)
Theorem dns_records_in_fixed_order (w : world) (st : state) :
  is_ip_address (target st) = false ->
  report_field "dns_records" (snd (get_dns_records w st))
  = Some (VDict (map (fun rt => (KStr rt, records w (target st) rt))
                     (filter (answered w (target st))
                             ["A"; "AAAA"; "MX"; "NS"; "TXT"; "SOA"; "CNAME"]))).
Proof.
  intros IP. rewrite get_dns_records_spec.
  unfold report_field, dns_value. cbn [snd results].
  rewrite dict_get_set_same, IP.
  rewrite dns_answers_new; [reflexivity | apply record_types_NoDup |].
  intros rt _ [].
Qed.

Lemma dns_records_in_fixed_order_witness :
  is_ip_address (target (set_target "example.com")) = false /\
  report_field "dns_records"
    (snd (get_dns_records Samples.web (set_target "example.com")))
  = Some (VDict (map (fun rt => (KStr rt,
                                 records Samples.web
                                         (target (set_target "example.com")) rt))
                     (filter (answered Samples.web
                                       (target (set_target "example.com")))
                             ["A"; "AAAA"; "MX"; "NS"; "TXT"; "SOA"; "CNAME"]))).
Proof.
  split; [reflexivity|].
  apply (dns_records_in_fixed_order Samples.web (set_target "example.com")).
  reflexivity.
Defined.

Lemma length_append (a b : string) :
  String.length (a ++ b) = (String.length a + String.length b)%nat.
Proof. induction a as [|c a IH]; simpl; [reflexivity|now rewrite IH]. Qed.

Lemma string_forall_append (f : ascii -> bool) (a b : string) :
  string_forall f (a ++ b) = string_forall f a && string_forall f b.
Proof.
  induction a as [|c a IH]; simpl; [reflexivity|].
  now rewrite IH, andb_assoc.
Qed.

Lemma digit_group_shape (g : string) :
  digit_group g = true ->
  (1 <= String.length g <= 3)%nat /\ string_forall address_char g = true.
Proof.
  unfold digit_group. intros H.
  apply andb_prop in H as [H A]. apply andb_prop in H as [L1 L3].
  apply Nat.leb_le in L1, L3. split; [lia|].
  clear L1 L3. induction g as [|c g IH]; [reflexivity|].
  simpl in *. apply andb_prop in A as [D A].
  unfold address_char at 1. rewrite D. simpl. now apply IH.
Qed.

(** X13.  A text that [is_ip_address] accepts has between 7 and 16
    characters, and each of them is a digit, a period or a newline: no
    letter, space, slash or colon gets through.  Texts are over the
    one-byte characters, among which the digits of [\d] are 0 to 9. *)
Theorem address_text_shape (s : string) :
  is_ip_address s = true ->
  (7 <= String.length s <= 16)%nat /\ string_forall address_char s = true.
Proof.
  intros H. apply ClassifierFacts.is_ip_address_spec in H.
  assert (G : exists g1 g2 g3 g4 t,
             digit_group g1 = true /\ digit_group g2 = true /\
             digit_group g3 = true /\ digit_group g4 = true /\
             (t = EmptyString \/ t = String Re.newline EmptyString) /\
             s = (g1 ++ "." ++ g2 ++ "." ++ g3 ++ "." ++ g4 ++ t)%string).
  { destruct H as [H|H];
      destruct H as (g1 & g2 & g3 & g4 & G1 & G2 & G3 & G4 & E);
      exists g1, g2, g3, g4;
      [exists EmptyString | exists (String Re.newline EmptyString)];
      auto 10. }
  destruct G as (g1 & g2 & g3 & g4 & t & G1 & G2 & G3 & G4 & T & ->).
  apply digit_group_shape in G1 as [L1 F1], G2 as [L2 F2],
    G3 as [L3 F3], G4 as [L4 F4].
  assert (Tl : (String.length t <= 1)%nat /\ string_forall address_char t = true)
    by (destruct T as [-> | ->]; split; simpl; auto).
  destruct Tl as [Lt Ft].
  rewrite !length_append, !string_forall_append.
  rewrite F1, F2, F3, F4, Ft. simpl. split; [lia|reflexivity].
Qed.

Lemma address_text_shape_witness :
  is_ip_address "999.999.999.999" = true /\
  (7 <= String.length "999.999.999.999" <= 16)%nat /\
  string_forall address_char "999.999.999.999" = true.
Proof.
  split; [reflexivity|].
  apply (address_text_shape "999.999.999.999"). reflexivity.
Defined.

(** X14.  The report of a run that completes lists its fields in the order
    in which the collectors ran: [ip_address] (for a hostname only),
    [whois], [dns_records], [port_scan], and last the headers of the
    first protocol that answered, if one did. *)
Theorem report_fields_in_run_order (w : world) (tgt : string) :
  run_completes w tgt = true ->
  keys (results (snd (main w tgt)))
  = map KStr ((if is_ip_address tgt then [] else ["ip_address"])
              ++ ["whois"; "dns_records"; "port_scan"]
              ++ match first_success w tgt protocols with
                 | Some (p, _) => [(p ++ "_headers")%string]
                 | None => []
                 end).
Proof.
  intros C. change (main w tgt) with (run_recon w (set_target tgt)).
  rewrite (run_recon_exact w (set_target tgt) eq_refl C).
  cbn [snd results set_target target]. apply ReportFacts.report_results_keys.
Qed.

Lemma report_fields_in_run_order_witness :
  run_completes Samples.web "example.com" = true /\
  keys (results (snd (main Samples.web "example.com")))
  = map KStr ((if is_ip_address "example.com" then [] else ["ip_address"])
              ++ ["whois"; "dns_records"; "port_scan"]
              ++ match first_success Samples.web "example.com" protocols with
                 | Some (p, _) => [(p ++ "_headers")%string]
                 | None => []
                 end).
Proof.
  assert (C : run_completes Samples.web "example.com" = true)
    by (vm_compute; reflexivity).
  split; [exact C|].
  exact (report_fields_in_run_order Samples.web "example.com" C).
Defined.

Lemma network_socket_calls (es : list event) :
  forallb socket_call es = true ->
  forallb network_call es = true /\
  resolutions es = [] /\
  dns_queries es = [].
Proof.
  induction es as [|e es IH]; [simpl; auto|].
  cbn [forallb]. intros H. apply andb_prop in H as [H1 H2].
  destruct (IH H2) as (? & ? & ?).
  destruct e; try discriminate; simpl; auto.
Qed.

Lemma network_servbyport (l : list Z) :
  forallb network_call (map ServByPort l) = true /\
  resolutions (map ServByPort l) = [] /\
  dns_queries (map ServByPort l) = [].
Proof. induction l; simpl; auto. Qed.

Lemma network_http (tgt : string) (l : list string) :
  forallb network_call (map (fun p => HttpGet (url_of p tgt) 5) l) = true /\
  resolutions (map (fun p => HttpGet (url_of p tgt) 5) l) = [] /\
  dns_queries (map (fun p => HttpGet (url_of p tgt) 5) l) = [].
Proof. induction l; simpl; auto. Qed.

Lemma network_dns (tgt : string) (l : list string) :
  forallb network_call (map (DnsQuery tgt) l) = true /\
  resolutions (map (DnsQuery tgt) l) = [] /\
  dns_queries (map (DnsQuery tgt) l) = map (pair tgt) l.
Proof.
  induction l as [|rt l IH]; simpl; auto.
  destruct IH as (? & ? & ->). auto.
Qed.

Lemma resolutions_app : forall a b,
  resolutions (a ++ b) = resolutions a ++ resolutions b.
Proof. by_events. Qed.

Lemma dns_queries_app : forall a b,
  dns_queries (a ++ b) = dns_queries a ++ dns_queries b.
Proof. by_events. Qed.

(** X15.  In a run that completes the file is written once and last,
    after every network call.  Before it, WHOIS is queried exactly once
    whatever the target; the resolver is called once for a hostname and
    never for an address; and DNS is queried for the seven record types
    of a hostname and never for an address. *)
Theorem file_is_written_last (w : world) (tgt : string) :
  run_completes w tgt = true ->
  exists calls,
    trace (snd (main w tgt)) = calls ++ [FileWrite (tgt ++ "_recon.json")] /\
    forallb network_call calls = true /\
    whois_queries calls = [tgt] /\
    resolutions calls = (if is_ip_address tgt then [] else [tgt]) /\
    dns_queries calls
    = (if is_ip_address tgt then [] else map (pair tgt) record_types).
Proof.
  intros C. change (main w tgt) with (run_recon w (set_target tgt)).
  rewrite (run_recon_exact w (set_target tgt) eq_refl C).
  cbn [snd trace set_target target app]. unfold run_trace.
  set (scan := scan_events w tgt).
  assert (S : forallb network_call scan = true /\ whois_queries scan = [] /\
              resolutions scan = [] /\ dns_queries scan = []).
  { unfold scan, scan_events. destruct (resolved w tgt) as [a|]; [|auto].
    destruct (not_ip (Some a)); [auto|].
    destruct (network_socket_calls _ (probe_socket_calls w a common_ports))
      as (P1 & P2 & P3).
    destruct (quiet_probe w a common_ports) as (_ & _ & _ & P4).
    destruct (network_servbyport (open_ports_of w a)) as (Q1 & Q2 & Q3).
    destruct (quiet_servbyport (open_ports_of w a)) as (_ & _ & Q4 & _).
    rewrite forallb_app, whois_queries_app, resolutions_app, dns_queries_app.
    rewrite P1, P2, P3, P4, Q1, Q2, Q3, Q4. auto. }
  destruct S as (S1 & S2 & S3 & S4).
  destruct (network_http tgt (tried w tgt protocols)) as (H1 & H2 & H3).
  destruct (quiet_http tgt (tried w tgt protocols)) as (_ & _ & H4 & _).
  destruct (network_dns tgt record_types) as (D1 & D2 & D3).
  destruct (quiet_dns tgt record_types) as (_ & _ & _ & D4 & _).
  exists ((if is_ip_address tgt then [] else [GetHostByName tgt])
          ++ [WhoisQuery tgt]
          ++ (if is_ip_address tgt then [] else map (DnsQuery tgt) record_types)
          ++ scan
          ++ map (fun p => HttpGet (url_of p tgt) 5) (tried w tgt protocols)).
  split; [now rewrite <- !app_assoc|].
  rewrite !forallb_app, !whois_queries_app, !resolutions_app, !dns_queries_app.
  rewrite S1, S2, S3, S4, H1, H2, H3, H4.
  destruct (is_ip_address tgt); cbn [forallb network_call whois_queries
    resolutions dns_queries app andb];
    rewrite ?D1, ?D2, ?D3, ?D4, ?app_nil_r; auto.
Qed.

Lemma file_is_written_last_witness :
  run_completes Samples.web "93.184.216.34" = true /\
  exists calls,
    trace (snd (main Samples.web "93.184.216.34"))
    = calls ++ [FileWrite "93.184.216.34_recon.json"] /\
    forallb network_call calls = true /\
    whois_queries calls = ["93.184.216.34"] /\
    resolutions calls
    = (if is_ip_address "93.184.216.34" then [] else ["93.184.216.34"]) /\
    dns_queries calls
    = (if is_ip_address "93.184.216.34" then []
       else map (pair "93.184.216.34") record_types).
Proof.
  assert (C : run_completes Samples.web "93.184.216.34" = true)
    by (vm_compute; reflexivity).
  split; [exact C|].
  exact (file_is_written_last Samples.web "93.184.216.34" C).
Defined.

(** X16.  The file of a run that completes is a JSON object of two
    members, [target] holding the target text and [results] holding one
    member per field of the report, in report order.  After a scan the
    [port_scan] member is an object that names each open port by its
    decimal digits, in list order, with its service label as a string. *)
Theorem artifact_layout (w : world) (tgt : string) :
  run_completes w tgt = true ->
  exists members,
    files (snd (main w tgt))
    = [((tgt ++ "_recon.json")%string,
        Json.JObject [("target", Json.JString tgt);
                      ("results", Json.JObject members)])] /\
    map fst members = map Json.key_name (keys (results (snd (main w tgt)))) /\
    forall a,
      resolved w tgt = Some a -> not_ip (Some a) = false ->
      In ("port_scan",
          Json.JObject (map (fun p => (Json.str_of_int p,
                                       Json.JString (service_label w p)))
                            (filter (is_open w a) common_ports)))
         members.
Proof.
  intros C. change (main w tgt) with (run_recon w (set_target tgt)).
  rewrite (run_recon_exact w (set_target tgt) eq_refl C).
  cbn [snd files results set_target target].
  exists (map (fun kv => (Json.key_name (fst kv), Json.dumps (snd kv)))
              (report_results w tgt)).
  split; [|split].
  - unfold file_write, report. cbn [filter].
    rewrite JsonFacts.dumps_dict. cbn [map fst snd Json.key_name].
    rewrite JsonFacts.dumps_dict. reflexivity.
  - unfold keys. now rewrite !map_map.
  - intros a R N.
    assert (P : In (KStr "port_scan", port_value w tgt) (report_results w tgt)).
    { unfold report_results. apply in_or_app. right. simpl. auto. }
    apply (in_map (fun kv => (Json.key_name (fst kv), Json.dumps (snd kv)))) in P.
    cbn [fst snd Json.key_name] in P.
    unfold port_value in P. rewrite R, N in P.
    rewrite ReportFacts.labelled_open_ports, JsonFacts.dumps_dict, map_map in P.
    cbn [fst snd Json.key_name Json.dumps] in P.
    rewrite open_ports_of_eq in P. exact P.
Qed.

Lemma artifact_layout_witness :
  run_completes Samples.web "example.com" = true /\
  exists members,
    files (snd (main Samples.web "example.com"))
    = [("example.com_recon.json",
        Json.JObject [("target", Json.JString "example.com");
                      ("results", Json.JObject members)])] /\
    map fst members
    = map Json.key_name (keys (results (snd (main Samples.web "example.com")))) /\
    forall a,
      resolved Samples.web "example.com" = Some a -> not_ip (Some a) = false ->
      In ("port_scan",
          Json.JObject (map (fun p => (Json.str_of_int p,
                                       Json.JString (service_label Samples.web p)))
                            (filter (is_open Samples.web a) common_ports)))
         members.
Proof.
  assert (C : run_completes Samples.web "example.com" = true)
    by (vm_compute; reflexivity).
  split; [exact C|].
  exact (artifact_layout Samples.web "example.com" C).
Defined.
